(** * ambf_addon: a shallow embedding of the ADF exporter and importer

    The add-on converts between a Blender scene (bodies with world poses,
    rigid-body constraints) and an AMBF description file.  This development
    embeds the parts of [ambf_addon.py] that decide the documented behaviour:

    - the bounding-box axis classification ([get_major_axis] and friends),
    - the hierarchical traversal ([populate_heirarchial_tree]),
    - the joint classification of the exporter ([get_joint_axis],
      [assign_joint_params]),
    - the geometry kernel ([rot_matrix_from_vecs], [get_rot_mat_from_vecs]),
    - the importer's collision-group loading, its alignment pass
      ([adjust_body_pivots_and_axis]) and the order of its [execute],
    - the export of one joint with its offset angle ([generate_joint_data])
      and the pose the importer gives the child
      ([get_child_in_parent_transform]).

    Python floats are idealised as exact numbers: rationals [Q] where the code
    only adds, subtracts, compares and rounds; reals [R] where it calls
    [math.sqrt] or the trigonometry of [mathutils].  Exceptions are explicit
    results. *)

From Stdlib Require Import QArith Qabs Qround Reals Lqa Lra Lia ZArith.
From stdpp Require Import gmap strings list.

(* ===================================================================== *)
(** * Part I: the embedding *)
(* ===================================================================== *)

(** ** Python built-ins used by the add-on *)

Module Py.

Section ListBuiltins.
Context {A : Type}.
Variable ltb : A -> A -> bool.
Variable eqb : A -> A -> bool.

(** [max(l)]: the running maximum is replaced only by a strictly larger
    item, so the first of several equal maxima is kept. *)
Fixpoint max_from (m : A) (l : list A) : A :=
  match l with
  | [] => m
  | x :: l' => max_from (if ltb m x then x else m) l'
  end.

Definition max (l : list A) : option A :=
  match l with
  | [] => None
  | x :: l' => Some (max_from x l')
  end.

(** [min(l)]: replaced only by a strictly smaller item. *)
Fixpoint min_from (m : A) (l : list A) : A :=
  match l with
  | [] => m
  | x :: l' => min_from (if ltb x m then x else m) l'
  end.

Definition min (l : list A) : option A :=
  match l with
  | [] => None
  | x :: l' => Some (min_from x l')
  end.

(** [l.index(x)]: position of the first item equal to [x]; [None] stands
    for the [ValueError] raised when there is none. *)
Fixpoint index (x : A) (l : list A) : option nat :=
  match l with
  | [] => None
  | y :: l' => if eqb y x then Some 0%nat else S <$> index x l'
  end.
End ListBuiltins.

(** [l[i] = x] on a list: an [IndexError] ([None]) outside the list. *)
Definition setitem {A : Type} (l : list A) (i : nat) (x : A) : option (list A) :=
  if decide (i < length l)%nat then Some (<[i := x]> l) else None.

Definition Qltb (x y : Q) : bool := negb (Qle_bool y x).

(** [round(x, 3)] on an exact number: nearest multiple of 1/1000, ties to the
    even multiple. *)
Definition round_half_even (q : Q) : Z :=
  let n := Qfloor q in
  let f := (q - inject_Z n)%Q in
  if Qltb f (1 # 2) then n
  else if Qltb (1 # 2) f then (n + 1)%Z
  else if Z.even n then n else (n + 1)%Z.

Definition round3 (q : Q) : Q :=
  (inject_Z (round_half_even (q * 1000)) / 1000)%Q.

End Py.

(** ** Shape inference: bounding-box axis classification *)

Module Shape.

(** A Blender dimension vector, and the 3-element list [od] made from it. *)
Definition dims : Type := (Q * Q * Q)%type.

Definition dget (d : dims) (i : nat) : option Q :=
  let '(d0, d1, d2) := d in [d0; d1; d2] !! i.

(** The local table [axis = {0: 'x', 1: 'y', 2: 'z'}]. *)
Definition axis (i : nat) : option string :=
  match i with
  | 0%nat => Some "x"%string
  | 1%nat => Some "y"%string
  | 2%nat => Some "z"%string
  | _ => None
  end.

(** The list [sum_diff] computed by [get_major_axis] and [get_minor_axis]. *)
Definition sum_diff (d : dims) : list Q :=
  let '(d0, d1, d2) := d in
  [ (Qabs (d0 - d1) + Qabs (d0 - d2))%Q;
    (Qabs (d1 - d0) + Qabs (d1 - d2))%Q;
    (Qabs (d2 - d0) + Qabs (d2 - d1))%Q ].

Definition qmax := Py.max Py.Qltb.
Definition qmin := Py.min Py.Qltb.
Definition qindex := Py.index Qeq_bool.
Definition zmax := Py.max Z.ltb.
Definition zindex := Py.index Z.eqb.

Definition get_major_axis (d : dims) : option (string * nat) :=
  let sd := sum_diff d in
  s0 ← sd !! 0%nat; s1 ← sd !! 1%nat; s2 ← sd !! 2%nat;
  axis_idx ←
    (if Qeq_bool s0 s1 && Qeq_bool s1 s2 then Some 2%nat
     else (m ← qmax sd; qindex m sd));
  c ← axis axis_idx;
  Some (c, axis_idx).

Definition get_minor_axis (d : dims) : option (string * nat) :=
  let sd := sum_diff d in
  mx ← qmax sd; max_idx ← qindex mx sd;
  mn ← qmin sd; min_idx ← qindex mn sd;
  let sort_idx := [1; 1; 1]%Z in
  sort_idx ← Py.setitem sort_idx max_idx 0%Z;
  sort_idx ← Py.setitem sort_idx min_idx 0%Z;
  m ← zmax sort_idx;
  median_idx ← zindex m sort_idx;
  c ← axis median_idx;
  Some (c, median_idx).

Definition get_median_axis (d : dims) : option (string * nat) :=
  '(maj_ax, maj_ax_idx) ← get_major_axis d;
  '(min_ax, min_ax_idx) ← get_minor_axis d;
  let med_axis_idx := [1; 1; 1]%Z in
  med_axis_idx ← Py.setitem med_axis_idx maj_ax_idx 0%Z;
  med_axis_idx ← Py.setitem med_axis_idx min_ax_idx 0%Z;
  m ← zmax med_axis_idx;
  axis_idx ← zindex m med_axis_idx;
  c ← axis axis_idx;
  Some (c, axis_idx).

(** The collision shapes of a Blender rigid body and the geometry record
    [bcg] that [generate_body_data] derives for the primitive ones. *)
Inductive collision_shape :=
  CONVEX_HULL | MESH | BOX | SPHERE | CYLINDER | CAPSULE | CONE.

Inductive collision_geometry :=
| GeoBox (x y z : Q)
| GeoSphere (radius : Q)
| GeoAxial (radius height : Q) (axis : string).

Definition rounded_dims (d : dims) : dims :=
  let '(d0, d1, d2) := d in (Py.round3 d0, Py.round3 d1, Py.round3 d2).

Definition axial_geometry (od : dims) : option collision_geometry :=
  '(major_ax_char, major_ax_idx) ← get_major_axis od;
  '(median_ax_char, median_ax_idx) ← get_median_axis od;
  r ← dget od median_ax_idx;
  h ← dget od major_ax_idx;
  Some (GeoAxial (r / 2) h major_ax_char).

(** The branch of [generate_body_data] that derives the entry
    ['collision geometry'] from the dimensions (no previously loaded
    geometry).  The inner [None] is a shape for which no entry is written. *)
Definition derive_collision_geometry (ocs : collision_shape) (d : dims)
  : option (option collision_geometry) :=
  let od := rounded_dims d in
  match ocs with
  | CONVEX_HULL | MESH => Some None
  | BOX => let '(x, y, z) := od in Some (Some (GeoBox x y z))
  | SPHERE =>
      let '(x, y, z) := od in
      m ← qmax [x; y; z]; Some (Some (GeoSphere (m / 2)))
  | CYLINDER | CAPSULE | CONE => Some <$> axial_geometry od
  end.

(** Reading of the classification in terms of the score
    [score[i] = sum_j |d[i] - d[j]|]. *)
Definition score (d : dims) (i : nat) : option Q := sum_diff d !! i.

Definition is_argmax (d : dims) (i : nat) : Prop :=
  exists s, score d i = Some s /\ forall j t, score d j = Some t -> (t <= s)%Q.

Definition is_argmin (d : dims) (i : nat) : Prop :=
  exists s, score d i = Some s /\ forall j t, score d j = Some t -> (s <= t)%Q.

(** The reading under which the minor-axis function is the argmin of the
    score and the median-axis function whatever index is left. *)
Definition minor_is_argmin (d : dims) : Prop :=
  exists c i, get_minor_axis d = Some (c, i) /\ is_argmin d i.

End Shape.

(** ** Exceptions as results *)

(** The Python exceptions the embedded code can raise.  [OutOfFuel] is not
    one of them: it marks a loop or a recursion cut off by the bound the
    embedding puts on it. *)
Inductive exn :=
| ValueError
| ZeroDivisionError
| IndexError
| KeyError (key : string)
| UnboundLocalError (var : string)
| AttributeError (attr : string)
| OutOfFuel.

Inductive result (A : Type) :=
| Ok (a : A)
| Raise (e : exn).
Arguments Ok {A} a.
Arguments Raise {A} e.

Global Instance result_ret : MRet result := @Ok.
Global Instance result_bind : MBind result :=
  fun A B f m => match m with Ok a => f a | Raise e => Raise e end.

(** Reading a key or a local variable that may be missing. *)
Definition getitem {A : Type} (key : string) (o : option A) : result A :=
  match o with Some a => Ok a | None => Raise (KeyError key) end.

Definition getlocal {A : Type} (var : string) (o : option A) : result A :=
  match o with Some a => Ok a | None => Raise (UnboundLocalError var) end.

(** A [for] loop threading a state. *)
Fixpoint for_each {A S : Type} (f : A -> S -> result S) (l : list A) (s : S)
  : result S :=
  match l with
  | [] => Ok s
  | a :: l' => s' ← f a s; for_each f l' s'
  end.

(** ** The part of Blender's [mathutils] the add-on calls

    [mathutils] is Blender's own library, not part of the add-on.  Its
    vectors and matrices are modelled after its documentation: matrices are
    indexed [m[row][col]], [*] between matrices is the matrix product (Blender
    2.79), [Vector.angle] raises [ValueError] on a zero-length vector, and
    [Matrix.Rotation] normalises its axis (identity for a zero axis). *)

Module Mathutils.
Local Open Scope R_scope.

Global Instance Rlt_decision (x y : R) : Decision (x < y) := Rlt_dec x y.
Global Instance Rle_decision (x y : R) : Decision (x <= y) := Rle_dec x y.
Global Instance Req_decision : EqDecision R := Req_dec_T.

Record Vector := Vec { vx : R; vy : R; vz : R }.
Record Matrix3 := Mat3 { row0 : Vector; row1 : Vector; row2 : Vector }.

Definition vget (v : Vector) (i : nat) : R :=
  match i with 0%nat => vx v | 1%nat => vy v | _ => vz v end.

Definition Identity3 : Matrix3 :=
  Mat3 (Vec 1 0 0) (Vec 0 1 0) (Vec 0 0 1).

Definition dot (a b : Vector) : R := vx a * vx b + vy a * vy b + vz a * vz b.

Definition cross (a b : Vector) : Vector :=
  Vec (vy a * vz b - vz a * vy b)
      (vz a * vx b - vx a * vz b)
      (vx a * vy b - vy a * vx b).

Definition length (v : Vector) : R := sqrt (dot v v).

Definition vscale (k : R) (v : Vector) : Vector :=
  Vec (k * vx v) (k * vy v) (k * vz v).

Definition vadd (a b : Vector) : Vector :=
  Vec (vx a + vx b) (vy a + vy b) (vz a + vz b).

(** [v1.angle(v2)] *)
Definition angle (v1 v2 : Vector) : result R :=
  if decide (dot v1 v1 = 0) then Raise ValueError
  else if decide (dot v2 v2 = 0) then Raise ValueError
  else Ok (acos (dot v1 v2 / (sqrt (dot v1 v1) * sqrt (dot v2 v2)))).

Definition col (m : Matrix3) (j : nat) : Vector :=
  Vec (vget (row0 m) j) (vget (row1 m) j) (vget (row2 m) j).

Definition madd (a b : Matrix3) : Matrix3 :=
  Mat3 (vadd (row0 a) (row0 b)) (vadd (row1 a) (row1 b)) (vadd (row2 a) (row2 b)).

Definition mscale (a : Matrix3) (k : R) : Matrix3 :=
  Mat3 (vscale k (row0 a)) (vscale k (row1 a)) (vscale k (row2 a)).

Definition mrow (r : Vector) (b : Matrix3) : Vector :=
  Vec (dot r (col b 0)) (dot r (col b 1)) (dot r (col b 2)).

Definition mmul (a b : Matrix3) : Matrix3 :=
  Mat3 (mrow (row0 a) b) (mrow (row1 a) b) (mrow (row2 a) b).

Definition mapply (a : Matrix3) (v : Vector) : Vector :=
  Vec (dot (row0 a) v) (dot (row1 a) v) (dot (row2 a) v).

(** [Matrix.Rotation(angle, 3, axis)] for a vector axis. *)
Definition Rotation3 (theta : R) (axis : Vector) : Matrix3 :=
  let l := length axis in
  if decide (l = 0) then Identity3
  else
    let n := vscale (/ l) axis in
    let c := cos theta in
    let s := sin theta in
    let t := 1 - c in
    Mat3 (Vec (t * vx n * vx n + c) (t * vx n * vy n - s * vz n) (t * vx n * vz n + s * vy n))
         (Vec (t * vx n * vy n + s * vz n) (t * vy n * vy n + c) (t * vy n * vz n - s * vx n))
         (Vec (t * vx n * vz n - s * vy n) (t * vy n * vz n + s * vx n) (t * vz n * vz n + c)).

(** A 4x4 matrix of the add-on is always an affine map: a 3x3 block and a
    translation column over the constant last row [0 0 0 1]. *)
Record Matrix4 := Mat4 { block : Matrix3; translation : Vector }.

Definition Identity4 : Matrix4 := Mat4 Identity3 (Vec 0 0 0).

Definition Rotation4 (theta : R) (axis : Vector) : Matrix4 :=
  Mat4 (Rotation3 theta axis) (Vec 0 0 0).

Definition mmul4 (a b : Matrix4) : Matrix4 :=
  Mat4 (mmul (block a) (block b))
       (vadd (mapply (block a) (translation b)) (translation a)).

Definition with_translation (m : Matrix4) (t : Vector) : Matrix4 :=
  Mat4 (block m) t.

Definition mapply4 (a : Matrix4) (v : Vector) : Vector :=
  vadd (mapply (block a) v) (translation a).

Definition det3 (m : Matrix3) : R :=
  let '(Mat3 (Vec a b c) (Vec d e f) (Vec g h i)) := m in
  a * (e * i - f * h) - b * (d * i - f * g) + c * (d * h - e * g).

(** [Matrix.invert()]: [ValueError] when the matrix has no inverse. *)
Definition invert3 (m : Matrix3) : result Matrix3 :=
  let '(Mat3 (Vec a b c) (Vec d e f) (Vec g h i)) := m in
  let det := det3 m in
  if decide (det = 0) then Raise ValueError
  else
    Ok (mscale
          (Mat3 (Vec (e * i - f * h) (c * h - b * i) (b * f - c * e))
                (Vec (f * g - d * i) (a * i - c * g) (c * d - a * f))
                (Vec (d * h - e * g) (b * g - a * h) (a * e - b * d)))
          (/ det)).

Definition invert4 (m : Matrix4) : result Matrix4 :=
  inv ← invert3 (block m);
  Ok (Mat4 inv (vscale (-1) (mapply inv (translation m)))).

End Mathutils.

(** ** Geometry kernel of the add-on *)

Module Kernel.
Import Mathutils.
Local Open Scope R_scope.

Definition skew_mat (v : Vector) : Matrix3 :=
  Mat3 (Vec 0 (- vz v) (vy v))
       (Vec (vz v) 0 (- vx v))
       (Vec (- vy v) (vx v) 0).

Definition vec_norm (v : Vector) : R :=
  sqrt (vx v ^ 2 + vy v ^ 2 + vz v ^ 2).

(** Float division: [ZeroDivisionError] on a zero divisor. *)
Definition fdiv (x y : R) : result R :=
  if decide (y = 0) then Raise ZeroDivisionError else Ok (x / y).

Definition nx : Vector := Vec 1 0 0.
Definition ny : Vector := Vec 0 1 0.

Definition rot_matrix_from_vecs (v1 v2 : Vector) : result Matrix3 :=
  let out := Identity3 in
  let vcross := cross v1 v2 in
  let vdot := dot v1 v2 in
  rot_angle ← angle v1 v2;
  if decide (1 - vdot < 1 / 10) then Ok out
  else if decide (1 + vdot < 1 / 10) then
    temp_ang ← angle v1 nx;
    if decide (1 / 10 < Rabs temp_ang /\ Rabs temp_ang < 313 / 100) then
      let axis := cross v1 nx in
      Ok (Rotation3 rot_angle axis)
    else
      let axis := cross v1 ny in
      Ok (Rotation3 rot_angle axis)
  else
    let skew_v := skew_mat vcross in
    k ← fdiv (1 - vdot) (vec_norm vcross ^ 2);
    Ok (madd (madd Identity3 skew_v) (mscale (mmul skew_v skew_v) k)).

Definition get_rot_mat_from_vecs (vecA vecB : Vector) : result (Matrix4 * R) :=
  ang ← angle vecA vecB;
  axis ←
    (if decide (Rabs ang <= 1 / 10) then Ok (Vec 0 1 0)
     else if decide (313 / 100 <= Rabs ang) then
       temp_ang ← angle vecA nx;
       if decide (1 / 10 < Rabs temp_ang /\ Rabs temp_ang < 313 / 100)
       then Ok (cross vecA nx)
       else Ok (cross vecA ny)
     else Ok (cross vecA vecB));
  Ok (Rotation4 ang axis, ang).

(** [round(x, 3)] on a real: nearest multiple of 1/1000, ties to even. *)
Definition Rround_half_even (x : R) : Z :=
  let n := Int_part x in
  let f := frac_part x in
  if decide (f < 1 / 2) then n
  else if decide (1 / 2 < f) then (n + 1)%Z
  else if Z.even n then n else (n + 1)%Z.

Definition Rround3 (x : R) : R := IZR (Rround_half_even (x * 1000)) / 1000.

Definition round_vec (v : Vector) : Vector :=
  Vec (Rround3 (vx v)) (Rround3 (vy v)) (Rround3 (vz v)).

(** What the kernel's degenerate branch would be if the Y axis were the
    reference exactly when the angle to X lies in (0.1, 3.13), and the turn
    were a half turn. *)
Definition antiparallel_as_stated (v1 : Vector) (temp_ang : R) : Matrix3 :=
  if decide (1 / 10 < Rabs temp_ang /\ Rabs temp_ang < 313 / 100)
  then Rotation3 PI (cross v1 ny)
  else Rotation3 PI (cross v1 nx).

Definition unit (v : Vector) : Prop := dot v v = 1.

End Kernel.

(** ** Exporter: joint classification *)

Module Exporter.
Local Open Scope Q_scope.

(** The rigid-body constraint kinds of Blender 2.79. *)
Inductive constraint_type :=
  FIXED | POINT | HINGE | SLIDER | PISTON | GENERIC | GENERIC_SPRING | MOTOR.

Global Instance constraint_type_eq_dec : EqDecision constraint_type.
Proof. solve_decision. Defined.

(** The attributes a constraint has per degree of freedom; for the axis
    [lin_x] they are [use_limit_lin_x], [limit_lin_x_lower],
    [limit_lin_x_upper], [use_spring_x], [spring_damping_x] and
    [spring_stiffness_x], and likewise for the other five. *)
Record dof := {
  use_limit : bool;
  limit_lower : Q;
  limit_upper : Q;
  use_spring : bool;
  spring_damping : Q;
  spring_stiffness : Q
}.

Record constraint := {
  type : constraint_type;
  lin_x : dof; lin_y : dof; lin_z : dof;
  ang_x : dof; ang_y : dof; ang_z : dof
}.

Record xyz := XYZ { x_of : Q; y_of : Q; z_of : Q }.
Record limits := Limits { low : option Q; high : option Q }.
Record gains := Gains { gain_P : Q; gain_I : Q; gain_D : Q }.

(** The joint record [joint_data]; a key that may be absent is an option. *)
Record joint_data := {
  jd_name : string;
  jd_parent : string;
  jd_child : string;
  jd_parent_axis : xyz;
  jd_parent_pivot : xyz;
  jd_child_axis : xyz;
  jd_child_pivot : xyz;
  jd_joint_limits : option limits;
  jd_controller : option gains;
  jd_type : option string;
  jd_damping : option Q;
  jd_stiffness : option Q;
  jd_detached : option bool;
  jd_offset : option Q
}.

Definition JointTemplate : joint_data := {|
  jd_name := EmptyString; jd_parent := EmptyString; jd_child := EmptyString;
  jd_parent_axis := XYZ 0 0 1;
  jd_parent_pivot := XYZ 0 0 0;
  jd_child_axis := XYZ 0 0 1;
  jd_child_pivot := XYZ 0 0 0;
  jd_joint_limits := Some (Limits (Some (- (12 # 10))) (Some (12 # 10)));
  jd_controller := Some (Gains 1000 0 1);
  jd_type := None; jd_damping := None; jd_stiffness := None;
  jd_detached := None; jd_offset := None
|}.

Definition set_type (t : string) (jd : joint_data) : joint_data :=
  {| jd_name := jd_name jd; jd_parent := jd_parent jd; jd_child := jd_child jd;
     jd_parent_axis := jd_parent_axis jd; jd_parent_pivot := jd_parent_pivot jd;
     jd_child_axis := jd_child_axis jd; jd_child_pivot := jd_child_pivot jd;
     jd_joint_limits := jd_joint_limits jd; jd_controller := jd_controller jd;
     jd_type := Some t; jd_damping := jd_damping jd;
     jd_stiffness := jd_stiffness jd; jd_detached := jd_detached jd;
     jd_offset := jd_offset jd |}.

Definition set_spring (d k : Q) (jd : joint_data) : joint_data :=
  {| jd_name := jd_name jd; jd_parent := jd_parent jd; jd_child := jd_child jd;
     jd_parent_axis := jd_parent_axis jd; jd_parent_pivot := jd_parent_pivot jd;
     jd_child_axis := jd_child_axis jd; jd_child_pivot := jd_child_pivot jd;
     jd_joint_limits := jd_joint_limits jd; jd_controller := jd_controller jd;
     jd_type := jd_type jd; jd_damping := Some d;
     jd_stiffness := Some k; jd_detached := jd_detached jd;
     jd_offset := jd_offset jd |}.

Definition set_joint_limits (l : option limits) (jd : joint_data) : joint_data :=
  {| jd_name := jd_name jd; jd_parent := jd_parent jd; jd_child := jd_child jd;
     jd_parent_axis := jd_parent_axis jd; jd_parent_pivot := jd_parent_pivot jd;
     jd_child_axis := jd_child_axis jd; jd_child_pivot := jd_child_pivot jd;
     jd_joint_limits := l; jd_controller := jd_controller jd;
     jd_type := jd_type jd; jd_damping := jd_damping jd;
     jd_stiffness := jd_stiffness jd; jd_detached := jd_detached jd;
     jd_offset := jd_offset jd |}.

(** [get_joint_axis]: the local [ax_idx] stays unbound when no branch
    assigns it. *)
Definition get_joint_axis (c : constraint)
  : result (Mathutils.Vector * nat) :=
  let ax_idx : option nat :=
    match type c with
    | HINGE => Some 2%nat
    | SLIDER => Some 0%nat
    | GENERIC =>
        if use_limit (lin_x c) || use_limit (ang_x c) then Some 0%nat
        else if use_limit (lin_y c) || use_limit (ang_y c) then Some 1%nat
        else if use_limit (lin_z c) || use_limit (ang_z c) then Some 2%nat
        else Some 2%nat
    | GENERIC_SPRING =>
        if use_limit (lin_x c) || use_limit (ang_x c) then Some 0%nat
        else if use_limit (lin_y c) || use_limit (ang_y c) then Some 1%nat
        else if use_limit (lin_z c) || use_limit (ang_z c) then Some 2%nat
        else None
    | POINT => Some 2%nat
    | FIXED => Some 2%nat
    | PISTON | MOTOR => None
    end in
  ax_idx ← getlocal "ax_idx" ax_idx;
  let joint_axis :=
    match ax_idx with
    | 0%nat => Mathutils.Vec 1 0 0
    | 1%nat => Mathutils.Vec 0 1 0
    | _ => Mathutils.Vec 0 0 1
    end in
  Ok (joint_axis, ax_idx).

(** The spring branch of [assign_joint_params] for one degree of freedom. *)
Definition spring_branch (t : string) (d : dof) (jd : joint_data)
  : joint_data * option (Q * Q) :=
  let jd := set_type t jd in
  let jd := if use_spring d
            then set_spring (spring_damping d) (spring_stiffness d) jd
            else jd in
  (jd, Some (limit_upper d, limit_lower d)).

Definition limit_branch (t : string) (d : dof) (jd : joint_data)
  : joint_data * option (Q * Q) :=
  (set_type t jd, Some (limit_upper d, limit_lower d)).

(** [assign_joint_params]; the pair of locals [(higher_limit, lower_limit)]
    is [None] while unbound. *)
Definition assign_joint_params (c : constraint) (jd : joint_data)
  : result joint_data :=
  let '(jd, lims) :=
    match type c with
    | HINGE =>
        if use_limit (ang_z c) then limit_branch "revolute" (ang_z c) jd
        else (set_type "continuous" jd, None)
    | SLIDER => limit_branch "prismatic" (lin_x c) jd
    | GENERIC =>
        if use_limit (lin_x c) then limit_branch "prismatic" (lin_x c) jd
        else if use_limit (lin_y c) then limit_branch "prismatic" (lin_y c) jd
        else if use_limit (lin_z c) then limit_branch "prismatic" (lin_z c) jd
        else if use_limit (ang_x c) then limit_branch "revolute" (ang_x c) jd
        else if use_limit (ang_y c) then limit_branch "revolute" (ang_y c) jd
        else if use_limit (ang_z c) then limit_branch "revolute" (ang_z c) jd
        else (jd, None)
    | GENERIC_SPRING =>
        if use_limit (lin_x c) then spring_branch "linear spring" (lin_x c) jd
        else if use_limit (lin_y c) then spring_branch "linear spring" (lin_y c) jd
        else if use_limit (lin_z c) then spring_branch "linear spring" (lin_z c) jd
        else if use_limit (ang_x c) then spring_branch "torsion spring" (ang_x c) jd
        else if use_limit (ang_y c) then spring_branch "torsion spring" (ang_y c) jd
        else if use_limit (ang_z c) then spring_branch "torsion spring" (ang_z c) jd
        else (jd, None)
    | POINT => (set_type "p2p" jd, None)
    | FIXED => (set_type "fixed" jd, None)
    | PISTON | MOTOR => (jd, None)
    end in
  ty ← getitem "type" (jd_type jd);
  if bool_decide (ty ∈ ["fixed"; "p2p"]) then
    _ ← getitem "joint limits" (jd_joint_limits jd);
    Ok (set_joint_limits None jd)
  else if bool_decide (ty = "continuous") then
    l ← getitem "joint limits" (jd_joint_limits jd);
    _ ← getitem "low" (low l);
    _ ← getitem "high" (high l);
    Ok (set_joint_limits (Some (Limits None None)) jd)
  else
    joint_limit_data ← getitem "joint limits" (jd_joint_limits jd);
    lower_limit ← getlocal "lower_limit" (snd <$> lims);
    higher_limit ← getlocal "higher_limit" (fst <$> lims);
    Ok (set_joint_limits
          (Some (Limits (Some (Py.round3 lower_limit))
                        (Some (Py.round3 higher_limit)))) jd).

(** The constraint kinds [generate_joint_data] exports. *)
Definition exported_types : list constraint_type :=
  [FIXED; HINGE; SLIDER; POINT; GENERIC; GENERIC_SPRING].

(** The two calls of [generate_joint_data] that depend on the constraint
    alone, in source order: [get_joint_axis] (reached through
    [compute_pivot_and_axis]) and then [assign_joint_params] on a fresh
    template.  [Ok None] is a constraint that is not exported. *)
Definition generate_joint_params (c : constraint)
  : result (option (nat * joint_data)) :=
  if bool_decide (type c ∈ exported_types) then
    '(_, ax_idx) ← get_joint_axis c;
    jd ← assign_joint_params c JointTemplate;
    Ok (Some (ax_idx, jd))
  else Ok None.

Definition no_limit_flag (c : constraint) : Prop :=
  use_limit (lin_x c) = false /\ use_limit (lin_y c) = false /\
  use_limit (lin_z c) = false /\ use_limit (ang_x c) = false /\
  use_limit (ang_y c) = false /\ use_limit (ang_z c) = false.

(** The degree of freedom a constraint is classified on: the hinge turns
    about z, the slider moves along x, a generic constraint takes the first
    limited one in the order linear x, y, z, angular x, y, z. *)
Definition classified_dof (c : constraint) : option dof :=
  match type c with
  | HINGE => if use_limit (ang_z c) then Some (ang_z c) else None
  | SLIDER => Some (lin_x c)
  | GENERIC | GENERIC_SPRING =>
      List.find use_limit [lin_x c; lin_y c; lin_z c; ang_x c; ang_y c; ang_z c]
  | _ => None
  end.

End Exporter.

(** ** Importer: rigid-body properties *)

Module Bodies.

Definition index_error {A : Type} (o : option A) : result A :=
  match o with Some a => Ok a | None => Raise IndexError end.

Inductive object_type := OB_MESH | OB_EMPTY.

Global Instance object_type_eq_dec : EqDecision object_type.
Proof. solve_decision. Defined.

(** The attributes of a loaded object that the collision-group blocks of
    [load_blender_rigid_body] and [load_ambf_rigid_body] touch.  The native
    rigid body exists only after [bpy.ops.rigidbody.object_add()]. *)
Record object := {
  ob_type : object_type;
  rigid_body_collision_groups : option (list bool);
  ambf_rigid_body_collision_groups : list bool
}.

(** Blender's default for a new rigid body: group 0 only; the add-on's
    default for its own property: no group. *)
Definition blender_default_groups : list bool := true :: replicate 19 false.
Definition ambf_default_groups : list bool := replicate 20 false.

Definition group_warning : string := "WARNING, Collision Group Outside [0-20]".

(** The loop [for group in col_groups]; [out] collects the printed lines. *)
Fixpoint set_groups (flags : list bool) (col_groups : list Z) (out : list string)
  : result (list bool * list string) :=
  match col_groups with
  | [] => Ok (flags, out)
  | group :: rest =>
      if decide (0 <= group < 20)%Z then
        flags ← index_error (Py.setitem flags (Z.to_nat group) true);
        set_groups flags rest out
      else
        set_groups flags rest (out ++ [group_warning])
  end.

(** The block under [if 'collision groups' in body_data]. *)
Definition load_collision_groups (flags : list bool) (col_groups : option (list Z))
  : result (list bool * list string) :=
  match col_groups with
  | Some col_groups =>
      flags ← index_error (Py.setitem flags 0%nat false);
      set_groups flags col_groups []
  | None => Ok (flags, [])
  end.

(** [load_blender_rigid_body], collision groups only: a mesh object gets a
    new rigid body, whose groups are then loaded. *)
Definition load_blender_rigid_body (col_groups : option (list Z)) (ob : object)
  : result (object * list string) :=
  if decide (ob_type ob = OB_MESH) then
    '(flags, out) ← load_collision_groups blender_default_groups col_groups;
    Ok ({| ob_type := ob_type ob;
           rigid_body_collision_groups := Some flags;
           ambf_rigid_body_collision_groups := ambf_rigid_body_collision_groups ob |},
        out)
  else Ok (ob, []).

(** [load_ambf_rigid_body], collision groups only. *)
Definition load_ambf_rigid_body (col_groups : option (list Z)) (ob : object)
  : result (object * list string) :=
  if decide (ob_type ob = OB_MESH) then
    '(flags, out) ←
      load_collision_groups (ambf_rigid_body_collision_groups ob) col_groups;
    Ok ({| ob_type := ob_type ob;
           rigid_body_collision_groups := rigid_body_collision_groups ob;
           ambf_rigid_body_collision_groups := flags |},
        out)
  else Ok (ob, []).

Definition in_range (group : Z) : Prop := (0 <= group < 20)%Z.

Global Instance in_range_dec (group : Z) : Decision (in_range group).
Proof. unfold in_range. apply _. Defined.

(** One printed line per listed index outside the range. *)
Definition expected_warnings (col_groups : list Z) : list string :=
  (fun _ => group_warning) <$> filter (fun g => ~ in_range g) col_groups.

End Bodies.

(** ** Tree builder: the hierarchical traversal *)

Module Tree.

(** A scene: the objects of [bpy.data.objects] in storage order, each named
    by a number, and the [parent] attribute.  [body.children] lists, in
    storage order, the objects whose parent is [body]. *)
Record scene := { objects : list nat; parent : nat -> option nat }.

Definition children (sc : scene) (body : nat) : list nat :=
  filter (fun o => parent sc o = Some body) (objects sc).

(** [get_grand_parent]: the [while] loop runs at most [fuel] times. *)
Fixpoint get_grand_parent (fuel : nat) (sc : scene) (body : nat) : result nat :=
  match fuel with
  | O => Raise OutOfFuel
  | S fuel =>
      match parent sc body with
      | None => Ok body
      | Some p => get_grand_parent fuel sc p
      end
  end.

(** The pair [(_heirarichal_bodies_list, _added_bodies_list)]. *)
Definition state : Type := list nat * gmap nat bool.

(** [downward_tree_pass]: recursion depth at most [fuel].  The test
    [body is None] has no case here: the function is only called on a grand
    parent and on children, which are objects. *)
Fixpoint downward_tree_pass (fuel : nat) (sc : scene) (body : nat) (st : state)
  : result state :=
  match fuel with
  | O => Raise OutOfFuel
  | S fuel =>
      match st.2 !! body with
      | None => Raise (KeyError "body")
      | Some true => Ok st
      | Some false =>
          let st := (st.1 ++ [body], <[body := true]> st.2) in
          for_each (fun child st => downward_tree_pass fuel sc child st)
                   (children sc body) st
      end
  end.

Definition init_added (sc : scene) : gmap nat bool :=
  foldl (fun m obj => <[obj := false]> m) ∅ (objects sc).

Definition visit (fuel : nat) (sc : scene) (obj : nat) (st : state) : result state :=
  grand_parent ← get_grand_parent fuel sc obj;
  downward_tree_pass fuel sc grand_parent st.

(** [populate_heirarchial_tree] with the second loop running over the
    starting nodes [starts]; the add-on starts from every object. *)
Definition populate_from (fuel : nat) (sc : scene) (starts : list nat)
  : result (list nat) :=
  st ← for_each (visit fuel sc) starts ([], init_added sc);
  Ok st.1.

Definition populate_heirarchial_tree (sc : scene) : result (list nat) :=
  populate_from (S (length (objects sc))) sc (objects sc).

(** [depth sc o n]: the parent chain of [o] reaches a root in [n] steps. *)
Inductive depth (sc : scene) : nat -> nat -> Prop :=
| depth_root o : parent sc o = None -> depth sc o 0
| depth_child o p n : parent sc o = Some p -> depth sc p n -> depth sc o (S n).

(** [ancestor sc a o]: [a] is a proper ancestor of [o]. *)
Inductive ancestor (sc : scene) : nat -> nat -> Prop :=
| ancestor_parent o p : parent sc o = Some p -> ancestor sc p o
| ancestor_step o p a :
    parent sc o = Some p -> ancestor sc a p -> ancestor sc a o.

(** A forest: no object is stored twice, parents are objects of the scene,
    and every parent chain ends at a root, that is, there is no cycle. *)
Record forest (sc : scene) : Prop := {
  forest_nodup : NoDup (objects sc);
  forest_closed : forall o p, o ∈ objects sc -> parent sc o = Some p -> p ∈ objects sc;
  forest_rooted : forall o, o ∈ objects sc -> exists n, depth sc o n
}.

(** [a] comes before [o] in the list [l]. *)
Definition precedes (l : list nat) (a o : nat) : Prop :=
  exists i j, (i < j)%nat /\ l !! i = Some a /\ l !! j = Some o.

(** The state between two calls of the traversal: every object has a flag,
    the flag is set exactly for the listed bodies, no body is listed twice,
    and a listed body comes after its parent. *)
Record inv (sc : scene) (st : state) : Prop := {
  inv_keys : forall o, o ∈ objects sc -> is_Some (st.2 !! o);
  inv_flag : forall o, st.2 !! o = Some true <-> o ∈ st.1;
  inv_nodup : NoDup st.1;
  inv_sub : forall o, o ∈ st.1 -> o ∈ objects sc;
  inv_order : forall j o p,
    st.1 !! j = Some o -> parent sc o = Some p ->
    exists i, (i < j)%nat /\ st.1 !! i = Some p
}.

(** Every listed body outside [open] has all its children listed. *)
Definition closed_except (sc : scene) (open : nat -> Prop) (st : state) : Prop :=
  forall o c, o ∈ st.1 -> ~ open o -> c ∈ objects sc ->
              parent sc c = Some o -> c ∈ st.1.

Definition all_closed (sc : scene) (st : state) : Prop :=
  closed_except sc (fun _ => False) st.

End Tree.

(** ** Importer: the alignment-correction pass *)

Module Importer.
Import Mathutils Kernel.
Local Open Scope R_scope.

(** The value of a [redundant] or [detached] key: a YAML boolean or a
    string. *)
Inductive yaml_flag := YBool (b : bool) | YStr (s : string).

(** The keys of a joint record the pass reads; a key that may be absent is
    an option. *)
Record joint_data := {
  jd_parent : string;
  jd_child : string;
  jd_type : option string;
  jd_parent_pivot : option Exporter.xyz;
  jd_parent_axis : option Exporter.xyz;
  jd_child_pivot : option Exporter.xyz;
  jd_child_axis : option Exporter.xyz;
  jd_redundant : option yaml_flag;
  jd_detached : option yaml_flag
}.

(** A loaded object: its type and, for a mesh, the vertices of its data. *)
Record scene_object := {
  ob_type : Bodies.object_type;
  ob_data : option (list Vector)
}.

(** The loader [self] together with [bpy.data.objects] and the printed
    lines. *)
Record loader := {
  ambf_data : gmap string joint_data;
  joints : list string;
  body_T_j_c : gmap string Matrix4;
  blender_remapped_body_names : gmap string string;
  bpy_objects : gmap string scene_object;
  printed : list string
}.

Definition print (line : string) (st : loader) : loader :=
  {| ambf_data := ambf_data st; joints := joints st;
     body_T_j_c := body_T_j_c st;
     blender_remapped_body_names := blender_remapped_body_names st;
     bpy_objects := bpy_objects st;
     printed := printed st ++ [line] |}.

(** [mathutils.Vector([d['x'], d['y'], d['z']])] *)
Definition vec_of (d : Exporter.xyz) : Vector :=
  Vec (Q2R (Exporter.x_of d)) (Q2R (Exporter.y_of d)) (Q2R (Exporter.z_of d)).

Definition is_true_flag (f : yaml_flag) : bool :=
  match f with
  | YBool b => b
  | YStr s => bool_decide (s = "True"%string)
  end.

Definition is_detached_joint (jd : joint_data) : bool :=
  let _is_detached_joint := false in
  let _is_detached_joint :=
    match jd_redundant jd with
    | Some f => if is_true_flag f then true else _is_detached_joint
    | None => _is_detached_joint
    end in
  match jd_detached jd with
  | Some f => if is_true_flag f then true else _is_detached_joint
  | None => _is_detached_joint
  end.

Definition get_parent_pivot_and_axis_data (jd : joint_data)
  : Exporter.xyz * Exporter.xyz :=
  (default (Exporter.XYZ 0 0 0) (jd_parent_pivot jd),
   default (Exporter.XYZ 0 0 1) (jd_parent_axis jd)).

Definition get_child_pivot_and_axis_data (jd : joint_data)
  : Exporter.xyz * Exporter.xyz :=
  (default (Exporter.XYZ 0 0 0) (jd_child_pivot jd),
   default (Exporter.XYZ 0 0 1) (jd_child_axis jd)).

Definition get_standard_pivot_and_axis_data (jd : joint_data)
  : result (Exporter.xyz * Exporter.xyz) :=
  let pivot_data := Exporter.XYZ 0 0 0 in
  ty ← getitem "type" (jd_type jd);
  let axis_data :=
    if bool_decide (ty ∈ ["hinge"; "continuous"; "revolute"; "fixed"]%string)
    then Exporter.XYZ 0 0 1
    else if bool_decide (ty ∈ ["prismatic"; "slider"]%string)
    then Exporter.XYZ 1 0 0
    else if bool_decide (ty ∈ ["spring"; "linear spring"]%string)
    then Exporter.XYZ 1 0 0
    else if bool_decide (ty ∈ ["angular spring"; "torsional spring";
                               "torsion spring"]%string)
    then Exporter.XYZ 0 0 1
    else if bool_decide (ty ∈ ["p2p"; "point2point"]%string)
    then Exporter.XYZ 0 0 1
    else Exporter.XYZ 0 0 1 in
  Ok (pivot_data, axis_data).

(** [obj.data.transform(m)]: an empty has no data. *)
Definition transform (ob : scene_object) (m : Matrix4) : result scene_object :=
  data ← match ob_data ob with
         | Some d => Ok d
         | None => Raise (AttributeError "transform")
         end;
  Ok {| ob_type := ob_type ob; ob_data := Some (mapply4 m <$> data) |}.

Definition alignment_warning : string := "*** WARNING: AXIS ALIGNMENT LOGIC ERROR".

(** The alignment-offset block of the pass, from the axis and angle of
    [delta_R] on: the check, the sign, and the second correction.  It
    returns the child object, the new entry of [_body_T_j_c] if one is
    written, and the printed lines. *)
Definition alignment_offset (d_axis_angle : Vector * R)
    (child_axis constraint_axis : Vector) (T_c_j : Matrix4)
    (child_obj_handle : scene_object)
  : result (scene_object * option Matrix4 * list string) :=
  let d_axis := round_vec d_axis_angle.1 in
  let d_angle := d_axis_angle.2 in
  let v_diff := cross d_axis child_axis in
  let out :=
    if decide (1 / 10 < length v_diff /\ 1 / 10 < Rabs d_angle)
    then [alignment_warning] else [] in
  let d_angle :=
    if decide (vx d_axis < 0 \/ vy d_axis < 0 \/ vz d_axis < 0)
    then - d_angle else d_angle in
  if decide (1 / 10 < Rabs d_angle) then
    let R_ao := Rotation4 d_angle constraint_axis in
    child_obj_handle ← transform child_obj_handle R_ao;
    Ok (child_obj_handle, Some (mmul4 R_ao T_c_j), out)
  else Ok (child_obj_handle, None, out).

Definition quote : string := String (Ascii.ascii_of_nat 34) EmptyString.

Definition detached_info (joint_name : string) : string :=
  ("INFO, JOINT " ++ quote ++ joint_name ++ quote ++
   " IS DETACHED, NO NEED TO ADJUST CHILD BODY'S AXIS AND PIVOTS")%string.

Section Pass.

(** [m.to_quaternion().to_axis_angle()], left to [mathutils]. *)
Variable to_axis_angle : Matrix4 -> Vector * R.

(** The body of the loop for a joint that has a child pivot and is not
    detached. *)
Definition adjust_joint (joint_name : string) (joint_data : joint_data)
    (st : loader) : result loader :=
  let child_body_name := jd_child joint_data in
  let '(parent_pivot_data, parent_axis_data) :=
    get_parent_pivot_and_axis_data joint_data in
  let '(child_pivot_data, child_axis_data) :=
    get_child_pivot_and_axis_data joint_data in
  remapped ← getitem child_body_name
                     (blender_remapped_body_names st !! child_body_name);
  child_obj_handle ← getitem remapped (bpy_objects st !! remapped);
  '(standard_pivot_data, standard_axis_data) ←
    get_standard_pivot_and_axis_data joint_data;
  let constraint_axis := vec_of standard_axis_data in
  let child_axis := vec_of child_axis_data in
  '(R_j_c, d_angle) ← get_rot_mat_from_vecs constraint_axis child_axis;
  let T_j_c := with_translation R_j_c (vec_of child_pivot_data) in
  T_c_j ← invert4 T_j_c;
  (* the pivot and axis records of the document are overwritten in place;
     a default axis record is not part of the document *)
  let joint_data' :=
    {| jd_parent := jd_parent joint_data; jd_child := jd_child joint_data;
       jd_type := jd_type joint_data;
       jd_parent_pivot := jd_parent_pivot joint_data;
       jd_parent_axis := jd_parent_axis joint_data;
       jd_child_pivot := Some standard_pivot_data;
       jd_child_axis := (fun _ => standard_axis_data) <$> jd_child_axis joint_data;
       jd_redundant := jd_redundant joint_data;
       jd_detached := jd_detached joint_data |} in
  child_obj_handle ←
    (if decide (ob_type child_obj_handle <> Bodies.OB_EMPTY)
     then transform child_obj_handle T_c_j else Ok child_obj_handle);
  let parent_axis := vec_of parent_axis_data in
  '(R_caxis_p, r_cnew_p_angle) ← get_rot_mat_from_vecs constraint_axis parent_axis;
  let R_cnew_p := mmul4 R_caxis_p T_c_j in
  '(R_c_p, r_c_p_angle) ← get_rot_mat_from_vecs child_axis parent_axis;
  R_p_cnew ← invert4 R_cnew_p;
  let delta_R := mmul4 R_p_cnew R_c_p in
  let d_axis_angle := to_axis_angle delta_R in
  '(child_obj_handle, T_ao, out) ←
    alignment_offset d_axis_angle child_axis constraint_axis T_c_j child_obj_handle;
  Ok {| ambf_data := <[joint_name := joint_data']> (ambf_data st);
        joints := joints st;
        body_T_j_c :=
          <[jd_child joint_data := default T_c_j T_ao]> (body_T_j_c st);
        blender_remapped_body_names := blender_remapped_body_names st;
        bpy_objects := <[remapped := child_obj_handle]> (bpy_objects st);
        printed := printed st ++ out |}.

(** The loop of [adjust_body_pivots_and_axis]; at a detached joint that has
    a child pivot the function returns. *)
Fixpoint adjust_loop (names : list string) (st : loader) : result loader :=
  match names with
  | [] => Ok st
  | joint_name :: rest =>
      joint_data ← getitem joint_name (ambf_data st !! joint_name);
      if bool_decide (is_Some (jd_child_pivot joint_data)) then
        if is_detached_joint joint_data then
          Ok (print (detached_info joint_name) st)
        else
          st ← adjust_joint joint_name joint_data st;
          adjust_loop rest st
      else adjust_loop rest st
  end.

Definition adjust_body_pivots_and_axis (st : loader) : result loader :=
  adjust_loop (joints st) st.

(** [execute], after the document is read: the bodies, the pass if both
    options are set, the joints.  Loading one body or one joint is left to
    the host. *)
Variable load_body : string -> loader -> result loader.
Variable load_blender_joint : string -> loader -> result loader.
Variable load_ambf_joint : string -> loader -> result loader.

Definition execute (enable_legacy_loading adjust_joint_pivots : bool)
    (bodies_list : list string) (st : loader) : result loader :=
  let joints_list := joints st in
  st ← for_each load_body bodies_list st;
  st ← (if enable_legacy_loading && adjust_joint_pivots
        then adjust_body_pivots_and_axis st else Ok st);
  for_each (fun joint_name st =>
              if enable_legacy_loading then load_blender_joint joint_name st
              else load_ambf_joint joint_name st)
           joints_list st.

End Pass.

(** The reading under which a residual axis that is not parallel to the
    joint axis (cross product longer than 0.1) is always reported and the
    correction always applied. *)
Definition warns_whenever_not_parallel (d_axis_angle : Vector * R)
    (child_axis constraint_axis : Vector) (T_c_j : Matrix4)
    (child_obj_handle : scene_object) : Prop :=
  1 / 10 < length (cross (round_vec d_axis_angle.1) child_axis) ->
  exists ob T out,
    alignment_offset d_axis_angle child_axis constraint_axis T_c_j child_obj_handle
      = Ok (ob, Some T, out) /\
    alignment_warning ∈ out.

End Importer.

(** ** Sample data *)

Module Samples.
Import Exporter.
Local Open Scope Q_scope.

Definition free_dof : dof := {|
  use_limit := false; limit_lower := 0; limit_upper := 0;
  use_spring := false; spring_damping := 0; spring_stiffness := 0 |}.

Definition limited_dof (lo hi : Q) : dof := {|
  use_limit := true; limit_lower := lo; limit_upper := hi;
  use_spring := false; spring_damping := 0; spring_stiffness := 0 |}.

Definition unconstrained (t : constraint_type) : constraint := {|
  type := t;
  lin_x := free_dof; lin_y := free_dof; lin_z := free_dof;
  ang_x := free_dof; ang_y := free_dof; ang_z := free_dof |}.

(** A hinge limited to [-0.7854, 1.5708]. *)
Definition limited_hinge : constraint := {|
  type := HINGE;
  lin_x := free_dof; lin_y := free_dof; lin_z := free_dof;
  ang_x := free_dof; ang_y := free_dof;
  ang_z := limited_dof (- (7854 # 10000)) (15708 # 10000) |}.

(** Two trees stored out of order: 0 - 1 - 2 and 3 - 4. *)
Definition two_trees : Tree.scene := {|
  Tree.objects := [2; 0; 4; 1; 3]%nat;
  Tree.parent := fun o =>
    match o with
    | 1 => Some 0
    | 2 => Some 1
    | 4 => Some 3
    | _ => None
    end%nat
|}.

(** A mesh object as [load_mesh] leaves it, and a collision-group list with
    two indices outside the range. *)
Definition fresh_mesh : Bodies.object := {|
  Bodies.ob_type := Bodies.OB_MESH;
  Bodies.rigid_body_collision_groups := None;
  Bodies.ambf_rigid_body_collision_groups := Bodies.ambf_default_groups
|}.

Definition mixed_groups : list Z := [1; 25; -3; 7]%Z.

(** A document with a detached (closed-loop) joint listed before a revolute
    joint; both carry a child pivot.  The bodies are loaded, so every body
    has its identity entry in [_body_T_j_c]. *)
Definition loop_joint : Importer.joint_data := {|
  Importer.jd_parent := "BODY c"; Importer.jd_child := "BODY a";
  Importer.jd_type := Some "revolute"%string;
  Importer.jd_parent_pivot := Some (Exporter.XYZ 0 0 0);
  Importer.jd_parent_axis := Some (Exporter.XYZ 0 0 1);
  Importer.jd_child_pivot := Some (Exporter.XYZ 0 (1 # 2) 0);
  Importer.jd_child_axis := Some (Exporter.XYZ 0 0 1);
  Importer.jd_redundant := None;
  Importer.jd_detached := Some (Importer.YBool true)
|}.

Definition revolute_joint : Importer.joint_data := {|
  Importer.jd_parent := "BODY a"; Importer.jd_child := "BODY b";
  Importer.jd_type := Some "revolute"%string;
  Importer.jd_parent_pivot := Some (Exporter.XYZ 1 0 0);
  Importer.jd_parent_axis := Some (Exporter.XYZ 0 1 0);
  Importer.jd_child_pivot := Some (Exporter.XYZ 1 0 0);
  Importer.jd_child_axis := Some (Exporter.XYZ 0 1 0);
  Importer.jd_redundant := None;
  Importer.jd_detached := None
|}.

Definition cube : Importer.scene_object := {|
  Importer.ob_type := Bodies.OB_MESH;
  Importer.ob_data := Some [Mathutils.Vec 1 1 1; Mathutils.Vec (-1) (-1) (-1)]
|}.

Definition loop_first : Importer.loader := {|
  Importer.ambf_data :=
    <["JOINT loop"%string := loop_joint]>
      (<["JOINT a-b"%string := revolute_joint]> ∅);
  Importer.joints := ["JOINT loop"; "JOINT a-b"]%string;
  Importer.body_T_j_c :=
    <["BODY a"%string := Mathutils.Identity4]>
      (<["BODY b"%string := Mathutils.Identity4]>
         (<["BODY c"%string := Mathutils.Identity4]> ∅));
  Importer.blender_remapped_body_names :=
    <["BODY a"%string := "a"%string]>
      (<["BODY b"%string := "b"%string]>
         (<["BODY c"%string := "c"%string]> ∅));
  Importer.bpy_objects :=
    <["a"%string := cube]> (<["b"%string := cube]> (<["c"%string := cube]> ∅));
  Importer.printed := []
|}.

End Samples.

(** ** Names: namespaces and the detached-joint prefix *)

Module Names.

(** [s.rfind(sub)] as a position: the highest index at which [sub] starts in
    [s], if any. *)
Fixpoint rfind_from (sub s : string) : option nat :=
  match s with
  | EmptyString => if String.prefix sub s then Some 0%nat else None
  | String _ s' =>
      match rfind_from sub s' with
      | Some i => Some (S i)
      | None => if String.prefix sub s then Some 0%nat else None
      end
  end.

(** [s.rfind(sub)]: -1 when [sub] does not occur. *)
Definition rfind (s sub : string) : Z :=
  match rfind_from sub s with
  | Some i => Z.of_nat i
  | None => (-1)%Z
  end.

Fixpoint take (n : nat) (s : string) : string :=
  match n, s with
  | S n', String a s' => String a (take n' s')
  | _, _ => EmptyString
  end.

Fixpoint drop (n : nat) (s : string) : string :=
  match n, s with
  | S n', String _ s' => drop n' s'
  | _, _ => s
  end.

(** A slice bound counted from the end when negative. *)
Definition bound (s : string) (k : Z) : nat :=
  if (k <? 0)%Z then Z.to_nat (Z.of_nat (String.length s) + k) else Z.to_nat k.

(** [s[0:k]] and [s[k:]] *)
Definition slice_to (s : string) (k : Z) : string := take (bound s k) s.
Definition slice_from (s : string) (k : Z) : string := drop (bound s k) s.

(** [s[-1]]: [IndexError] on the empty string. *)
Fixpoint last_char (s : string) : result Ascii.ascii :=
  match s with
  | EmptyString => Raise IndexError
  | String a EmptyString => Ok a
  | String _ s' => last_char s'
  end.

Definition slash : string := "/".
Definition slash_char : Ascii.ascii := Eval cbv in Ascii.ascii_of_nat 47.

Definition get_body_namespace (fullname : string) : string :=
  let last_occurance := rfind fullname slash in
  let _body_namespace := EmptyString in
  if (last_occurance >=? 0)%Z
  then slice_to fullname (last_occurance + 1)
  else _body_namespace.

Definition remove_namespace_prefix (full_name : string) : string :=
  let last_occurance := rfind full_name slash in
  if (last_occurance >? 0)%Z
  then slice_from full_name (last_occurance + 1)
  else full_name.

(** [compare_body_namespace_with_global], with [CommonConfig.namespace] as
    an argument. *)
Definition compare_body_namespace_with_global (namespace fullname : string)
  : bool :=
  let last_occurance := rfind fullname slash in
  if (last_occurance >=? 0)%Z then
    let _body_namespace := slice_to fullname (last_occurance + 1) in
    if String.eqb namespace _body_namespace then true else false
  else false.

Definition add_namespace_prefix (namespace name : string) : string :=
  (namespace ++ name)%string.

(** The two names a session keeps: [CommonConfig.namespace] and
    [context.scene.ambf_namespace]. *)
Record namespaces := { global : string; scene : string }.

Definition update_global_namespace (ns : namespaces) : result namespaces :=
  let namespace := scene ns in
  c ← last_char namespace;
  if negb (Ascii.eqb c slash_char) then
    let namespace := (namespace ++ "/")%string in
    Ok {| global := namespace; scene := (scene ns ++ namespace)%string |}
  else Ok {| global := namespace; scene := scene ns |}.

Definition set_global_namespace (ns : namespaces) (namespace : string)
  : result namespaces :=
  c ← last_char namespace;
  let namespace :=
    if negb (Ascii.eqb c slash_char) then (namespace ++ "/")%string else namespace in
  Ok {| global := namespace; scene := namespace |}.

(** [load_rigid_body_name]: the name given to a loaded body. *)
Definition load_rigid_body_name (namespace : string)
    (body_namespace : option string) (af_name : string) : string :=
  match body_namespace with
  | Some _body_namespace => (_body_namespace ++ af_name)%string
  | None => add_namespace_prefix namespace af_name
  end.

Definition detached_joint_prefix : list string :=
  ["redundant"; "Redundant"; "REDUNDANT"; "detached"; "Detached"; "DETACHED"].

(** The importer's [has_detached_prefix]: the loop runs over every prefix. *)
Definition has_detached_prefix (joint_name : string) : bool :=
  foldl (fun _has_detached_prefix _detached_joint_name_str =>
           if (rfind joint_name _detached_joint_name_str =? 0)%Z
           then true else _has_detached_prefix)
        false detached_joint_prefix.

(** The exporter's search in [generate_body_data] and [generate_joint_data]:
    the loop breaks at the first hit. *)
Fixpoint search_detached_prefix (prefixes : list string) (obj_handle_name : string)
  : bool :=
  match prefixes with
  | [] => false
  | _detached_prefix_search_str :: rest =>
      if (rfind obj_handle_name _detached_prefix_search_str =? 0)%Z
      then true
      else search_detached_prefix rest obj_handle_name
  end.

(** The name [get_blender_joint_handle] gives the empty it creates for a
    detached joint. *)
Definition detached_handle_name (joint_name : string) : string :=
  if has_detached_prefix joint_name then joint_name
  else ("detached joint " ++ joint_name)%string.

(** [sub] starts at position [k] of [s]. *)
Definition occurs_at (sub s : string) (k : nat) : Prop :=
  (k <= String.length s)%nat /\ String.prefix sub (drop k s) = true.


(** The name fields [generate_body_data] writes for an object: the
    ['namespace'] key (absent when the object's namespace is the global one
    or is empty) and ['name']. *)
Definition exported_namespace (namespace obj_name : string) : option string :=
  if negb (compare_body_namespace_with_global namespace obj_name) then
    if negb (String.eqb (get_body_namespace obj_name) EmptyString)
    then Some (get_body_namespace obj_name)
    else None
  else None.

Definition exported_name (obj_name : string) : string :=
  remove_namespace_prefix obj_name.

End Names.

(** ** Bodies: the exported collision groups *)

Module BodiesExport.

(** [[idx for idx, chk in enumerate(flags)[idx:] if chk == True]], counting
    from [idx]. *)
Fixpoint set_indices (idx : nat) (flags : list bool) : list Z :=
  match flags with
  | [] => []
  | chk :: rest =>
      if chk then Z.of_nat idx :: set_indices (S idx) rest
      else set_indices (S idx) rest
  end.

(** [body_data['collision groups']] as [generate_body_data] writes it. *)
Definition export_collision_groups (flags : list bool) : list Z :=
  set_indices 0 flags.

End BodiesExport.

(** ** Joint parameters: the exporter's controller block and the importer's
    reading of type, limits and gains *)

Module JointParams.
Import Exporter.
Local Open Scope Q_scope.

(** [round(x, 4)] *)
Definition round4 (q : Q) : Q :=
  inject_Z (Py.round_half_even (q * 10000)) / 10000.

(** The joint properties the add-on keeps on an object. *)
Record joint_props := {
  ambf_enable_joint_props : bool;
  ambf_joint_controller_p_gain : Q;
  ambf_joint_controller_d_gain : Q;
  ambf_joint_damping : Q
}.

Definition set_controller (g : option gains) (jd : joint_data) : joint_data :=
  {| jd_name := jd_name jd; jd_parent := jd_parent jd; jd_child := jd_child jd;
     jd_parent_axis := jd_parent_axis jd; jd_parent_pivot := jd_parent_pivot jd;
     jd_child_axis := jd_child_axis jd; jd_child_pivot := jd_child_pivot jd;
     jd_joint_limits := jd_joint_limits jd; jd_controller := g;
     jd_type := jd_type jd; jd_damping := jd_damping jd;
     jd_stiffness := jd_stiffness jd; jd_detached := jd_detached jd;
     jd_offset := jd_offset jd |}.

Definition set_damping (d : option Q) (jd : joint_data) : joint_data :=
  {| jd_name := jd_name jd; jd_parent := jd_parent jd; jd_child := jd_child jd;
     jd_parent_axis := jd_parent_axis jd; jd_parent_pivot := jd_parent_pivot jd;
     jd_child_axis := jd_child_axis jd; jd_child_pivot := jd_child_pivot jd;
     jd_joint_limits := jd_joint_limits jd; jd_controller := jd_controller jd;
     jd_type := jd_type jd; jd_damping := d;
     jd_stiffness := jd_stiffness jd; jd_detached := jd_detached jd;
     jd_offset := jd_offset jd |}.

Definition set_offset (o : option Q) (jd : joint_data) : joint_data :=
  {| jd_name := jd_name jd; jd_parent := jd_parent jd; jd_child := jd_child jd;
     jd_parent_axis := jd_parent_axis jd; jd_parent_pivot := jd_parent_pivot jd;
     jd_child_axis := jd_child_axis jd; jd_child_pivot := jd_child_pivot jd;
     jd_joint_limits := jd_joint_limits jd; jd_controller := jd_controller jd;
     jd_type := jd_type jd; jd_damping := jd_damping jd;
     jd_stiffness := jd_stiffness jd; jd_detached := jd_detached jd;
     jd_offset := o |}.

(** The last block of [generate_joint_data]: the controller gains of the
    record that was stored in the document. *)
Definition export_controller (t : constraint_type) (props : joint_props)
    (jd : joint_data) : joint_data :=
  if bool_decide (t ∈ [HINGE; SLIDER; GENERIC]) then
    if ambf_enable_joint_props props then
      let _gains :=
        Gains (round4 (ambf_joint_controller_p_gain props)) 0
              (round4 (ambf_joint_controller_d_gain props)) in
      set_damping (Some (round4 (ambf_joint_damping props)))
                  (set_controller (Some _gains) jd)
    else set_controller None jd
  else jd.

(** [get_blender_joint_type] *)
Definition get_blender_joint_type (jd : joint_data) : constraint_type :=
  let joint_type := HINGE in
  match jd_type jd with
  | Some ty =>
      if bool_decide (ty ∈ ["hinge"; "revolute"; "continuous"]%string) then HINGE
      else if bool_decide (ty ∈ ["prismatic"; "slider"]%string) then SLIDER
      else if bool_decide (ty ∈ ["spring"; "linear spring"; "angular spring";
                                 "torsional spring"; "torsion spring"]%string)
      then GENERIC_SPRING
      else if bool_decide (ty ∈ ["p2p"; "point2point"]%string) then POINT
      else if bool_decide (ty ∈ ["fixed"; "FIXED"]%string) then FIXED
      else joint_type
  | None => joint_type
  end.

(** The constraint kinds of the add-on's own joints. *)
Inductive ambf_constraint_type :=
  AMBF_FIXED | REVOLUTE | PRISMATIC | LINEAR_SPRING | TORSION_SPRING | P2P.

Global Instance ambf_constraint_type_eq_dec : EqDecision ambf_constraint_type.
Proof. solve_decision. Defined.

(** [get_ambf_joint_type] *)
Definition get_ambf_joint_type (jd : joint_data) : ambf_constraint_type :=
  let joint_type := AMBF_FIXED in
  match jd_type jd with
  | Some ty =>
      if bool_decide (ty ∈ ["hinge"; "revolute"; "continuous"]%string) then REVOLUTE
      else if bool_decide (ty ∈ ["prismatic"; "slider"]%string) then PRISMATIC
      else if bool_decide (ty ∈ ["spring"; "linear spring"]%string)
      then LINEAR_SPRING
      else if bool_decide (ty ∈ ["angular spring"; "torsional spring";
                                 "torsion spring"]%string)
      then TORSION_SPRING
      else if bool_decide (ty ∈ ["p2p"; "point2point"]%string) then P2P
      else if bool_decide (ty ∈ ["fixed"; "FIXED"]%string) then AMBF_FIXED
      else joint_type
  | None => joint_type
  end.

(** The two scene options the joint loaders read. *)
Record scene_options := {
  adjust_joint_pivots : bool;
  ignore_ambf_joint_offsets : bool
}.

Definition get_joint_offset_angle (sc : scene_options) (jd : joint_data) : Q :=
  let offset_angle := 0 in
  if negb (ignore_ambf_joint_offsets sc) then
    match jd_offset jd with
    | Some o => o
    | None => offset_angle
    end
  else offset_angle.

Definition with_limits (upper lower : Q) (d : dof) : dof :=
  {| use_limit := true; limit_lower := lower; limit_upper := upper;
     use_spring := use_spring d; spring_damping := spring_damping d;
     spring_stiffness := spring_stiffness d |}.

Definition with_damping (v : Q) (d : dof) : dof :=
  {| use_limit := use_limit d; limit_lower := limit_lower d;
     limit_upper := limit_upper d;
     use_spring := true; spring_damping := v;
     spring_stiffness := spring_stiffness d |}.

Definition with_stiffness (v : Q) (d : dof) : dof :=
  {| use_limit := use_limit d; limit_lower := limit_lower d;
     limit_upper := limit_upper d;
     use_spring := true; spring_damping := spring_damping d;
     spring_stiffness := v |}.

Definition set_lin_x (d : dof) (c : constraint) : constraint :=
  {| type := type c; lin_x := d; lin_y := lin_y c; lin_z := lin_z c;
     ang_x := ang_x c; ang_y := ang_y c; ang_z := ang_z c |}.

Definition set_ang_z (d : dof) (c : constraint) : constraint :=
  {| type := type c; lin_x := lin_x c; lin_y := lin_y c; lin_z := lin_z c;
     ang_x := ang_x c; ang_y := ang_y c; ang_z := d |}.

(** The limits of one degree of freedom, read upper bound first. *)
Definition load_limits (jl : limits) (offset_angle : Q) (d : dof) : result dof :=
  upper ← getitem "high" (high jl);
  lower ← getitem "low" (low jl);
  Ok (with_limits (upper + offset_angle) (lower + offset_angle) d).

(** The [damping] and [stiffness] keys of a spring joint. *)
Definition load_spring (jd : joint_data) (d : dof) : dof :=
  let d := match jd_damping jd with
           | Some _damping => with_damping _damping d
           | None => d
           end in
  match jd_stiffness jd with
  | Some _stiffness => with_stiffness _stiffness d
  | None => d
  end.

(** [set_blender_constraint_params] on the constraint of the joint object
    and the joint properties of the active object. *)
Definition set_blender_constraint_params (sc : scene_options) (jd : joint_data)
    (c : constraint) (props : joint_props) : result (constraint * joint_props) :=
  let offset_angle :=
    if adjust_joint_pivots sc then 0 else get_joint_offset_angle sc jd in
  match jd_joint_limits jd with
  | Some jl =>
      ty ← getitem "type" (jd_type jd);
      c ← (if bool_decide (ty = "revolute"%string) then
             d ← load_limits jl offset_angle (ang_z c); Ok (set_ang_z d c)
           else if bool_decide (ty = "prismatic"%string) then
             upper ← getitem "high" (high jl);
             lower ← getitem "low" (low jl);
             Ok (set_lin_x (with_limits upper lower (lin_x c)) c)
           else Ok c);
      c ← (if bool_decide (ty ∈ ["spring"; "linear spring"]%string) then
             d ← load_limits jl offset_angle (lin_x c);
             Ok (set_lin_x (load_spring jd d) c)
           else Ok c);
      c ← (if bool_decide (ty ∈ ["angular spring"; "torsional spring";
                                 "torsion spring"]%string) then
             d ← load_limits jl offset_angle (ang_z c);
             Ok (set_ang_z (load_spring jd d) c)
           else Ok c);
      match jd_controller jd with
      | Some g =>
          if bool_decide (ty ∈ ["hinge"; "continuous"; "revolute"; "slider";
                                "prismatic"]%string)
          then Ok (c, {| ambf_enable_joint_props := true;
                         ambf_joint_controller_p_gain := gain_P g;
                         ambf_joint_controller_d_gain := gain_D g;
                         ambf_joint_damping := ambf_joint_damping props |})
          else Ok (c, props)
      | None => Ok (c, props)
      end
  | None => Ok (c, props)
  end.

(** The properties of one of the add-on's own joints that
    [set_ambf_constraint_params] writes. *)
Record ambf_constraint := {
  ambf_constraint_name : string;
  ambf_constraint_limits_enable : bool;
  ambf_constraint_limits_lower : Q;
  ambf_constraint_limits_higher : Q;
  ambf_constraint_damping : Q;
  ambf_constraint_stiffness : Q;
  ambf_constraint_enable_controller_gains : bool;
  ambf_constraint_controller_p_gain : Q;
  ambf_constraint_controller_d_gain : Q
}.

Definition set_ambf_constraint_params (jd : joint_data) (j : ambf_constraint)
  : ambf_constraint :=
  let joint_type := get_ambf_joint_type jd in
  let both :=
    match jd_joint_limits jd with
    | Some (Limits (Some lo) (Some hi)) => Some (lo, hi)
    | _ => None
    end in
  let limits_defined := bool_decide (is_Some both) in
  let stiff := bool_decide (joint_type ∈ [LINEAR_SPRING; TORSION_SPRING]) in
  let gains_read := bool_decide (joint_type ∈ [REVOLUTE; PRISMATIC]) in
  {| ambf_constraint_name := jd_name jd;
     ambf_constraint_limits_enable :=
       if negb limits_defined then false else ambf_constraint_limits_enable j;
     ambf_constraint_limits_lower :=
       match both with Some (lo, _) => lo | None => ambf_constraint_limits_lower j end;
     ambf_constraint_limits_higher :=
       match both with Some (_, hi) => hi | None => ambf_constraint_limits_higher j end;
     ambf_constraint_damping := default (ambf_constraint_damping j) (jd_damping jd);
     ambf_constraint_stiffness :=
       match jd_stiffness jd with
       | Some k => if stiff then k else ambf_constraint_stiffness j
       | None => ambf_constraint_stiffness j
       end;
     ambf_constraint_enable_controller_gains :=
       match jd_controller jd with
       | Some _ => if gains_read then true
                   else ambf_constraint_enable_controller_gains j
       | None => ambf_constraint_enable_controller_gains j
       end;
     ambf_constraint_controller_p_gain :=
       match jd_controller jd with
       | Some g => if gains_read then gain_P g
                   else ambf_constraint_controller_p_gain j
       | None => ambf_constraint_controller_p_gain j
       end;
     ambf_constraint_controller_d_gain :=
       match jd_controller jd with
       | Some g => if gains_read then gain_D g
                   else ambf_constraint_controller_d_gain j
       | None => ambf_constraint_controller_d_gain j
       end |}.

(** The limits of [d'] are those of [d] rounded to three decimals, moved by
    [off]. *)
Definition limits_of (d' d : dof) (off : Q) : Prop :=
  use_limit d' = true /\
  limit_lower d' == Py.round3 (limit_lower d) + off /\
  limit_upper d' == Py.round3 (limit_upper d) + off.


(** The record [jd] with the bounds of a revolute or spring joint moved by
    [off] and rounded again; other records as they are. *)
Definition moved_limits (off : Q) (jd : joint_data) : joint_data :=
  match jd_type jd, jd_joint_limits jd with
  | Some ty, Some (Limits (Some lo) (Some hi)) =>
      if bool_decide (ty ∈ ["revolute"; "linear spring"; "torsion spring"]%string)
      then set_joint_limits
             (Some (Limits (Some (Py.round3 (lo + off)))
                           (Some (Py.round3 (hi + off))))) jd
      else jd
  | _, _ => jd
  end.

End JointParams.

(** ** Further sample data *)

Module Cases.
Import Exporter JointParams.
Local Open Scope Q_scope.

(** Neither option set: offsets are read, pivots are not adjusted. *)
Definition plain_options : scene_options := {|
  adjust_joint_pivots := false; ignore_ambf_joint_offsets := false |}.

(** The joint properties of a new object. *)
Definition default_props : joint_props := {|
  ambf_enable_joint_props := false;
  ambf_joint_controller_p_gain := 500;
  ambf_joint_controller_d_gain := 5;
  ambf_joint_damping := 0 |}.

Definition tuned_props : joint_props := {|
  ambf_enable_joint_props := true;
  ambf_joint_controller_p_gain := 12345 # 100000;
  ambf_joint_controller_d_gain := 2;
  ambf_joint_damping := 1 # 2 |}.

(** A generic spring limited along y, with its spring in use. *)
Definition spring_y : constraint := {|
  type := GENERIC_SPRING;
  lin_x := Samples.free_dof;
  lin_y := {| use_limit := true; limit_lower := - (1 # 10); limit_upper := 1 # 10;
              use_spring := true; spring_damping := 3; spring_stiffness := 40 |};
  lin_z := Samples.free_dof;
  ang_x := Samples.free_dof; ang_y := Samples.free_dof; ang_z := Samples.free_dof |}.

Definition new_joint : ambf_constraint := {|
  ambf_constraint_name := EmptyString;
  ambf_constraint_limits_enable := true;
  ambf_constraint_limits_lower := 0;
  ambf_constraint_limits_higher := 0;
  ambf_constraint_damping := 0;
  ambf_constraint_stiffness := 0;
  ambf_constraint_enable_controller_gains := false;
  ambf_constraint_controller_p_gain := 0;
  ambf_constraint_controller_d_gain := 0 |}.


(** A single revolute joint whose child axis is already the standard one,
    with the child pivot off the origin; a residual rotation that is always
    the identity. *)
Definition aligned_joint : Importer.joint_data := {|
  Importer.jd_parent := "BODY a"; Importer.jd_child := "BODY b";
  Importer.jd_type := Some "revolute"%string;
  Importer.jd_parent_pivot := Some (Exporter.XYZ 1 0 0);
  Importer.jd_parent_axis := Some (Exporter.XYZ 0 0 1);
  Importer.jd_child_pivot := Some (Exporter.XYZ 1 0 0);
  Importer.jd_child_axis := Some (Exporter.XYZ 0 0 1);
  Importer.jd_redundant := None;
  Importer.jd_detached := None
|}.

Definition one_joint : Importer.loader := {|
  Importer.ambf_data := <["JOINT a-b"%string := aligned_joint]> ∅;
  Importer.joints := ["JOINT a-b"]%string;
  Importer.body_T_j_c :=
    <["BODY a"%string := Mathutils.Identity4]>
      (<["BODY b"%string := Mathutils.Identity4]> ∅);
  Importer.blender_remapped_body_names :=
    <["BODY a"%string := "a"%string]> (<["BODY b"%string := "b"%string]> ∅);
  Importer.bpy_objects :=
    <["a"%string := Samples.cube]> (<["b"%string := Samples.cube]> ∅);
  Importer.printed := []
|}.

Definition no_residual (m : Mathutils.Matrix4) : Mathutils.Vector * R :=
  (Mathutils.Vec 1 0 0, 0%R).

End Cases.

(** ** Importer: the pose of a joint and of its child in the parent *)

Module Transforms.
Import Mathutils Kernel Importer.
Local Open Scope R_scope.

(** [get_joint_in_parent_transform]; [T_p_w] is the parent's world matrix
    and [offset_angle] the value of [get_joint_offset_angle]. *)
Definition get_joint_in_parent_transform (st : loader) (T_p_w : Matrix4)
    (offset_angle : R) (jd : joint_data) : result Matrix4 :=
  let '(parent_pivot_data, parent_axis_data) :=
    get_parent_pivot_and_axis_data jd in
  '(standard_pivot_data, standard_axis_data) ←
    get_standard_pivot_and_axis_data jd;
  let parent_axis := vec_of parent_axis_data in
  let P_j_p := with_translation Identity4 (vec_of parent_pivot_data) in
  let joint_axis := vec_of standard_axis_data in
  '(R_j_p, r_j_p_angle) ← get_rot_mat_from_vecs joint_axis parent_axis;
  let T_c_offset_rot := Rotation4 offset_angle parent_axis in
  T_p_w_off ← getitem (jd_parent jd) (body_T_j_c st !! jd_parent jd);
  Ok (mmul4 (mmul4 (mmul4 (mmul4 T_p_w T_p_w_off) P_j_p) T_c_offset_rot) R_j_p).

(** [get_child_in_parent_transform] *)
Definition get_child_in_parent_transform (st : loader) (T_p_w : Matrix4)
    (offset_angle : R) (jd : joint_data) : result Matrix4 :=
  let '(parent_pivot_data, parent_axis_data) :=
    get_parent_pivot_and_axis_data jd in
  let '(child_pivot_data, child_axis_data) :=
    get_child_pivot_and_axis_data jd in
  let parent_axis := vec_of parent_axis_data in
  let P_j_p := with_translation Identity4 (vec_of parent_pivot_data) in
  let child_axis := vec_of child_axis_data in
  '(R_c_p, r_c_p_angle) ← get_rot_mat_from_vecs child_axis parent_axis;
  let P_j_c := with_translation Identity4 (vec_of child_pivot_data) in
  P_c_j ← invert4 P_j_c;
  let T_c_offset_rot := Rotation4 offset_angle parent_axis in
  T_p_w_off ← getitem (jd_parent jd) (body_T_j_c st !! jd_parent jd);
  Ok (mmul4 (mmul4 (mmul4 (mmul4 (mmul4 T_p_w T_p_w_off) P_j_p) T_c_offset_rot)
                   R_c_p) P_c_j).

End Transforms.

(** ** Exporter: the centre written as inertial offset *)

Module Com.
Local Open Scope Q_scope.

(** A vertex coordinate [v.co], and [obj.scale]. *)
Definition coords : Type := (Q * Q * Q)%type.

Definition co (i : nat) (v : coords) : Q :=
  match i with 0%nat => v.1.1 | 1%nat => v.1.2 | _ => v.2 end.

(** [find_center = lambda l: (max(l) + min(l)) / 2]; [None] is the
    [ValueError] of an empty list. *)
Definition find_center (l : list Q) : option Q :=
  mx ← Py.max Py.Qltb l;
  mn ← Py.min Py.Qltb l;
  Some ((mx + mn) / 2).

Definition compute_local_com (vcos : list coords) (scale : coords)
  : option coords :=
  let x := co 0 <$> vcos in
  let y := co 1 <$> vcos in
  let z := co 2 <$> vcos in
  cx ← find_center x;
  cy ← find_center y;
  cz ← find_center z;
  Some (cx * co 0 scale, cy * co 1 scale, cz * co 2 scale).

End Com.

(** ** The pose of a joint through export and import *)

Module RoundTrip.
Import Mathutils Kernel.
Local Open Scope R_scope.

(** [round(x, 3)] of a coordinate or an angle, as the value the document
    holds. *)
Definition Qround3 (x : R) : Q := Rround_half_even (x * 1000) # 1000.

Definition xyz_of (v : Vector) : Exporter.xyz :=
  Exporter.XYZ (Qround3 (vx v)) (Qround3 (vy v)) (Qround3 (vz v)).

(** [(axis, angle)] is an axis-angle form of the rotation matrix [m]. *)
Definition represents (axis_angle : Vector * R) (m : Matrix3) : Prop :=
  unit axis_angle.1 /\ Rotation3 axis_angle.2 axis_angle.1 = m.

Section JointExport.

(** [m.to_quaternion().to_axis_angle()], left to [mathutils]. *)
Variable to_axis_angle : Matrix3 -> Vector * R.

(** [compute_pivot_and_axis] on the world matrices of two objects without
    scale, for which rebuilding the matrix from its Euler angles gives the
    rotation block back. *)
Definition compute_pivot_and_axis (parent child : Matrix4)
    (constraint : Exporter.constraint) : result (Vector * Vector) :=
  let t_p_w := parent in
  let t_c_w := child in
  t_w_p ← invert4 t_p_w;
  let t_c_p := mmul4 t_w_p t_c_w in
  let pivot := translation t_c_p in
  '(joint_axis, axis_idx) ← Exporter.get_joint_axis constraint;
  let axis := col (block t_c_p) axis_idx in
  Ok (pivot, axis).

(** The offset block of [generate_joint_data]; [None] when no ['offset'] is
    written. *)
Definition joint_offset (child_axis parent_axis : Vector)
    (parent child : Matrix4) : result (option Q) :=
  r_c_p_ambf ← rot_matrix_from_vecs child_axis parent_axis;
  r_p_c_ambf ← invert3 r_c_p_ambf;
  let t_p_w := parent in
  r_w_p ← invert3 (block t_p_w);
  let r_c_w := block child in
  let r_c_p_blender := mmul r_w_p r_c_w in
  let r_angular_offset := mmul r_p_c_ambf r_c_p_blender in
  let offset_axis_angle := to_axis_angle r_angular_offset in
  if decide (1 / 100 < Rabs offset_axis_angle.2) then
    let offset_angle := Qround3 offset_axis_angle.2 in
    if decide (Rabs (1 - dot child_axis offset_axis_angle.1) < 1 / 10)
    then Ok (Some offset_angle)
    else if decide (Rabs (1 + dot child_axis offset_axis_angle.1) < 1 / 10)
    then Ok (Some (- offset_angle)%Q)
    else Ok None
  else Ok None.

(** [generate_joint_data] for a constraint that sits on the child object
    (no detached placeholder) between two visible objects; [props] are the
    joint properties of the child object.  The result is the record stored
    in the document, after the controller block has updated it. *)
Definition generate_joint_data (parent_name child_name : string)
    (parent child : Matrix4) (constraint : Exporter.constraint)
    (props : JointParams.joint_props)
  : result Exporter.joint_data :=
  '(parent_pivot, parent_axis) ← compute_pivot_and_axis parent child constraint;
  let child_pivot := Vec 0 0 0 in
  '(child_axis, ax_idx) ← Exporter.get_joint_axis constraint;
  let joint_data :=
    {| Exporter.jd_name := (parent_name ++ "-" ++ child_name)%string;
       Exporter.jd_parent := ("BODY " ++ parent_name)%string;
       Exporter.jd_child := ("BODY " ++ child_name)%string;
       Exporter.jd_parent_axis := xyz_of parent_axis;
       Exporter.jd_parent_pivot := xyz_of parent_pivot;
       Exporter.jd_child_axis := xyz_of child_axis;
       Exporter.jd_child_pivot := xyz_of child_pivot;
       Exporter.jd_joint_limits := Exporter.jd_joint_limits Exporter.JointTemplate;
       Exporter.jd_controller := Exporter.jd_controller Exporter.JointTemplate;
       Exporter.jd_type := None;
       Exporter.jd_damping := None;
       Exporter.jd_stiffness := None;
       Exporter.jd_detached := None;
       Exporter.jd_offset := None |} in
  joint_data ← Exporter.assign_joint_params constraint joint_data;
  offset ← joint_offset child_axis parent_axis parent child;
  let joint_data :=
    match offset with
    | Some o => JointParams.set_offset (Some o) joint_data
    | None => joint_data
    end in
  Ok (JointParams.export_controller (Exporter.type constraint) props joint_data).

End JointExport.

(** The joint record as the importer's pose functions read it. *)
Definition read_joint (jd : Exporter.joint_data) : Importer.joint_data :=
  {| Importer.jd_parent := Exporter.jd_parent jd;
     Importer.jd_child := Exporter.jd_child jd;
     Importer.jd_type := Exporter.jd_type jd;
     Importer.jd_parent_pivot := Some (Exporter.jd_parent_pivot jd);
     Importer.jd_parent_axis := Some (Exporter.jd_parent_axis jd);
     Importer.jd_child_pivot := Some (Exporter.jd_child_pivot jd);
     Importer.jd_child_axis := Some (Exporter.jd_child_axis jd);
     Importer.jd_redundant := None;
     Importer.jd_detached := Importer.YBool <$> Exporter.jd_detached jd |}.

(** The world matrix [load_blender_joint] gives the child of a joint that
    is not detached: [get_child_in_parent_transform] with the offset read
    by [get_joint_offset_angle]. *)
Definition imported_child_pose (sc : JointParams.scene_options)
    (st : Importer.loader) (T_p_w : Matrix4) (jd : Exporter.joint_data)
  : result Matrix4 :=
  Transforms.get_child_in_parent_transform st T_p_w
    (Q2R (JointParams.get_joint_offset_angle sc jd)) (read_joint jd).

(** A scene of two bodies joined by a limited hinge.  The parent sits at the
    world origin; the child is turned by a quarter turn about an axis that
    leans away from its own z axis, so that its joint axis, seen from the
    parent, is (0.28, 0, 0.96). *)
Definition lean : R := sqrt (24 / 25).
Definition tilt_axis : Vector := Vec (lean / 7) (1 / 7) lean.
Definition tilted_child : Matrix4 := Rotation4 (PI / 2) tilt_axis.

(** The loader after the two bodies have been loaded. *)
Definition two_bodies : Importer.loader := {|
  Importer.ambf_data := ∅;
  Importer.joints := [];
  Importer.body_T_j_c :=
    <["BODY base"%string := Identity4]> (<["BODY arm"%string := Identity4]> ∅);
  Importer.blender_remapped_body_names :=
    <["BODY base"%string := "base"%string]> (<["BODY arm"%string := "arm"%string]> ∅);
  Importer.bpy_objects := ∅;
  Importer.printed := []
|}.

(** A mathutils that turns every matrix into the axis and angle of the
    tilted child. *)
Definition quarter_turn (m : Matrix3) : Vector * R := (tilt_axis, PI / 2).

(** The child's joint axis as the parent sees it. *)
Definition seen_axis : Vector := Vec (28 / 100) 0 (96 / 100).

(** The record of the hinge in the document, with offset [o]. *)
Definition exported_hinge (o : Q) : Exporter.joint_data := {|
  Exporter.jd_name := "base-arm";
  Exporter.jd_parent := "BODY base";
  Exporter.jd_child := "BODY arm";
  Exporter.jd_parent_axis := Exporter.XYZ (280 # 1000) (0 # 1000) (960 # 1000);
  Exporter.jd_parent_pivot := Exporter.XYZ (0 # 1000) (0 # 1000) (0 # 1000);
  Exporter.jd_child_axis := Exporter.XYZ (0 # 1000) (0 # 1000) (1000 # 1000);
  Exporter.jd_child_pivot := Exporter.XYZ (0 # 1000) (0 # 1000) (0 # 1000);
  Exporter.jd_joint_limits :=
    Some (Exporter.Limits (Some (-785 # 1000)%Q) (Some (1571 # 1000)%Q));
  Exporter.jd_controller := None;
  Exporter.jd_type := Some "revolute"%string;
  Exporter.jd_damping := None;
  Exporter.jd_stiffness := None;
  Exporter.jd_detached := None;
  Exporter.jd_offset := Some o
|}.

End RoundTrip.

(* ===================================================================== *)
(** * Part II: properties *)
(* ===================================================================== *)

(** ** Shape inference *)

Module ShapeFacts.
Import Shape.

Lemma Qle_bool_false x y : Qle_bool x y = false -> (y < x)%Q.
Proof.
  intros H. apply Qnot_le_lt. intros Hle.
  apply Qle_bool_iff in Hle. congruence.
Qed.

Lemma Qeq_bool_false x y : Qeq_bool x y = false -> ~ (x == y)%Q.
Proof. intros H Heq. apply Qeq_bool_iff in Heq. congruence. Qed.

(** Split on one comparison between two atoms and record its meaning. *)
Ltac split_cmp :=
  match goal with
  | |- context [Qle_bool ?a ?b] =>
      is_var a; is_var b;
      let E := fresh "E" in
      destruct (Qle_bool a b) eqn:E;
      [apply Qle_bool_iff in E | apply Qle_bool_false in E]
  | |- context [Qeq_bool ?a ?b] =>
      is_var a; is_var b;
      let E := fresh "E" in
      destruct (Qeq_bool a b) eqn:E;
      [apply Qeq_bool_iff in E | apply Qeq_bool_false in E]
  end.

Ltac by_cases := repeat (split_cmp; cbn); try (exfalso; Lqa.lra).

(** The three functions always return, with pairwise distinct indices below
    3; the median index carries the least score and the major index the
    greatest. *)
Definition axes_ok (s0 s1 s2 : Q) (iM im imn : nat) : Prop :=
  iM <> im /\ im <> imn /\ iM <> imn /\
  (iM < 3 /\ im < 3 /\ imn < 3)%nat /\
  (forall sM, [s0; s1; s2] !! iM = Some sM ->
     (s0 <= sM /\ s1 <= sM /\ s2 <= sM)%Q) /\
  (forall sm, [s0; s1; s2] !! im = Some sm ->
     (sm <= s0 /\ sm <= s1 /\ sm <= s2)%Q) /\
  ((s0 == s1)%Q -> (s1 == s2)%Q -> iM = 2%nat).

Lemma axes_classified (d : dims) :
  exists cM iM cm im cn imn s0 s1 s2,
    sum_diff d = [s0; s1; s2] /\
    get_major_axis d = Some (cM, iM) /\
    get_median_axis d = Some (cm, im) /\
    get_minor_axis d = Some (cn, imn) /\
    axis iM = Some cM /\ axis im = Some cm /\ axis imn = Some cn /\
    axes_ok s0 s1 s2 iM im imn.
Proof.
  destruct d as [[d0 d1] d2].
  unfold get_median_axis, get_major_axis, get_minor_axis, sum_diff.
  set (s0 := (Qabs (d0 - d1) + Qabs (d0 - d2))%Q).
  set (s1 := (Qabs (d1 - d0) + Qabs (d1 - d2))%Q).
  set (s2 := (Qabs (d2 - d0) + Qabs (d2 - d1))%Q).
  clearbody s0 s1 s2.
  unfold qmax, qmin, qindex, zmax, zindex, Py.Qltb, axes_ok. cbn.
  by_cases.
  all: do 9 eexists; repeat split; try reflexivity; try lia;
       intros; cbn in *; simplify_eq; Lqa.lra.
Qed.

Lemma lookup3 {A : Type} (a b c : A) (i : nat) :
  (i < 3)%nat -> exists v, [a; b; c] !! i = Some v.
Proof.
  intros H. destruct i as [|[|[|i]]]; cbn; eauto. lia.
Qed.

Lemma lookup3_cases {A : Type} (a b c : A) (j : nat) (t : A) :
  [a; b; c] !! j = Some t -> t = a \/ t = b \/ t = c.
Proof.
  destruct j as [|[|[|j]]]; cbn; intros H; simplify_eq; auto.
Qed.

Lemma dget_lt (d : dims) (i : nat) : (i < 3)%nat -> exists v, dget d i = Some v.
Proof. destruct d as [[d0 d1] d2]. apply lookup3. Qed.

(** C5.  The three functions always return; their indices are pairwise
    distinct and make up exactly 0, 1, 2; and for three equal dimensions the
    major axis is z, index 2. *)
Theorem axes_partition (d : dims) :
  exists cM iM cm im cn imn,
    get_major_axis d = Some (cM, iM) /\
    get_median_axis d = Some (cm, im) /\
    get_minor_axis d = Some (cn, imn) /\
    iM <> imn /\ imn <> im /\ iM <> im /\
    (forall i : nat, i ∈ [iM; im; imn] <-> i ∈ [0; 1; 2]%nat) /\
    ((d.1.1 == d.1.2)%Q -> (d.1.2 == d.2)%Q -> iM = 2%nat /\ cM = "z"%string).
Proof.
  destruct (axes_classified d)
    as (cM & iM & cm & im & cn & imn & s0 & s1 & s2 &
        Hsd & HM & Hm & Hn & HcM & _ & _ & Hok).
  destruct Hok as (H1 & H2 & H3 & (B1 & B2 & B3) & _ & _ & Heq).
  exists cM, iM, cm, im, cn, imn.
  repeat (split; [first [assumption | congruence]|]).
  split.
  - intros i. rewrite !elem_of_cons, !elem_of_nil. lia.
  - destruct d as [[d0 d1] d2]. cbn [fst snd]. intros E1 E2.
    assert (Hs0 : s0 = (Qabs (d0 - d1) + Qabs (d0 - d2))%Q)
      by (unfold sum_diff in Hsd; congruence).
    assert (Hs1 : s1 = (Qabs (d1 - d0) + Qabs (d1 - d2))%Q)
      by (unfold sum_diff in Hsd; congruence).
    assert (Hs2 : s2 = (Qabs (d2 - d0) + Qabs (d2 - d1))%Q)
      by (unfold sum_diff in Hsd; congruence).
    assert (iM = 2%nat) as ->.
    { apply Heq; rewrite ?Hs0, ?Hs1, ?Hs2, E1, E2; reflexivity. }
    split; [reflexivity|]. cbn in HcM. congruence.
Qed.

(** The theorem at the unit cube. *)
Lemma axes_partition_witness :
  exists cM iM cm im cn imn,
    get_major_axis (1, 1, 1)%Q = Some (cM, iM) /\
    get_median_axis (1, 1, 1)%Q = Some (cm, im) /\
    get_minor_axis (1, 1, 1)%Q = Some (cn, imn) /\
    iM <> imn /\ imn <> im /\ iM <> im /\
    (forall i : nat, i ∈ [iM; im; imn] <-> i ∈ [0; 1; 2]%nat) /\
    iM = 2%nat /\ cM = "z"%string.
Proof.
  destruct (axes_partition (1, 1, 1)%Q)
    as (cM & iM & cm & im & cn & imn & HM & Hm & Hn & H1 & H2 & H3 & Hset & Heq).
  exists cM, iM, cm, im, cn, imn.
  repeat (split; [assumption|]).
  apply Heq; reflexivity.
Defined.

Example axes_of_a_beam :
  get_major_axis (1, 2, 10)%Q = Some ("z"%string, 2%nat) /\
  get_median_axis (1, 2, 10)%Q = Some ("y"%string, 1%nat) /\
  get_minor_axis (1, 2, 10)%Q = Some ("x"%string, 0%nat) /\
  sum_diff (1, 2, 10)%Q = [10; 9; 17]%Q.
Proof. repeat split; reflexivity. Qed.

(** C4, counterexample.  For the dimensions (1, 2, 10) the scores are
    10, 9, 17: the minor-axis function returns index 0, whose score 10 is
    not the least; the least score sits at index 1, which is what the
    median-axis function returns. *)
Lemma minor_axis_not_argmin : ~ minor_is_argmin (1, 2, 10)%Q.
Proof.
  intros (c & i & Hn & s & Hs & Hmin).
  vm_compute in Hn. injection Hn as <- <-.
  vm_compute in Hs. injection Hs as <-.
  specialize (Hmin 1%nat 9%Q eq_refl).
  revert Hmin. apply Qlt_not_le. reflexivity.
Qed.

(** C4 (as the code has it).  The major-axis function returns an index of
    greatest score, the median-axis function an index of least score, the
    minor-axis function the index that is left; and the cylinder, capsule
    and cone geometry derived from the rounded dimensions has the radius
    half the dimension at the median index and the height the dimension at
    the major index. *)
Theorem axes_by_score (d : dims) :
  (exists cM iM cm im cn imn,
     get_major_axis d = Some (cM, iM) /\
     get_median_axis d = Some (cm, im) /\
     get_minor_axis d = Some (cn, imn) /\
     is_argmax d iM /\ is_argmin d im /\
     (imn < 3)%nat /\ imn <> iM /\ imn <> im) /\
  (forall ocs, ocs ∈ [CYLINDER; CAPSULE; CONE] ->
     exists cM iM cm im r h,
       get_major_axis (rounded_dims d) = Some (cM, iM) /\
       get_median_axis (rounded_dims d) = Some (cm, im) /\
       dget (rounded_dims d) im = Some r /\
       dget (rounded_dims d) iM = Some h /\
       derive_collision_geometry ocs d = Some (Some (GeoAxial (r / 2) h cM))).
Proof.
  split.
  - destruct (axes_classified d)
      as (cM & iM & cm & im & cn & imn & s0 & s1 & s2 &
          Hsd & HM & Hm & Hn & _ & _ & _ & Hok).
    destruct Hok as (H1 & H2 & H3 & (B1 & B2 & B3) & Hmax & Hmin & _).
    exists cM, iM, cm, im, cn, imn.
    repeat (split; [first [assumption | congruence]|]).
    split; [|split; [|repeat split; congruence]].
    + destruct (lookup3 s0 s1 s2 iM B1) as [sM HsM].
      exists sM. unfold score. rewrite Hsd. split; [exact HsM|].
      intros j t Ht. destruct (Hmax sM HsM) as (?&?&?).
      destruct (lookup3_cases _ _ _ _ _ Ht) as [-> | [-> | ->]]; assumption.
    + destruct (lookup3 s0 s1 s2 im B2) as [sm Hsm].
      exists sm. unfold score. rewrite Hsd. split; [exact Hsm|].
      intros j t Ht. destruct (Hmin sm Hsm) as (?&?&?).
      destruct (lookup3_cases _ _ _ _ _ Ht) as [-> | [-> | ->]]; assumption.
  - intros ocs Hocs.
    destruct (axes_classified (rounded_dims d))
      as (cM & iM & cm & im & cn & imn & s0 & s1 & s2 &
          Hsd & HM & Hm & Hn & _ & _ & _ & Hok).
    destruct Hok as (_ & _ & _ & (B1 & B2 & _) & _).
    destruct (dget_lt (rounded_dims d) im B2) as [r Hr].
    destruct (dget_lt (rounded_dims d) iM B1) as [h Hh].
    exists cM, iM, cm, im, r, h.
    repeat (split; [assumption|]).
    assert (Hax : axial_geometry (rounded_dims d) = Some (GeoAxial (r / 2) h cM)).
    { unfold axial_geometry. rewrite HM, Hm. cbn. rewrite Hr, Hh. reflexivity. }
    rewrite !elem_of_cons, elem_of_nil in Hocs.
    destruct Hocs as [-> | [-> | [-> | []]]]; cbn; now rewrite Hax.
Qed.

(** The theorem at a flat disc, 1 thick and about 9 wide: the axis of the
    cylinder is x, its height 1 and its radius 4.5. *)
Lemma axes_by_score_witness :
  exists cM iM cm im r h,
    get_major_axis (rounded_dims (1, 9, 10)%Q) = Some (cM, iM) /\
    get_median_axis (rounded_dims (1, 9, 10)%Q) = Some (cm, im) /\
    dget (rounded_dims (1, 9, 10)%Q) im = Some r /\
    dget (rounded_dims (1, 9, 10)%Q) iM = Some h /\
    derive_collision_geometry CYLINDER (1, 9, 10)%Q
      = Some (Some (GeoAxial (r / 2) h cM)).
Proof.
  apply (proj2 (axes_by_score (1, 9, 10)%Q) CYLINDER).
  rewrite !elem_of_cons. left. reflexivity.
Defined.

End ShapeFacts.

(** ** Geometry kernel *)

Lemma bind_Ok {A B : Type} (a : A) (f : A -> result B) : Ok a ≫= f = f a.
Proof. reflexivity. Qed.

Lemma bind_Raise {A B : Type} (e : exn) (f : A -> result B) :
  Raise e ≫= f = Raise e.
Proof. reflexivity. Qed.

Module KernelFacts.
Import Mathutils Kernel.
Local Open Scope R_scope.

Lemma vec_norm_sq (v : Vector) : vec_norm v ^ 2 = dot v v.
Proof.
  unfold vec_norm, dot. rewrite pow2_sqrt; [ring|]. nra.
Qed.

(** Lagrange's identity. *)
Lemma cross_dot_cross (a b : Vector) :
  dot (cross a b) (cross a b) = dot a a * dot b b - dot a b ^ 2.
Proof. unfold dot, cross; cbn. ring. Qed.

Lemma angle_unit (a b : Vector) :
  unit a -> unit b -> angle a b = Ok (acos (dot a b)).
Proof.
  unfold unit, angle. intros -> ->.
  destruct (decide (1 = 0)) as [H|_]; [lra|].
  rewrite sqrt_1. do 2 f_equal. field.
Qed.

Lemma unit_nx : unit nx.
Proof. unfold unit, dot, nx; cbn. ring. Qed.

Lemma length_unit (v : Vector) : unit v -> length v = 1.
Proof. unfold unit, length. intros ->. apply sqrt_1. Qed.

(** A rotation about a unit axis, entry by entry. *)
Lemma Rotation3_unit (theta : R) (n : Vector) :
  unit n ->
  Rotation3 theta n =
    let c := cos theta in
    let s := sin theta in
    let t := 1 - c in
    Mat3 (Vec (t * vx n * vx n + c) (t * vx n * vy n - s * vz n) (t * vx n * vz n + s * vy n))
         (Vec (t * vx n * vy n + s * vz n) (t * vy n * vy n + c) (t * vy n * vz n - s * vx n))
         (Vec (t * vx n * vz n - s * vy n) (t * vy n * vz n + s * vx n) (t * vz n * vz n + c)).
Proof.
  intros Hn. unfold Rotation3. rewrite (length_unit n Hn).
  destruct (decide (1 = 0)) as [H|_]; [lra|].
  cbn. destruct n as [x y z]; cbn.
  repeat f_equal; field.
Qed.

Lemma Rotation3_zero_axis (theta : R) : Rotation3 theta (Vec 0 0 0) = Identity3.
Proof.
  unfold Rotation3, length, dot; cbn.
  replace (0 * 0 + 0 * 0 + 0 * 0) with 0 by ring. rewrite sqrt_0.
  destruct (decide (0 = 0)); [reflexivity | contradiction].
Qed.

(** C3 (as the code has it).  For unit vectors [a] and [b] the kernel returns:
    the identity when [dot a b > 0.9]; when [dot a b < -0.9], the rotation by
    the angle between [a] and [b] about [a x X] if the angle from [a] to the X
    axis lies strictly between 0.1 and 3.13 rad, and about [a x Y] otherwise;
    in every other case the Rodrigues matrix built from the skew matrix of
    [a x b], whose divisor is then non-zero. *)
Theorem rot_matrix_from_vecs_cases (a b : Vector) :
  unit a -> unit b ->
  exists theta phi,
    angle a b = Ok theta /\ theta = acos (dot a b) /\
    angle a nx = Ok phi /\
    (dot a b > 9 / 10 -> rot_matrix_from_vecs a b = Ok Identity3) /\
    (dot a b < - 9 / 10 ->
       rot_matrix_from_vecs a b =
         Ok (Rotation3 theta
               (cross a (if decide (1 / 10 < Rabs phi /\ Rabs phi < 313 / 100)
                         then nx else ny)))) /\
    (- 9 / 10 <= dot a b <= 9 / 10 ->
       vec_norm (cross a b) ^ 2 <> 0 /\
       rot_matrix_from_vecs a b =
         Ok (madd (madd Identity3 (skew_mat (cross a b)))
               (mscale (mmul (skew_mat (cross a b)) (skew_mat (cross a b)))
                  ((1 - dot a b) / vec_norm (cross a b) ^ 2)))).
Proof.
  intros Ha Hb.
  exists (acos (dot a b)), (acos (dot a nx)).
  pose proof (angle_unit a b Ha Hb) as Hab.
  pose proof (angle_unit a nx Ha unit_nx) as Hax.
  split; [exact Hab|]. split; [reflexivity|]. split; [exact Hax|].
  unfold rot_matrix_from_vecs. rewrite Hab, bind_Ok.
  split; [|split].
  - intros Hd. destruct (decide (1 - dot a b < 1 / 10)); [reflexivity | lra].
  - intros Hd.
    destruct (decide (1 - dot a b < 1 / 10)); [lra|].
    destruct (decide (1 + dot a b < 1 / 10)); [|lra].
    rewrite Hax, bind_Ok.
    destruct (decide (1 / 10 < Rabs (acos (dot a nx)) /\
                      Rabs (acos (dot a nx)) < 313 / 100)); reflexivity.
  - intros [Hlo Hhi].
    assert (Hne : vec_norm (cross a b) ^ 2 <> 0).
    { rewrite vec_norm_sq, cross_dot_cross. unfold unit in Ha, Hb.
      rewrite Ha, Hb. nra. }
    split; [exact Hne|].
    destruct (decide (1 - dot a b < 1 / 10)); [lra|].
    destruct (decide (1 + dot a b < 1 / 10)); [lra|].
    unfold fdiv.
    destruct (decide (vec_norm (cross a b) ^ 2 = 0)); [contradiction|].
    now rewrite bind_Ok.
Qed.

(** The theorem at the pair Y, -Y. *)
Lemma rot_matrix_from_vecs_cases_witness :
  exists theta phi,
    angle (Vec 0 1 0) (Vec 0 (-1) 0) = Ok theta /\
    theta = acos (dot (Vec 0 1 0) (Vec 0 (-1) 0)) /\
    angle (Vec 0 1 0) nx = Ok phi /\
    (dot (Vec 0 1 0) (Vec 0 (-1) 0) > 9 / 10 ->
     rot_matrix_from_vecs (Vec 0 1 0) (Vec 0 (-1) 0) = Ok Identity3) /\
    (dot (Vec 0 1 0) (Vec 0 (-1) 0) < - 9 / 10 ->
       rot_matrix_from_vecs (Vec 0 1 0) (Vec 0 (-1) 0) =
         Ok (Rotation3 theta
               (cross (Vec 0 1 0)
                  (if decide (1 / 10 < Rabs phi /\ Rabs phi < 313 / 100)
                   then nx else ny)))) /\
    (- 9 / 10 <= dot (Vec 0 1 0) (Vec 0 (-1) 0) <= 9 / 10 ->
       vec_norm (cross (Vec 0 1 0) (Vec 0 (-1) 0)) ^ 2 <> 0 /\
       rot_matrix_from_vecs (Vec 0 1 0) (Vec 0 (-1) 0) =
         Ok (madd (madd Identity3 (skew_mat (cross (Vec 0 1 0) (Vec 0 (-1) 0))))
               (mscale (mmul (skew_mat (cross (Vec 0 1 0) (Vec 0 (-1) 0)))
                          (skew_mat (cross (Vec 0 1 0) (Vec 0 (-1) 0))))
                  ((1 - dot (Vec 0 1 0) (Vec 0 (-1) 0)) /
                   vec_norm (cross (Vec 0 1 0) (Vec 0 (-1) 0)) ^ 2)))).
Proof.
  apply (rot_matrix_from_vecs_cases (Vec 0 1 0) (Vec 0 (-1) 0));
    unfold unit, dot; simpl; lra.
Defined.

Lemma half_pi_in_range : 1 / 10 < Rabs (PI / 2) /\ Rabs (PI / 2) < 313 / 100.
Proof.
  pose proof PI2_1. pose proof PI_4.
  rewrite Rabs_right by lra. lra.
Qed.

Lemma angle_Y_X : angle (Vec 0 1 0) nx = Ok (PI / 2).
Proof.
  rewrite angle_unit; [| unfold unit, dot; cbn; ring | exact unit_nx].
  f_equal. replace (dot (Vec 0 1 0) nx) with 0 by (unfold dot, nx; cbn; ring).
  apply acos_0.
Qed.

Lemma angle_Y_negY : angle (Vec 0 1 0) (Vec 0 (-1) 0) = Ok PI.
Proof.
  rewrite angle_unit; [| unfold unit, dot; cbn; ring ..].
  f_equal. replace (dot (Vec 0 1 0) (Vec 0 (-1) 0)) with (- (1)) by (unfold dot; cbn; ring).
  rewrite acos_opp, acos_1. ring.
Qed.

(** C3, counterexample.  The vector [a = Y] is a quarter turn away from X,
    inside (0.1, 3.13): the code turns about [a x X]; with Y as the reference
    there the axis [a x Y] would vanish and the result would be the identity.
    And for [a = X], [b = (-24/25, 7/25, 0)] the turn is by the angle between
    them, whose cosine is -24/25, not by a half turn. *)
Lemma rot_matrix_from_vecs_not_as_stated :
  (dot (Vec 0 1 0) (Vec 0 (-1) 0) < - 9 / 10 /\
   angle (Vec 0 1 0) nx = Ok (PI / 2) /\
   rot_matrix_from_vecs (Vec 0 1 0) (Vec 0 (-1) 0)
     = Ok (Rotation3 PI (cross (Vec 0 1 0) nx)) /\
   antiparallel_as_stated (Vec 0 1 0) (PI / 2) = Identity3 /\
   Rotation3 PI (cross (Vec 0 1 0) nx) <> Identity3) /\
  (dot nx (Vec (- 24 / 25) (7 / 25) 0) < - 9 / 10 /\
   rot_matrix_from_vecs nx (Vec (- 24 / 25) (7 / 25) 0)
     = Ok (Rotation3 (acos (- 24 / 25)) (cross nx ny)) /\
   Rotation3 (acos (- 24 / 25)) (cross nx ny) <> Rotation3 PI (cross nx ny)).
Proof.
  split.
  - assert (Hd : dot (Vec 0 1 0) (Vec 0 (-1) 0) = -1) by (unfold dot; cbn; ring).
    split; [rewrite Hd; lra|]. split; [exact angle_Y_X|].
    split; [|split].
    + unfold rot_matrix_from_vecs. rewrite angle_Y_negY, bind_Ok, Hd.
      destruct (decide (1 - -1 < 1 / 10)); [lra|].
      destruct (decide (1 + -1 < 1 / 10)); [|lra].
      rewrite angle_Y_X, bind_Ok.
      destruct (decide (1 / 10 < Rabs (PI / 2) /\ Rabs (PI / 2) < 313 / 100))
        as [_|Hn]; [reflexivity | destruct (Hn half_pi_in_range)].
    + unfold antiparallel_as_stated.
      destruct (decide (1 / 10 < Rabs (PI / 2) /\ Rabs (PI / 2) < 313 / 100))
        as [_|Hn]; [| destruct (Hn half_pi_in_range)].
      replace (cross (Vec 0 1 0) ny) with (Vec 0 0 0)
        by (unfold cross, ny; cbn; f_equal; ring).
      apply Rotation3_zero_axis.
    + replace (cross (Vec 0 1 0) nx) with (Vec 0 0 (-1))
        by (unfold cross, nx; cbn; f_equal; ring).
      rewrite Rotation3_unit by (unfold unit, dot; cbn; ring).
      cbn. rewrite cos_PI. intros H.
      apply (f_equal (fun m => vx (row0 m))) in H. cbn in H. lra.
  - assert (Hu : unit (Vec (- 24 / 25) (7 / 25) 0)) by (unfold unit, dot; cbn; field).
    assert (Hd : dot nx (Vec (- 24 / 25) (7 / 25) 0) = - 24 / 25)
      by (unfold dot, nx; cbn; field).
    assert (Hxx : angle nx nx = Ok 0).
    { rewrite angle_unit by exact unit_nx.
      replace (dot nx nx) with 1 by (unfold dot, nx; cbn; ring).
      now rewrite acos_1. }
    split; [rewrite Hd; lra|]. split.
    + unfold rot_matrix_from_vecs.
      rewrite (angle_unit _ _ unit_nx Hu), bind_Ok, Hd.
      destruct (decide (1 - - 24 / 25 < 1 / 10)); [lra|].
      destruct (decide (1 + - 24 / 25 < 1 / 10)); [|lra].
      rewrite Hxx, bind_Ok.
      destruct (decide (1 / 10 < Rabs 0 /\ Rabs 0 < 313 / 100)) as [[H _]|_];
        [rewrite Rabs_R0 in H; lra | reflexivity].
    + replace (cross nx ny) with (Vec 0 0 1)
        by (unfold cross, nx, ny; cbn; f_equal; ring).
      rewrite !Rotation3_unit by (unfold unit, dot; cbn; ring).
      cbn. rewrite cos_PI, cos_acos by lra. intros H.
      apply (f_equal (fun m => vx (row0 m))) in H. cbn in H. lra.
Qed.

(** The importer's variant keeps the angle and picks the axis alike: Y for
    an angle of at most 0.1, the reference rule above for an angle of at
    least 3.13, and [a x b] in between. *)
Lemma get_rot_mat_from_vecs_cases (a b : Vector) :
  unit a -> unit b ->
  exists axis,
    get_rot_mat_from_vecs a b
      = Ok (Rotation4 (acos (dot a b)) axis, acos (dot a b)) /\
    (Rabs (acos (dot a b)) <= 1 / 10 -> axis = Vec 0 1 0) /\
    (1 / 10 < Rabs (acos (dot a b)) < 313 / 100 -> axis = cross a b) /\
    (313 / 100 <= Rabs (acos (dot a b)) ->
       axis = cross a (if decide (1 / 10 < Rabs (acos (dot a nx)) /\
                                  Rabs (acos (dot a nx)) < 313 / 100)
                       then nx else ny)).
Proof.
  intros Ha Hb. unfold get_rot_mat_from_vecs.
  rewrite (angle_unit a b Ha Hb), bind_Ok.
  destruct (decide (Rabs (acos (dot a b)) <= 1 / 10)) as [H1|H1].
  - rewrite bind_Ok. eexists. split; [reflexivity|].
    split; [reflexivity|]. split; intros; lra.
  - destruct (decide (313 / 100 <= Rabs (acos (dot a b)))) as [H2|H2].
    + rewrite (angle_unit a nx Ha unit_nx), bind_Ok.
      destruct (decide (1 / 10 < Rabs (acos (dot a nx)) /\
                        Rabs (acos (dot a nx)) < 313 / 100));
        rewrite bind_Ok; eexists; (split; [reflexivity|]);
        (split; [intros; lra|]); (split; [intros; lra | reflexivity]).
    + rewrite bind_Ok. eexists. split; [reflexivity|].
      split; [intros; lra|]. split; [reflexivity | intros; lra].
Qed.

End KernelFacts.

(** ** Exporter: joint limits and the generic constraint *)

Module ExporterFacts.
Import Exporter.

(** Decide a membership or an equality between literal strings. *)
Ltac str_literal :=
  match goal with
  | H : ?a ∈ ?l |- _ =>
      apply (proj2 (bool_decide_eq_true _)) in H; vm_compute in H; discriminate H
  | H : ?a ∉ ?l |- _ =>
      apply (proj2 (bool_decide_eq_false _)) in H; vm_compute in H; discriminate H
  | H : @eq string ?a ?b |- _ => discriminate H
  end.

Ltac split_flags c :=
  destruct c as [t [u1 ? ? s1 ? ?] [u2 ? ? s2 ? ?] [u3 ? ? s3 ? ?]
                   [u4 ? ? s4 ? ?] [u5 ? ? s5 ? ?] [u6 ? ? s6 ? ?]].

(** Evaluate the tests on literal strings, then split on the next flag the
    code looks at. *)
Ltac eval_literals :=
  repeat match goal with
    | |- context [bool_decide ?P] =>
        let b := eval vm_compute in (bool_decide P) in
        change (bool_decide P) with b; cbn
    end.

Ltac next_flag :=
  match goal with
  | |- context [if ?b then _ else _] => is_var b; destruct b; cbn
  end.

Ltac run_code := cbn; repeat (eval_literals; try next_flag).

(** C8.  The record [assign_joint_params] leaves behind, by the kind of the
    constraint.  The call returns for every fixed, point, hinge and slider
    constraint and for every generic or generic-spring constraint with an
    active limit flag.  Where it returns, a fixed constraint is typed fixed
    and a point constraint p2p, both without joint limits; a hinge without
    its angular z limit is typed continuous and keeps the limits mapping
    with neither bound; every other constraint (limited hinge: revolute;
    slider: prismatic; generic: prismatic or revolute; generic spring:
    linear or torsion spring) carries the lower and upper limit of its
    classified degree of freedom, rounded to three decimals. *)
Theorem exported_joint_limits (c : constraint) :
  (type c ∈ [FIXED; POINT; HINGE; SLIDER] \/
   (type c ∈ [GENERIC; GENERIC_SPRING] /\ ~ no_limit_flag c) ->
   exists jd, assign_joint_params c JointTemplate = Ok jd) /\
  forall jd, assign_joint_params c JointTemplate = Ok jd ->
    match type c with
    | FIXED => jd_type jd = Some "fixed"%string /\ jd_joint_limits jd = None
    | POINT => jd_type jd = Some "p2p"%string /\ jd_joint_limits jd = None
    | HINGE =>
        if use_limit (ang_z c) then
          jd_type jd = Some "revolute"%string /\
          jd_joint_limits jd =
            Some (Limits (Some (Py.round3 (limit_lower (ang_z c))))
                         (Some (Py.round3 (limit_upper (ang_z c)))))
        else
          jd_type jd = Some "continuous"%string /\
          jd_joint_limits jd = Some (Limits None None)
    | SLIDER =>
        jd_type jd = Some "prismatic"%string /\
        jd_joint_limits jd =
          Some (Limits (Some (Py.round3 (limit_lower (lin_x c))))
                       (Some (Py.round3 (limit_upper (lin_x c)))))
    | GENERIC =>
        exists d, classified_dof c = Some d /\
          jd_type jd =
            Some (if use_limit (lin_x c) || use_limit (lin_y c) || use_limit (lin_z c)
                  then "prismatic" else "revolute")%string /\
          jd_joint_limits jd =
            Some (Limits (Some (Py.round3 (limit_lower d)))
                         (Some (Py.round3 (limit_upper d))))
    | GENERIC_SPRING =>
        exists d, classified_dof c = Some d /\
          jd_type jd =
            Some (if use_limit (lin_x c) || use_limit (lin_y c) || use_limit (lin_z c)
                  then "linear spring" else "torsion spring")%string /\
          jd_joint_limits jd =
            Some (Limits (Some (Py.round3 (limit_lower d)))
                         (Some (Py.round3 (limit_upper d))))
    | PISTON | MOTOR => False
    end.
Proof.
  split.
  - split_flags c. unfold assign_joint_params, no_limit_flag.
    cbn [type lin_x lin_y lin_z ang_x ang_y ang_z use_limit].
    rewrite !elem_of_cons, !elem_of_nil. intros H.
    destruct t; run_code; try (eexists; reflexivity); exfalso;
      (destruct H as [H | [H Hn]];
       [ repeat (destruct H as [H | H]; try discriminate H); exact H
       | try (apply Hn; repeat split; reflexivity);
         repeat (destruct H as [H | H]; try discriminate H); exact H ]).
  - intros jd. split_flags c. unfold assign_joint_params, classified_dof.
    destruct t; run_code; try discriminate.
    all: intros [= <-]; cbn;
         first [ split; reflexivity
               | eexists; split; [reflexivity|]; split; reflexivity ].
Qed.

(** The theorem at a hinge limited to [-0.7854, 1.5708]: the export returns,
    the type is revolute and the limits are the hinge's, rounded. *)
Lemma exported_joint_limits_witness :
  exists jd,
    assign_joint_params Samples.limited_hinge JointTemplate = Ok jd /\
    jd_type jd = Some "revolute"%string /\
    jd_joint_limits jd =
      Some (Limits (Some (Py.round3 (- (7854 # 10000))%Q))
                   (Some (Py.round3 (15708 # 10000)%Q))).
Proof.
  destruct (exported_joint_limits Samples.limited_hinge) as [Hret Hrec].
  destruct Hret as [jd Hjd].
  { left. rewrite !elem_of_cons. right; right; left. reflexivity. }
  exists jd. split; [exact Hjd|]. exact (Hrec jd Hjd).
Defined.

Example limited_hinge_record :
  exists jd,
    assign_joint_params Samples.limited_hinge JointTemplate = Ok jd /\
    jd_type jd = Some "revolute" /\
    jd_joint_limits jd
      = Some (Limits (Some (- 785 # 1000)%Q) (Some (1571 # 1000)%Q)).
Proof. eexists. split; [vm_compute; reflexivity|]. split; reflexivity. Qed.

(** Which constraints make the two classification functions raise. *)
Lemma assign_joint_params_generic (c : constraint) :
  type c = GENERIC ->
  (assign_joint_params c JointTemplate = Raise (KeyError "type") <-> no_limit_flag c) /\
  (~ no_limit_flag c -> exists jd, assign_joint_params c JointTemplate = Ok jd).
Proof.
  split_flags c. unfold assign_joint_params, no_limit_flag.
  cbn [type lin_x lin_y lin_z ang_x ang_y ang_z use_limit]. intros ->.
  run_code.
  all: split; [split; [try discriminate; intros _ | intros H; try reflexivity]
              | intros H; try (eexists; reflexivity)].
  all: try (destruct H as (?&?&?&?&?&?); discriminate).
  all: try (repeat split; reflexivity).
  all: try (exfalso; apply H; repeat split; reflexivity).
Qed.

Lemma no_limit_flag_dec (c : constraint) : no_limit_flag c \/ ~ no_limit_flag c.
Proof.
  split_flags c. unfold no_limit_flag. cbn.
  destruct u1, u2, u3, u4, u5, u6;
    first [ left; repeat split; reflexivity
          | right; intros (?&?&?&?&?&?); discriminate ].
Qed.

Lemma get_joint_axis_generic (c : constraint) :
  type c = GENERIC -> exists v, get_joint_axis c = Ok v.
Proof.
  intros Ht. unfold get_joint_axis. rewrite Ht.
  destruct (use_limit (lin_x c) || use_limit (ang_x c));
    [|destruct (use_limit (lin_y c) || use_limit (ang_y c));
      [|destruct (use_limit (lin_z c) || use_limit (ang_z c))]];
    eexists; reflexivity.
Qed.

Lemma get_joint_axis_spring (c : constraint) :
  type c = GENERIC_SPRING ->
  (no_limit_flag c -> get_joint_axis c = Raise (UnboundLocalError "ax_idx")) /\
  (~ no_limit_flag c -> exists v, get_joint_axis c = Ok v).
Proof.
  split_flags c. unfold get_joint_axis, no_limit_flag. cbn. intros ->.
  destruct u1, u2, u3, u4, u5, u6; cbn; split; intros H;
    first [ reflexivity
          | (destruct H as (?&?&?&?&?&?); discriminate)
          | (eexists; reflexivity)
          | (exfalso; apply H; repeat split; reflexivity) ].
Qed.

Lemma assign_joint_params_spring (c : constraint) :
  type c = GENERIC_SPRING -> ~ no_limit_flag c ->
  exists jd, assign_joint_params c JointTemplate = Ok jd.
Proof.
  split_flags c. unfold assign_joint_params, no_limit_flag.
  cbn [type lin_x lin_y lin_z ang_x ang_y ang_z use_limit]. intros -> H.
  run_code; try (eexists; reflexivity).
  exfalso; apply H; repeat split; reflexivity.
Qed.

Lemma generate_joint_params_Ok (c : constraint) v jd :
  type c ∈ exported_types ->
  get_joint_axis c = Ok v -> assign_joint_params c JointTemplate = Ok jd ->
  generate_joint_params c = Ok (Some (v.2, jd)).
Proof.
  intros Ht Hv Hjd. unfold generate_joint_params.
  rewrite bool_decide_eq_true_2 by exact Ht.
  rewrite Hv, bind_Ok. destruct v as [ax i]. now rewrite Hjd, bind_Ok.
Qed.

Lemma generic_exported : GENERIC ∈ exported_types.
Proof. unfold exported_types. rewrite !elem_of_cons. tauto. Qed.

Lemma generic_spring_exported : GENERIC_SPRING ∈ exported_types.
Proof. unfold exported_types. rewrite !elem_of_cons. tauto. Qed.

(** C10.  For a generic constraint [get_joint_axis] returns, and
    [assign_joint_params] raises the [KeyError] of the unassigned type field
    exactly when no limit flag is active; for a generic-spring constraint
    [get_joint_axis] raises on the unbound [ax_idx] exactly when no limit flag
    is active.  So the export of such a joint raises exactly then, and the
    export of a fixed, hinge, slider or point constraint never does. *)
Theorem generic_export_not_total (c : constraint) :
  (type c = GENERIC ->
     (exists v, get_joint_axis c = Ok v) /\
     (assign_joint_params c JointTemplate = Raise (KeyError "type")
        <-> no_limit_flag c) /\
     (generate_joint_params c = Raise (KeyError "type") <-> no_limit_flag c) /\
     (~ no_limit_flag c -> exists r, generate_joint_params c = Ok (Some r))) /\
  (type c = GENERIC_SPRING ->
     (get_joint_axis c = Raise (UnboundLocalError "ax_idx")
        <-> no_limit_flag c) /\
     (generate_joint_params c = Raise (UnboundLocalError "ax_idx")
        <-> no_limit_flag c) /\
     (~ no_limit_flag c -> exists r, generate_joint_params c = Ok (Some r))) /\
  (type c ∈ [FIXED; HINGE; SLIDER; POINT] ->
     exists r, generate_joint_params c = Ok (Some r)).
Proof.
  split; [|split].
  - intros Ht.
    destruct (get_joint_axis_generic c Ht) as [v Hv].
    destruct (assign_joint_params_generic c Ht) as [Hraise Hok].
    assert (Hgen : ~ no_limit_flag c ->
                   exists r, generate_joint_params c = Ok (Some r)).
    { intros Hn. destruct (Hok Hn) as [jd Hjd]. eexists.
      apply generate_joint_params_Ok; [rewrite Ht; apply generic_exported | eassumption ..]. }
    split; [eauto|]. split; [exact Hraise|]. split; [|exact Hgen].
    split.
    + intros Hr. destruct (no_limit_flag_dec c) as [Hn|Hn]; [exact Hn|].
      destruct (Hgen Hn) as [r Hr']. congruence.
    + intros Hn. unfold generate_joint_params.
      rewrite bool_decide_eq_true_2 by (rewrite Ht; apply generic_exported).
      rewrite Hv, bind_Ok. destruct v.
      now rewrite (proj2 Hraise Hn).
  - intros Ht.
    destruct (get_joint_axis_spring c Ht) as [Hraise Hok].
    assert (Hgen : ~ no_limit_flag c ->
                   exists r, generate_joint_params c = Ok (Some r)).
    { intros Hn. destruct (Hok Hn) as [v Hv].
      destruct (assign_joint_params_spring c Ht Hn) as [jd Hjd]. eexists.
      apply generate_joint_params_Ok;
        [rewrite Ht; apply generic_spring_exported | eassumption ..]. }
    split; [|split; [|exact Hgen]].
    + split; [|exact Hraise].
      intros Hr. destruct (no_limit_flag_dec c) as [Hn|Hn]; [exact Hn|].
      destruct (Hok Hn) as [v Hv]. congruence.
    + split.
      * intros Hr. destruct (no_limit_flag_dec c) as [Hn|Hn]; [exact Hn|].
        destruct (Hgen Hn) as [r Hr']. congruence.
      * intros Hn. unfold generate_joint_params.
        rewrite bool_decide_eq_true_2 by (rewrite Ht; apply generic_spring_exported).
        now rewrite (Hraise Hn).
  - intros H.
    assert (Ht : type c = FIXED \/ type c = HINGE \/ type c = SLIDER \/ type c = POINT).
    { rewrite !elem_of_cons in H. rewrite elem_of_nil in H. tauto. }
    split_flags c. unfold generate_joint_params, get_joint_axis,
      assign_joint_params, exported_types. cbn in Ht |- *.
    destruct Ht as [-> | [-> | [-> | ->]]]; run_code; eexists; reflexivity.
Qed.

(** The theorem at a generic and at a generic-spring constraint with no
    active limit flag. *)
Lemma generic_export_not_total_witness :
  generate_joint_params (Samples.unconstrained GENERIC)
    = Raise (KeyError "type") /\
  generate_joint_params (Samples.unconstrained GENERIC_SPRING)
    = Raise (UnboundLocalError "ax_idx").
Proof.
  split.
  - destruct (generic_export_not_total (Samples.unconstrained GENERIC))
      as [H _].
    destruct (H eq_refl) as (_ & _ & [_ H3] & _).
    apply H3. repeat split; reflexivity.
  - destruct (generic_export_not_total (Samples.unconstrained GENERIC_SPRING))
      as (_ & H & _).
    destruct (H eq_refl) as (_ & [_ H2] & _).
    apply H2. repeat split; reflexivity.
Defined.

End ExporterFacts.

(** ** Importer: collision groups *)

Module BodiesFacts.
Import Bodies.

Lemma setitem_Ok {A : Type} (l : list A) (i : nat) (x : A) :
  (i < length l)%nat -> index_error (Py.setitem l i x) = Ok (<[i := x]> l).
Proof.
  intros H. unfold Py.setitem. destruct (decide (i < length l)%nat); [reflexivity | lia].
Qed.

(** An index outside the range leaves the flags as they are, prints one
    line, and the loop goes on with the rest of the list. *)
Lemma set_groups_skip (flags : list bool) (group : Z) (rest : list Z) (out : list string) :
  ~ in_range group ->
  set_groups flags (group :: rest) out
  = set_groups flags rest (out ++ [group_warning]).
Proof.
  intros H. cbn. destruct (decide (0 <= group < 20)%Z); [contradiction | reflexivity].
Qed.

Lemma set_groups_spec (col_groups : list Z) :
  forall (flags : list bool) (out : list string),
    length flags = 20%nat ->
    exists flags',
      set_groups flags col_groups out
        = Ok (flags', out ++ expected_warnings col_groups) /\
      length flags' = 20%nat /\
      forall i : nat,
        flags' !! i = Some true <->
        (flags !! i = Some true \/ ((i < 20)%nat /\ Z.of_nat i ∈ col_groups)).
Proof.
  induction col_groups as [|g gs IH]; intros flags out Hlen.
  - exists flags. cbn. rewrite app_nil_r. split; [reflexivity|].
    split; [exact Hlen|]. intros i. rewrite elem_of_nil. tauto.
  - cbn [set_groups]. unfold expected_warnings.
    destruct (decide (0 <= g < 20)%Z) as [Hg|Hg].
    + rewrite setitem_Ok by lia. rewrite bind_Ok.
      destruct (IH (<[Z.to_nat g := true]> flags) out) as (flags' & Hrun & Hl & Hspec).
      { now rewrite length_insert. }
      exists flags'. split.
      { rewrite Hrun. unfold expected_warnings.
        rewrite filter_cons_False by (unfold in_range; tauto). reflexivity. }
      split; [exact Hl|].
      intros i. rewrite Hspec, list_lookup_insert_Some, elem_of_cons, Hlen.
      assert (Hgi : Z.to_nat g = i <-> Z.of_nat i = g) by lia.
      destruct (decide (Z.to_nat g = i)) as [He|He].
      * assert (i < 20)%nat by lia. tauto.
      * tauto.
    + destruct (IH flags (out ++ [group_warning])) as (flags' & Hrun & Hl & Hspec);
        [exact Hlen|].
      exists flags'. split.
      { rewrite Hrun. rewrite filter_cons_True by (unfold in_range; tauto).
        cbn. now rewrite <- app_assoc. }
      split; [exact Hl|].
      intros i. rewrite Hspec, elem_of_cons.
      assert (Hgi : (i < 20)%nat -> Z.of_nat i <> g) by lia.
      tauto.
Qed.

(** Loading the groups into flags that are clear above index 0: exactly the
    listed indices of the range are set. *)
Lemma load_collision_groups_spec (flags : list bool) (col_groups : list Z) :
  length flags = 20%nat ->
  (forall i : nat, (0 < i)%nat -> flags !! i <> Some true) ->
  exists flags',
    load_collision_groups flags (Some col_groups)
      = Ok (flags', expected_warnings col_groups) /\
    length flags' = 20%nat /\
    forall i : nat,
      flags' !! i = Some true <-> ((i < 20)%nat /\ Z.of_nat i ∈ col_groups).
Proof.
  intros Hlen Hclear. unfold load_collision_groups.
  rewrite setitem_Ok by lia. rewrite bind_Ok.
  destruct (set_groups_spec col_groups (<[0%nat := false]> flags) [])
    as (flags' & Hrun & Hl & Hspec); [now rewrite length_insert|].
  exists flags'. split; [exact Hrun|]. split; [exact Hl|].
  intros i. rewrite Hspec, list_lookup_insert_Some.
  split; [|tauto].
  intros [[(_ & Hx & _) | (Hne & Hi)] | H]; [discriminate | | exact H].
  exfalso. apply (Hclear i); [lia | exact Hi].
Qed.

Lemma blender_default_clear (i : nat) :
  (0 < i)%nat -> blender_default_groups !! i <> Some true.
Proof.
  intros Hi. destruct i as [|i]; [lia|]. unfold blender_default_groups.
  intros H. change (replicate 19 false !! i = Some true) in H.
  apply lookup_replicate in H as [H _]. discriminate.
Qed.

Lemma ambf_default_clear (i : nat) : ambf_default_groups !! i <> Some true.
Proof.
  unfold ambf_default_groups. intros H.
  apply lookup_replicate in H as [H _]. discriminate.
Qed.

(** C9.  In either mode, loading the collision groups of a mesh body returns:
    afterwards exactly the listed indices inside [0, 20) are set, one warning
    line is printed for every listed index outside, and such an index leaves
    the flags untouched while the loop goes on. *)
Theorem collision_groups_loaded (col_groups : list Z) (ob : object) :
  ob_type ob = OB_MESH ->
  ambf_rigid_body_collision_groups ob = ambf_default_groups ->
  (exists ob' flags,
     load_blender_rigid_body (Some col_groups) ob
       = Ok (ob', expected_warnings col_groups) /\
     rigid_body_collision_groups ob' = Some flags /\
     length flags = 20%nat /\
     forall i : nat,
       flags !! i = Some true <-> ((i < 20)%nat /\ Z.of_nat i ∈ col_groups)) /\
  (exists ob',
     load_ambf_rigid_body (Some col_groups) ob
       = Ok (ob', expected_warnings col_groups) /\
     length (ambf_rigid_body_collision_groups ob') = 20%nat /\
     forall i : nat,
       ambf_rigid_body_collision_groups ob' !! i = Some true
       <-> ((i < 20)%nat /\ Z.of_nat i ∈ col_groups)) /\
  (forall flags group rest out,
     ~ in_range group ->
     set_groups flags (group :: rest) out
     = set_groups flags rest (out ++ [group_warning])).
Proof.
  intros Hmesh Hdef. split; [|split].
  - destruct (load_collision_groups_spec blender_default_groups col_groups)
      as (flags & Hrun & Hl & Hspec);
      [reflexivity | apply blender_default_clear |].
    unfold load_blender_rigid_body.
    destruct (decide (ob_type ob = OB_MESH)); [|contradiction].
    rewrite Hrun, bind_Ok. eexists _, flags.
    split; [reflexivity|]. split; [reflexivity|]. split; assumption.
  - destruct (load_collision_groups_spec (ambf_rigid_body_collision_groups ob) col_groups)
      as (flags & Hrun & Hl & Hspec).
    { rewrite Hdef. reflexivity. }
    { intros i _. rewrite Hdef. apply ambf_default_clear. }
    unfold load_ambf_rigid_body.
    destruct (decide (ob_type ob = OB_MESH)); [|contradiction].
    rewrite Hrun, bind_Ok. eexists.
    split; [reflexivity|]. split; assumption.
  - apply set_groups_skip.
Qed.

Example mixed_groups_native :
  load_ambf_rigid_body (Some Samples.mixed_groups) Samples.fresh_mesh
  = Ok ({| ob_type := OB_MESH;
           rigid_body_collision_groups := None;
           ambf_rigid_body_collision_groups :=
             [false; true; false; false; false; false; false; true]
               ++ replicate 12 false |},
        [group_warning; group_warning]).
Proof. vm_compute. reflexivity. Qed.

(** The theorem at a fresh mesh and the list 1, 25, -3, 7. *)
Lemma collision_groups_loaded_witness :
  (exists ob' flags,
     load_blender_rigid_body (Some Samples.mixed_groups) Samples.fresh_mesh
       = Ok (ob', expected_warnings Samples.mixed_groups) /\
     rigid_body_collision_groups ob' = Some flags /\
     length flags = 20%nat /\
     forall i : nat,
       flags !! i = Some true
       <-> ((i < 20)%nat /\ Z.of_nat i ∈ Samples.mixed_groups)) /\
  (exists ob',
     load_ambf_rigid_body (Some Samples.mixed_groups) Samples.fresh_mesh
       = Ok (ob', expected_warnings Samples.mixed_groups) /\
     length (ambf_rigid_body_collision_groups ob') = 20%nat /\
     forall i : nat,
       ambf_rigid_body_collision_groups ob' !! i = Some true
       <-> ((i < 20)%nat /\ Z.of_nat i ∈ Samples.mixed_groups)).
Proof.
  destruct (collision_groups_loaded Samples.mixed_groups Samples.fresh_mesh
              eq_refl eq_refl) as (H1 & H2 & _).
  split; [exact H1 | exact H2].
Defined.

End BodiesFacts.

(** ** Tree builder *)

Module TreeFacts.
Import Tree.

Lemma for_each_app {A S : Type} (f : A -> S -> result S) (l1 l2 : list A) (s : S) :
  for_each f (l1 ++ l2) s = (s' ← for_each f l1 s; for_each f l2 s').
Proof.
  revert s. induction l1 as [|a l1 IH]; intros s; cbn; [reflexivity|].
  destruct (f a s); cbn; [apply IH | reflexivity].
Qed.

Lemma init_added_fold (l : list nat) (m : gmap nat bool) (o : nat) :
  foldl (fun m obj => <[obj := false]> m) m l !! o
  = if decide (o ∈ l) then Some false else m !! o.
Proof.
  revert m. induction l as [|a l IH]; intros m; cbn.
  - destruct (decide (o ∈ [])) as [H|_]; [|reflexivity].
    apply elem_of_nil in H. destruct H.
  - rewrite IH. destruct (decide (o ∈ l)) as [Hin|Hin].
    + rewrite decide_True by (apply elem_of_cons; auto). reflexivity.
    + destruct (decide (a = o)) as [->|Hne].
      * rewrite decide_True by (apply elem_of_cons; auto).
        apply lookup_insert_eq.
      * rewrite decide_False by (rewrite elem_of_cons; intros [?|?]; congruence).
        now apply lookup_insert_ne.
Qed.

Lemma init_added_lookup (sc : scene) (o : nat) :
  init_added sc !! o = if decide (o ∈ objects sc) then Some false else None.
Proof. unfold init_added. rewrite init_added_fold. now rewrite lookup_empty. Qed.

Lemma depth_fun (sc : scene) (o n m : nat) :
  depth sc o n -> depth sc o m -> n = m.
Proof.
  intros H. revert m. induction H as [o Hr | o p n Hp Hd IH]; intros m Hm.
  - inversion Hm; [reflexivity | congruence].
  - inversion Hm as [? Hr | ? p' m' Hp' Hd']; subst; [congruence|].
    f_equal. apply IH. congruence.
Qed.

Section Forest.
Variable sc : scene.
Hypothesis Hforest : forest sc.

(** The parent chain of an object of depth [n] holds [n + 1] different
    objects of the scene. *)
Lemma depth_chain (o n : nat) :
  depth sc o n -> o ∈ objects sc ->
  exists chain,
    length chain = S n /\ NoDup chain /\
    forall x, x ∈ chain ->
      x ∈ objects sc /\ exists m, (m <= n)%nat /\ depth sc x m.
Proof.
  induction 1 as [o Hr | o p n Hp Hd IH]; intros Ho.
  - exists [o]. split; [reflexivity|]. split; [apply NoDup_singleton|].
    intros x Hx. apply list_elem_of_singleton in Hx as ->.
    split; [exact Ho|]. exists 0%nat. split; [lia | now constructor].
  - destruct IH as (chain & Hlen & Hnd & Hall).
    { eapply forest_closed; eauto. }
    exists (o :: chain). split; [cbn; lia|]. split.
    + apply NoDup_cons. split; [|exact Hnd].
      intros Hin. destruct (Hall o Hin) as (_ & m & Hm & Hdm).
      assert (S n = m) by (eapply depth_fun; [econstructor|]; eauto). lia.
    + intros x Hx. apply elem_of_cons in Hx as [-> | Hx].
      * split; [exact Ho|]. exists (S n). split; [lia | econstructor; eauto].
      * destruct (Hall x Hx) as (Hxo & m & Hm & Hdm).
        split; [exact Hxo|]. exists m. split; [lia | exact Hdm].
Qed.

Lemma depth_bound (o n : nat) :
  o ∈ objects sc -> depth sc o n -> (n < length (objects sc))%nat.
Proof.
  intros Ho Hd. destruct (depth_chain o n Hd Ho) as (chain & Hlen & Hnd & Hall).
  assert (length chain <= length (objects sc))%nat.
  { apply submseteq_length, NoDup_submseteq; [exact Hnd|].
    intros x Hx. now destruct (Hall x Hx). }
  lia.
Qed.

(** [get_grand_parent] returns a root above (or equal to) the object. *)
Lemma get_grand_parent_spec (fuel o n : nat) :
  depth sc o n -> (n < fuel)%nat -> o ∈ objects sc ->
  exists r, get_grand_parent fuel sc o = Ok r /\
            parent sc r = None /\ r ∈ objects sc /\
            (r = o \/ ancestor sc r o).
Proof.
  intros Hd. revert fuel. induction Hd as [o Hr | o p n Hp Hd IH]; intros fuel Hf Ho.
  - destruct fuel as [|fuel]; [lia|]. cbn. rewrite Hr.
    exists o. repeat split; auto.
  - destruct fuel as [|fuel]; [lia|]. cbn. rewrite Hp.
    destruct (IH fuel) as (r & Hrun & Hroot & Hro & Hanc);
      [lia | eapply forest_closed; eauto |].
    exists r. repeat (split; [assumption|]). right.
    destruct Hanc as [-> | Hanc];
      [now apply ancestor_parent | eapply ancestor_step; eauto].
Qed.

(** Listing one more body whose parent, if any, is listed already. *)
Lemma inv_push (st : state) (b : nat) :
  inv sc st -> b ∈ objects sc -> st.2 !! b = Some false ->
  (forall p, parent sc b = Some p -> p ∈ st.1) ->
  inv sc (st.1 ++ [b], <[b := true]> st.2).
Proof.
  intros [Hk Hf Hnd Hs Ho] Hb Hflag Hp.
  assert (Hnb : b ∉ st.1).
  { intros Hin. apply Hf in Hin. congruence. }
  split; cbn.
  - intros o Hoin. apply lookup_insert_is_Some.
    destruct (decide (b = o)); [auto | right; auto].
  - intros o. rewrite lookup_insert_Some, elem_of_app, list_elem_of_singleton, Hf.
    split; [intros [[-> _] | [_ H]]; auto | ].
    intros [H | ->]; [|auto].
    right. split; [congruence | exact H].
  - apply NoDup_app. split; [exact Hnd|]. split; [|apply NoDup_singleton].
    intros x Hx Hxb. apply list_elem_of_singleton in Hxb as ->. contradiction.
  - intros o Hoin. apply elem_of_app in Hoin as [H | H]; [auto|].
    apply list_elem_of_singleton in H as ->. exact Hb.
  - intros j o p Hj Hpar. apply lookup_app_Some in Hj as [Hj | [Hlen Hj]].
    + destruct (Ho j o p Hj Hpar) as (i & Hi & Hip).
      exists i. split; [exact Hi|]. rewrite lookup_app_l; [exact Hip|].
      eapply lookup_lt_Some; eauto.
    + assert (o = b) as ->.
      { destruct (j - length st.1)%nat; cbn in Hj; [congruence | discriminate]. }
      apply Hp in Hpar. apply list_elem_of_lookup in Hpar as [i Hi].
      exists i. split.
      * apply lookup_lt_Some in Hi. lia.
      * rewrite lookup_app_l; [exact Hi | eapply lookup_lt_Some; eauto].
Qed.

(** The loop over the children of a listed body [b], given that the
    recursive calls behave. *)
Lemma children_loop (fuel n : nat) (b : nat) (open : nat -> Prop) :
  (forall c st,
      inv sc st -> c ∈ objects sc -> parent sc c = Some b -> b ∈ st.1 ->
      closed_except sc open st ->
      exists st', downward_tree_pass fuel sc c st = Ok st' /\
                  inv sc st' /\ st.1 `prefix_of` st'.1 /\ c ∈ st'.1 /\
                  closed_except sc open st') ->
  forall cs st,
    (forall c, c ∈ cs -> c ∈ objects sc /\ parent sc c = Some b) ->
    inv sc st -> b ∈ st.1 -> closed_except sc open st ->
    exists st',
      for_each (fun child st => downward_tree_pass fuel sc child st) cs st = Ok st' /\
      inv sc st' /\ st.1 `prefix_of` st'.1 /\
      (forall c, c ∈ cs -> c ∈ st'.1) /\
      closed_except sc open st'.
Proof.
  intros Hcall. induction cs as [|c cs IH]; intros st Hcs Hinv Hb Hcl.
  - exists st. split; [reflexivity|]. split; [exact Hinv|].
    split; [reflexivity|]. split; [|exact Hcl].
    intros c Hc. apply elem_of_nil in Hc. destruct Hc.
  - destruct (Hcs c) as [Hco Hcp]; [apply elem_of_cons; auto|].
    destruct (Hcall c st Hinv Hco Hcp Hb Hcl)
      as (st1 & Hrun1 & Hinv1 & Hpre1 & Hc1 & Hcl1).
    destruct (IH st1) as (st2 & Hrun2 & Hinv2 & Hpre2 & Hall2 & Hcl2); auto.
    { intros c' Hc'. apply Hcs, elem_of_cons. auto. }
    { eapply elem_of_prefix; eauto. }
    exists st2. cbn. rewrite Hrun1, bind_Ok. split; [exact Hrun2|].
    split; [exact Hinv2|]. split; [etrans; eauto|]. split; [|exact Hcl2].
    intros c' Hc'. apply elem_of_cons in Hc' as [-> | Hc']; [|auto].
    eapply elem_of_prefix; eauto.
Qed.

(** [downward_tree_pass] from a body whose parent, if any, is listed:
    it returns, keeps the invariant, only appends, lists the body, and
    leaves every body it lists with all its children listed. *)
Lemma downward_spec (fuel : nat) :
  forall (b n : nat) (st : state) (open : nat -> Prop),
    depth sc b n -> (length (objects sc) < n + fuel)%nat ->
    inv sc st -> b ∈ objects sc ->
    (forall p, parent sc b = Some p -> p ∈ st.1) ->
    closed_except sc open st ->
    exists st', downward_tree_pass fuel sc b st = Ok st' /\
                inv sc st' /\ st.1 `prefix_of` st'.1 /\ b ∈ st'.1 /\
                closed_except sc open st'.
Proof.
  induction fuel as [|fuel IH]; intros b n st open Hd Hfuel Hinv Hb Hpar Hcl.
  - pose proof (depth_bound b n Hb Hd). lia.
  - cbn [downward_tree_pass].
    destruct (inv_keys sc st Hinv b Hb) as [flag Hflag]. rewrite Hflag.
    destruct flag.
    + exists st. split; [reflexivity|]. split; [exact Hinv|].
      split; [reflexivity|]. split; [|exact Hcl].
      now apply (inv_flag sc st Hinv).
    + pose proof (inv_push st b Hinv Hb Hflag Hpar) as Hinv1.
      set (st1 := (st.1 ++ [b], <[b := true]> st.2)) in *.
      assert (Hb1 : b ∈ st1.1).
      { cbn. apply elem_of_app. right. now apply list_elem_of_singleton. }
      assert (Hnb : b ∉ st.1).
      { intros Hin. apply (inv_flag sc st Hinv) in Hin. congruence. }
      assert (Hcl1 : closed_except sc (fun o => open o \/ o = b) st1).
      { intros o c Ho Hno Hc Hpc. cbn in Ho |- *.
        apply elem_of_app in Ho as [Ho | Ho].
        - apply elem_of_app. left. eapply Hcl; eauto.
        - apply list_elem_of_singleton in Ho. tauto. }
      destruct (children_loop fuel n b (fun o => open o \/ o = b)) with
        (cs := children sc b) (st := st1)
        as (st2 & Hrun & Hinv2 & Hpre & Hall & Hcl2); auto.
      { intros c st' Hinv' Hc Hpc Hbin Hcl'.
        apply (IH c (S n) st' (fun o => open o \/ o = b)); auto.
        - econstructor; eauto.
        - lia.
        - intros p Hp. congruence. }
      { intros c Hc. apply list_elem_of_filter in Hc. tauto. }
      exists st2. split; [exact Hrun|]. split; [exact Hinv2|].
      split.
      { etrans; [|exact Hpre]. cbn. now apply prefix_app_r. }
      split; [eapply elem_of_prefix; eauto|].
      intros o c Ho Hno Hc Hpc.
      destruct (decide (o = b)) as [->|Hne].
      * apply Hall. apply list_elem_of_filter. auto.
      * eapply Hcl2; eauto. tauto.
Qed.

Lemma closed_descend (st : state) (a o : nat) :
  all_closed sc st -> ancestor sc a o -> o ∈ objects sc -> a ∈ st.1 -> o ∈ st.1.
Proof.
  intros Hcl Hanc. induction Hanc as [o p Hp | o p a Hp Hanc IH]; intros Ho Ha.
  - eapply Hcl; eauto.
  - eapply (Hcl p o); eauto. apply IH; [|exact Ha].
    eapply forest_closed; eauto.
Qed.

(** In a state that keeps the invariant every proper ancestor of a listed
    body is listed at a smaller position. *)
Lemma ancestor_before (st : state) (a o j : nat) :
  inv sc st -> ancestor sc a o -> st.1 !! j = Some o ->
  exists i, (i < j)%nat /\ st.1 !! i = Some a.
Proof.
  intros Hinv Hanc. revert j.
  induction Hanc as [o p Hp | o p a Hp Hanc IH]; intros j Hj.
  - eapply inv_order; eauto.
  - destruct (inv_order sc st Hinv j o p Hj Hp) as (i & Hi & Hip).
    destruct (IH i Hip) as (k & Hk & Hka). exists k. split; [lia | exact Hka].
Qed.

Lemma visit_spec (fuel : nat) (obj : nat) (st : state) :
  (length (objects sc) < fuel)%nat ->
  inv sc st -> all_closed sc st -> obj ∈ objects sc ->
  exists st', visit fuel sc obj st = Ok st' /\
              inv sc st' /\ st.1 `prefix_of` st'.1 /\ obj ∈ st'.1 /\
              all_closed sc st'.
Proof.
  intros Hfuel Hinv Hcl Hobj.
  destruct (forest_rooted sc Hforest obj Hobj) as [n Hd].
  pose proof (depth_bound obj n Hobj Hd) as Hn.
  destruct (get_grand_parent_spec fuel obj n Hd ltac:(lia) Hobj)
    as (r & Hgp & Hroot & Hr & Hanc).
  assert (Hd0 : depth sc r 0) by now constructor.
  assert (Hf0 : (length (objects sc) < 0 + fuel)%nat) by lia.
  assert (Hp0 : forall p, parent sc r = Some p -> p ∈ st.1)
    by (intros p Hp; congruence).
  destruct (downward_spec fuel r 0 st (fun _ => False) Hd0 Hf0 Hinv Hr Hp0 Hcl)
    as (st' & Hrun & Hinv' & Hpre & Hrin & Hcl').
  exists st'. unfold visit. rewrite Hgp, bind_Ok.
  split; [exact Hrun|]. split; [exact Hinv'|]. split; [exact Hpre|].
  split; [|exact Hcl'].
  destruct Hanc as [-> | Hanc]; [exact Hrin|].
  eapply closed_descend; eauto.
Qed.

(** Starting again from a body that is already listed changes nothing. *)
Lemma visit_listed (fuel : nat) (obj : nat) (st : state) :
  (length (objects sc) < fuel)%nat ->
  inv sc st -> obj ∈ objects sc -> obj ∈ st.1 ->
  visit fuel sc obj st = Ok st.
Proof.
  intros Hfuel Hinv Hobj Hin.
  destruct (forest_rooted sc Hforest obj Hobj) as [n Hd].
  pose proof (depth_bound obj n Hobj Hd) as Hn.
  destruct (get_grand_parent_spec fuel obj n Hd ltac:(lia) Hobj)
    as (r & Hgp & Hroot & Hr & Hanc).
  unfold visit. rewrite Hgp, bind_Ok.
  assert (Hrin : r ∈ st.1).
  { destruct Hanc as [-> | Hanc]; [exact Hin|].
    apply list_elem_of_lookup in Hin as [j Hj].
    destruct (ancestor_before st r obj j Hinv Hanc Hj) as (i & _ & Hi).
    apply list_elem_of_lookup. eauto. }
  destruct fuel as [|fuel]; [lia|]. cbn.
  apply (inv_flag sc st Hinv) in Hrin. now rewrite Hrin.
Qed.

Lemma visits_spec (fuel : nat) (starts : list nat) :
  (length (objects sc) < fuel)%nat ->
  forall st,
    (forall x, x ∈ starts -> x ∈ objects sc) ->
    inv sc st -> all_closed sc st ->
    exists st', for_each (visit fuel sc) starts st = Ok st' /\
                inv sc st' /\ st.1 `prefix_of` st'.1 /\
                (forall x, x ∈ starts -> x ∈ st'.1) /\
                all_closed sc st'.
Proof.
  intros Hfuel. induction starts as [|x starts IH]; intros st Hsub Hinv Hcl.
  - exists st. split; [reflexivity|]. split; [exact Hinv|].
    split; [reflexivity|]. split; [|exact Hcl].
    intros x Hx. apply elem_of_nil in Hx. destruct Hx.
  - destruct (visit_spec fuel x st Hfuel Hinv Hcl)
      as (st1 & Hrun1 & Hinv1 & Hpre1 & Hx1 & Hcl1).
    { apply Hsub, elem_of_cons. auto. }
    destruct (IH st1) as (st2 & Hrun2 & Hinv2 & Hpre2 & Hall2 & Hcl2); auto.
    { intros y Hy. apply Hsub, elem_of_cons. auto. }
    exists st2. cbn. rewrite Hrun1, bind_Ok. split; [exact Hrun2|].
    split; [exact Hinv2|]. split; [etrans; eauto|]. split; [|exact Hcl2].
    intros y Hy. apply elem_of_cons in Hy as [-> | Hy]; [|auto].
    eapply elem_of_prefix; eauto.
Qed.

Lemma visits_listed (fuel : nat) (starts : list nat) (st : state) :
  (length (objects sc) < fuel)%nat ->
  inv sc st ->
  (forall x, x ∈ starts -> x ∈ objects sc /\ x ∈ st.1) ->
  for_each (visit fuel sc) starts st = Ok st.
Proof.
  intros Hfuel Hinv. induction starts as [|x starts IH]; intros Hall.
  - reflexivity.
  - cbn. destruct (Hall x) as [Hx1 Hx2]; [apply elem_of_cons; auto|].
    rewrite (visit_listed fuel x st Hfuel Hinv Hx1 Hx2), bind_Ok.
    apply IH. intros y Hy. apply Hall, elem_of_cons. auto.
Qed.

Lemma inv_init : inv sc ([], init_added sc) /\ all_closed sc ([], init_added sc).
Proof.
  split; [split; cbn|].
  - intros o Ho. rewrite init_added_lookup, decide_True by exact Ho. eauto.
  - intros o. rewrite init_added_lookup, elem_of_nil.
    destruct (decide (o ∈ objects sc)); split; intros H;
      first [discriminate H | destruct H].
  - apply NoDup_nil_2.
  - intros o Ho. apply elem_of_nil in Ho. destruct Ho.
  - intros j o p Hj. rewrite lookup_nil in Hj. discriminate.
  - intros o c Ho. cbn in Ho. apply elem_of_nil in Ho. destruct Ho.
Qed.

End Forest.

(** C6.  On a forest the traversal returns; its list holds every body exactly
    once, every proper ancestor of a body comes before it, and visiting from
    further starting nodes, whose roots were reached already, leaves the
    list as it is. *)
Theorem traversal_order (sc : scene) :
  forest sc ->
  exists hl,
    populate_heirarchial_tree sc = Ok hl /\
    NoDup hl /\ hl ≡ₚ objects sc /\
    (forall a o, ancestor sc a o -> o ∈ objects sc -> precedes hl a o) /\
    (forall extra,
        (forall x, x ∈ extra -> x ∈ objects sc) ->
        populate_from (S (length (objects sc))) sc (objects sc ++ extra) = Ok hl).
Proof.
  intros Hforest.
  destruct (inv_init sc) as [Hinv0 Hcl0].
  assert (Hfuel : (length (objects sc) < S (length (objects sc)))%nat) by lia.
  destruct (visits_spec sc Hforest _ (objects sc) Hfuel ([], init_added sc))
    as (st & Hrun & Hinv & _ & Hall & Hcl); auto.
  exists st.1. unfold populate_heirarchial_tree, populate_from.
  split; [now rewrite Hrun|].
  split; [exact (inv_nodup sc st Hinv)|].
  split.
  { apply NoDup_Permutation;
      [exact (inv_nodup sc st Hinv) | exact (forest_nodup sc Hforest) |].
    intros x. split; [apply (inv_sub sc st Hinv) | apply Hall]. }
  split.
  - intros a o Hanc Ho. apply Hall in Ho.
    apply list_elem_of_lookup in Ho as [j Hj].
    destruct (ancestor_before sc st a o j Hinv Hanc Hj) as (i & Hi & Hia).
    exists i, j. auto.
  - intros extra Hextra. rewrite for_each_app, Hrun, bind_Ok.
    rewrite (visits_listed sc Hforest _ extra st Hfuel Hinv); [reflexivity|].
    intros x Hx. split; [auto | apply Hall; auto].
Qed.

Lemma two_trees_forest : forest Samples.two_trees.
Proof.
  split.
  - cbn. repeat (apply NoDup_cons; split; [rewrite ?elem_of_cons, elem_of_nil; lia|]).
    apply NoDup_nil_2.
  - intros o p Ho. cbn in Ho |- *. rewrite !elem_of_cons, elem_of_nil in Ho.
    rewrite !elem_of_cons, elem_of_nil.
    destruct Ho as [-> | [-> | [-> | [-> | [-> | []]]]]]; cbn; intros [= <-]; auto 10.
  - intros o Ho. cbn in Ho. rewrite !elem_of_cons, elem_of_nil in Ho.
    destruct Ho as [-> | [-> | [-> | [-> | [-> | []]]]]].
    + exists 2%nat. eapply depth_child; [reflexivity|].
      eapply depth_child; [reflexivity|]. now apply depth_root.
    + exists 0%nat. now apply depth_root.
    + exists 1%nat. eapply depth_child; [reflexivity|]. now apply depth_root.
    + exists 1%nat. eapply depth_child; [reflexivity|]. now apply depth_root.
    + exists 0%nat. now apply depth_root.
Qed.

Example two_trees_traversal :
  populate_heirarchial_tree Samples.two_trees = Ok [0; 1; 2; 3; 4]%nat.
Proof. vm_compute. reflexivity. Qed.

(** The theorem at the two trees. *)
Lemma traversal_order_witness :
  exists hl,
    populate_heirarchial_tree Samples.two_trees = Ok hl /\
    NoDup hl /\ hl ≡ₚ objects Samples.two_trees /\
    (forall a o, ancestor Samples.two_trees a o ->
                 o ∈ objects Samples.two_trees -> precedes hl a o) /\
    (forall extra,
        (forall x, x ∈ extra -> x ∈ objects Samples.two_trees) ->
        populate_from (S (length (objects Samples.two_trees))) Samples.two_trees
          (objects Samples.two_trees ++ extra) = Ok hl).
Proof. exact (traversal_order Samples.two_trees two_trees_forest). Defined.

End TreeFacts.

(** ** Importer: the alignment-correction pass *)

Module ImporterFacts.
Import Mathutils Kernel Importer.
Local Open Scope R_scope.

Lemma Int_part_IZR (z : Z) : Int_part (IZR z) = z.
Proof. symmetry. apply Int_part_spec. lra. Qed.

Lemma frac_part_IZR (z : Z) : frac_part (IZR z) = 0.
Proof. unfold frac_part. rewrite Int_part_IZR. ring. Qed.

Lemma Rround3_IZR (z : Z) : Rround3 (IZR z) = IZR z.
Proof.
  unfold Rround3, Rround_half_even.
  rewrite <- mult_IZR, frac_part_IZR, Int_part_IZR.
  destruct (decide (0 < 1 / 2)) as [_|H]; [|lra].
  rewrite mult_IZR. field.
Qed.

Lemma elem_of_warning (b : bool) :
  alignment_warning ∈ (if b then [alignment_warning] else []) <-> b = true.
Proof.
  destruct b; split; intros H; try reflexivity; try discriminate.
  - apply elem_of_cons. auto.
  - apply elem_of_nil in H. destruct H.
Qed.

(** A non-detached joint with a child pivot is adjusted and the loop goes
    on with the joints after it. *)
Lemma adjust_loop_step to_axis_angle joint_name rest st jd :
  ambf_data st !! joint_name = Some jd ->
  is_Some (jd_child_pivot jd) ->
  is_detached_joint jd = false ->
  adjust_loop to_axis_angle (joint_name :: rest) st
  = (st' ← adjust_joint to_axis_angle joint_name jd st;
     adjust_loop to_axis_angle rest st').
Proof.
  intros H1 H2 H3. cbn [adjust_loop]. rewrite H1. cbn [getitem].
  rewrite bind_Ok, bool_decide_eq_true_2 by exact H2. now rewrite H3.
Qed.

(** C7 (as the code has it).  For a child with mesh data the alignment-offset
    block returns.  It prints the warning exactly when the cross product of
    the rounded residual axis with the stored child axis is longer than 0.1
    and the residual angle exceeds 0.1 in magnitude.  For such an angle,
    warned or not, the child's data is turned about the canonical axis by
    the residual angle, negated exactly when a component of the rounded
    residual axis is negative, and that turn is recorded in front of
    [T_c_j]; for a smaller angle nothing is printed or changed.  A child
    without data (an empty) makes the block raise as soon as the angle
    exceeds 0.1.  The loop then goes on with the next joint. *)
Theorem alignment_offset_spec (d_axis_angle : Vector * R)
    (child_axis constraint_axis : Vector) (T_c_j : Matrix4)
    (ob : scene_object) (mesh : list Vector) :
  ob_data ob = Some mesh ->
  (exists ob' T out,
     alignment_offset d_axis_angle child_axis constraint_axis T_c_j ob
       = Ok (ob', T, out) /\
     (alignment_warning ∈ out <->
        1 / 10 < length (cross (round_vec d_axis_angle.1) child_axis) /\
        1 / 10 < Rabs d_axis_angle.2) /\
     (1 / 10 < Rabs d_axis_angle.2 ->
        ob_type ob' = ob_type ob /\
        ob_data ob' =
          Some (mapply4
                  (Rotation4
                     (if decide (vx (round_vec d_axis_angle.1) < 0 \/
                                 vy (round_vec d_axis_angle.1) < 0 \/
                                 vz (round_vec d_axis_angle.1) < 0)
                      then - d_axis_angle.2 else d_axis_angle.2)
                     constraint_axis) <$> mesh) /\
        T = Some (mmul4
                    (Rotation4
                       (if decide (vx (round_vec d_axis_angle.1) < 0 \/
                                   vy (round_vec d_axis_angle.1) < 0 \/
                                   vz (round_vec d_axis_angle.1) < 0)
                        then - d_axis_angle.2 else d_axis_angle.2)
                       constraint_axis) T_c_j)) /\
     (~ 1 / 10 < Rabs d_axis_angle.2 -> ob' = ob /\ T = None /\ out = [])) /\
  (forall empty : scene_object,
     ob_data empty = None -> 1 / 10 < Rabs d_axis_angle.2 ->
     alignment_offset d_axis_angle child_axis constraint_axis T_c_j empty
       = Raise (AttributeError "transform")) /\
  (forall to_axis_angle joint_name rest st jd,
     ambf_data st !! joint_name = Some jd ->
     is_Some (jd_child_pivot jd) ->
     is_detached_joint jd = false ->
     adjust_loop to_axis_angle (joint_name :: rest) st
     = (st' ← adjust_joint to_axis_angle joint_name jd st;
        adjust_loop to_axis_angle rest st')).
Proof.
  intros Hdata.
  destruct d_axis_angle as [d_axis d_angle]. unfold alignment_offset. cbn [fst snd].
  set (v := length (cross (round_vec d_axis) child_axis)).
  set (flip := decide (vx (round_vec d_axis) < 0 \/ vy (round_vec d_axis) < 0 \/
                       vz (round_vec d_axis) < 0)).
  assert (Habs : Rabs (if flip then - d_angle else d_angle) = Rabs d_angle).
  { destruct flip; [apply Rabs_Ropp | reflexivity]. }
  rewrite Habs.
  split; [|split; [|apply adjust_loop_step]].
  - destruct (decide (1 / 10 < Rabs d_angle)) as [Hbig|Hsmall].
    + unfold transform. rewrite Hdata, !bind_Ok.
      eexists _, _, _. split; [reflexivity|]. split; [|split].
      * destruct (decide (1 / 10 < v /\ 1 / 10 < Rabs d_angle)) as [H|H].
        -- split; [intros _; exact H | intros _; apply elem_of_cons; auto].
        -- split; [intros Hin; apply elem_of_nil in Hin; destruct Hin | tauto].
      * intros _. cbn [ob_type ob_data]. repeat split.
      * intros Hn. contradiction.
    + eexists _, _, _. split; [reflexivity|]. split; [|split].
      * destruct (decide (1 / 10 < v /\ 1 / 10 < Rabs d_angle)) as [H|H]; [tauto|].
        split; [intros Hin; apply elem_of_nil in Hin; destruct Hin | tauto].
      * intros H. contradiction.
      * intros _. split; [reflexivity|]. split; [reflexivity|].
        destruct (decide (1 / 10 < v /\ 1 / 10 < Rabs d_angle)) as [H|H];
          [tauto | reflexivity].
  - intros empty Hnone Hbig.
    destruct (decide (1 / 10 < Rabs d_angle)) as [_|Hn]; [|contradiction].
    unfold transform. now rewrite Hnone.
Qed.

Lemma round_vec_X : round_vec (Vec 1 0 0) = Vec 1 0 0.
Proof. unfold round_vec. cbn. now rewrite !Rround3_IZR. Qed.

Lemma round_vec_negX : round_vec (Vec (-1) 0 0) = Vec (-1) 0 0.
Proof. unfold round_vec. cbn. now rewrite !Rround3_IZR. Qed.

Lemma cross_X_Z_length : length (cross (Vec 1 0 0) (Vec 0 0 1)) = 1.
Proof.
  unfold length, cross, dot. cbn.
  replace ((0 * 1 - 0 * 0) * (0 * 1 - 0 * 0) + (0 * 0 - 1 * 1) * (0 * 0 - 1 * 1) +
           (1 * 0 - 0 * 0) * (1 * 0 - 0 * 0)) with 1 by ring.
  apply sqrt_1.
Qed.

Lemma cross_negX_Z_length : length (cross (Vec (-1) 0 0) (Vec 0 0 1)) = 1.
Proof.
  unfold length, cross, dot. cbn.
  replace ((0 * 1 - 0 * 0) * (0 * 1 - 0 * 0) + (0 * 0 - -1 * 1) * (0 * 0 - -1 * 1) +
           (-1 * 0 - 0 * 0) * (-1 * 0 - 0 * 0)) with 1 by ring.
  apply sqrt_1.
Qed.

(** The theorem at the sample cube with a residual of 0.5 rad about -X: the
    rounded axis has a negative component, so the cube is turned by -0.5 rad
    about the canonical axis Z; the axis is not parallel to Z, so the
    warning is printed as well. *)
Lemma alignment_offset_spec_witness :
  exists ob' T out,
    alignment_offset (Vec (-1) 0 0, 1 / 2) (Vec 0 0 1) (Vec 0 0 1) Identity4 Samples.cube
      = Ok (ob', T, out) /\
    ob_data ob' =
      Some (mapply4 (Rotation4 (- (1 / 2)) (Vec 0 0 1))
              <$> [Vec 1 1 1; Vec (-1) (-1) (-1)]) /\
    T = Some (mmul4 (Rotation4 (- (1 / 2)) (Vec 0 0 1)) Identity4) /\
    alignment_warning ∈ out.
Proof.
  destruct (alignment_offset_spec (Vec (-1) 0 0, 1 / 2) (Vec 0 0 1) (Vec 0 0 1)
              Identity4 Samples.cube _ eq_refl)
    as [(ob' & T & out & Hrun & Hwarn & Hbig & _) _].
  cbn [fst snd] in Hwarn, Hbig.
  assert (Habs : 1 / 10 < Rabs (1 / 2)) by (rewrite Rabs_right; lra).
  destruct (Hbig Habs) as (_ & Hdata & HT).
  rewrite round_vec_negX in Hdata, HT, Hwarn. cbn [vx vy vz] in Hdata, HT.
  destruct (decide (-1 < 0 \/ 0 < 0 \/ 0 < 0)) as [_|Hn]; [|exfalso; apply Hn; lra].
  exists ob', T, out. split; [exact Hrun|]. split; [exact Hdata|]. split; [exact HT|].
  apply Hwarn. rewrite cross_negX_Z_length. split; [lra | exact Habs].
Defined.

(** C7, counterexample.  The identity residual comes out of the quaternion
    as the axis X with angle 0.  Against the joint axis Z its cross product
    has length 1, yet nothing is printed and no correction is applied. *)
Lemma no_warning_for_small_angle :
  ~ warns_whenever_not_parallel (Vec 1 0 0, 0) (Vec 0 0 1) (Vec 0 0 1)
      Identity4 Samples.cube.
Proof.
  unfold warns_whenever_not_parallel. cbn [fst snd]. intros H.
  destruct H as (ob & T & out & Hrun & _).
  { rewrite round_vec_X, cross_X_Z_length. lra. }
  unfold alignment_offset in Hrun. cbn [fst snd] in Hrun.
  destruct (decide (vx (round_vec (Vec 1 0 0)) < 0 \/
                    vy (round_vec (Vec 1 0 0)) < 0 \/
                    vz (round_vec (Vec 1 0 0)) < 0)) as [_|_].
  - rewrite Ropp_0, Rabs_R0 in Hrun.
    destruct (decide (1 / 10 < 0)) as [Hlt|_]; [lra|].
    discriminate Hrun.
  - rewrite Rabs_R0 in Hrun.
    destruct (decide (1 / 10 < 0)) as [Hlt|_]; [lra|].
    discriminate Hrun.
Qed.

Lemma standard_pivot_zero (jd : joint_data) (p a : Exporter.xyz) :
  get_standard_pivot_and_axis_data jd = Ok (p, a) -> p = Exporter.XYZ 0 0 0.
Proof.
  unfold get_standard_pivot_and_axis_data.
  destruct (jd_type jd); cbn; [|discriminate]. now intros [= <- _].
Qed.

(** Where [adjust_joint] returns, the joint's child pivot in the document
    is the standard pivot and the child body has its entry in
    [_body_T_j_c]. *)
Lemma adjust_joint_Ok to_axis_angle joint_name jd st st' :
  adjust_joint to_axis_angle joint_name jd st = Ok st' ->
  exists jd',
    ambf_data st' !! joint_name = Some jd' /\
    jd_child_pivot jd' = Some (Exporter.XYZ 0 0 0) /\
    is_Some (body_T_j_c st' !! jd_child jd).
Proof.
  unfold adjust_joint.
  destruct (get_parent_pivot_and_axis_data jd) as [pp pa].
  destruct (get_child_pivot_and_axis_data jd) as [cp ca].
  destruct (getitem (jd_child jd) (blender_remapped_body_names st !! jd_child jd))
    as [remapped|]; [rewrite bind_Ok | discriminate].
  destruct (getitem remapped (bpy_objects st !! remapped))
    as [child|]; [rewrite bind_Ok | discriminate].
  destruct (get_standard_pivot_and_axis_data jd) as [[sp sa]|] eqn:Estd;
    [rewrite bind_Ok | discriminate].
  apply standard_pivot_zero in Estd as ->.
  repeat match goal with
    | |- (?m ≫= _) = Ok _ -> _ =>
        let E := fresh "E" in
        destruct m as [?|?] eqn:E; [rewrite bind_Ok | discriminate]
    | |- (let '(_, _) := ?p in _) = Ok _ -> _ => destruct p
    end.
  intros [= <-]. cbn. eexists. rewrite lookup_insert_eq.
  split; [reflexivity|]. split; [reflexivity|].
  rewrite lookup_insert_eq. eauto.
Qed.

Lemma loop_first_lookup :
  ambf_data Samples.loop_first !! "JOINT loop"%string = Some Samples.loop_joint.
Proof. apply lookup_insert_eq. Qed.

(** C2 at a document that lists a detached joint first.  The pass returns at
    the detached joint: the document, the body corrections and the objects
    stay as loaded, so the revolute joint after it, which is not detached and
    has a child pivot, keeps its stored pivot (1, 0, 0); and [execute] goes
    on to create the joints from that state.  With the revolute joint alone
    in front, a pass that returns has set its pivot to the standard one. *)
Theorem adjust_stops_at_detached_joint
    (to_axis_angle : Matrix4 -> Vector * R)
    (load_body load_blender_joint load_ambf_joint : string -> loader -> result loader) :
  adjust_body_pivots_and_axis to_axis_angle Samples.loop_first
    = Ok (print (detached_info "JOINT loop") Samples.loop_first) /\
  (exists jd,
     ambf_data (print (detached_info "JOINT loop") Samples.loop_first)
       !! "JOINT a-b"%string = Some jd /\
     is_detached_joint jd = false /\
     jd_child_pivot jd = Some (Exporter.XYZ 1 0 0) /\
     body_T_j_c (print (detached_info "JOINT loop") Samples.loop_first)
       !! jd_child jd = Some Identity4) /\
  execute to_axis_angle load_body load_blender_joint load_ambf_joint
      true true [] Samples.loop_first
    = for_each load_blender_joint ["JOINT loop"; "JOINT a-b"]%string
        (print (detached_info "JOINT loop") Samples.loop_first) /\
  (forall st st',
     ambf_data st !! "JOINT a-b"%string = Some Samples.revolute_joint ->
     adjust_loop to_axis_angle ["JOINT a-b"]%string st = Ok st' ->
     exists jd,
       ambf_data st' !! "JOINT a-b"%string = Some jd /\
       jd_child_pivot jd = Some (Exporter.XYZ 0 0 0)).
Proof.
  assert (Hpass : adjust_body_pivots_and_axis to_axis_angle Samples.loop_first
                  = Ok (print (detached_info "JOINT loop") Samples.loop_first)).
  { unfold adjust_body_pivots_and_axis. cbn [joints Samples.loop_first adjust_loop].
    rewrite loop_first_lookup. reflexivity. }
  split; [exact Hpass|]. split; [|split].
  - exists Samples.revolute_joint. split.
    + cbn [print ambf_data Samples.loop_first].
      rewrite lookup_insert_ne by discriminate. apply lookup_insert_eq.
    + split; [reflexivity|]. split; [reflexivity|].
      cbn [print body_T_j_c Samples.loop_first jd_child Samples.revolute_joint].
      rewrite lookup_insert_ne by discriminate. apply lookup_insert_eq.
  - unfold execute. cbn [for_each andb]. rewrite bind_Ok, Hpass, bind_Ok.
    reflexivity.
  - intros st st' Hlook Hrun.
    rewrite (adjust_loop_step _ _ _ _ Samples.revolute_joint)
      in Hrun; [|exact Hlook|cbn; eauto|reflexivity].
    destruct (adjust_joint to_axis_angle "JOINT a-b" Samples.revolute_joint st)
      as [st1|e] eqn:E; [|discriminate].
    rewrite bind_Ok in Hrun. cbn in Hrun. injection Hrun as <-.
    destruct (adjust_joint_Ok _ _ _ _ _ E) as (jd & H1 & H2 & _).
    eauto.
Qed.

End ImporterFacts.

(** ** Geometry kernel: what the rotations do to the vectors *)

Module KernelMore.
Import Mathutils Kernel.
Local Open Scope R_scope.

Lemma mapply_Identity3 (w : Vector) : mapply Identity3 w = w.
Proof. destruct w as [x y z]. unfold mapply, dot, Identity3; cbn. f_equal; ring. Qed.

Lemma mapply_madd (a b : Matrix3) (w : Vector) :
  mapply (madd a b) w = vadd (mapply a w) (mapply b w).
Proof.
  destruct a as [[] [] []], b as [[] [] []], w.
  unfold mapply, madd, vadd, dot; cbn. f_equal; ring.
Qed.

Lemma mapply_mscale (a : Matrix3) (k : R) (w : Vector) :
  mapply (mscale a k) w = vscale k (mapply a w).
Proof.
  destruct a as [[] [] []], w.
  unfold mapply, mscale, vscale, dot; cbn. f_equal; ring.
Qed.

Lemma mapply_mmul (a b : Matrix3) (w : Vector) :
  mapply (mmul a b) w = mapply a (mapply b w).
Proof.
  destruct a as [[] [] []], b as [[] [] []], w.
  unfold mapply, mmul, mrow, col, dot; cbn. f_equal; ring.
Qed.

(** X1.  [skew_mat v] is the matrix of the cross product with [v]: applied
    to any vector [w] it gives [v x w]. *)
Theorem skew_mat_is_cross (v w : Vector) : mapply (skew_mat v) w = cross v w.
Proof.
  destruct v as [x y z], w as [p q r].
  unfold mapply, skew_mat, cross, dot; cbn. f_equal; ring.
Qed.

(** The vector triple product, twice. *)
Lemma cross_cross_self (a b : Vector) :
  cross (cross a b) a = vadd (vscale (dot a a) b) (vscale (- dot a b) a).
Proof.
  destruct a, b. unfold cross, vadd, vscale, dot; cbn. f_equal; ring.
Qed.

Lemma cross_cross_cross (a b : Vector) :
  cross (cross a b) (cross (cross a b) a)
  = vscale (- dot (cross a b) (cross a b)) a.
Proof.
  destruct a, b. unfold cross, vadd, vscale, dot; cbn. f_equal; ring.
Qed.

Lemma cross_norm_unit (a b : Vector) :
  unit a -> unit b -> dot (cross a b) (cross a b) = 1 - dot a b ^ 2.
Proof.
  intros Ha Hb. rewrite KernelFacts.cross_dot_cross.
  unfold unit in Ha, Hb. rewrite Ha, Hb. ring.
Qed.

(** X2.  For unit vectors whose dot product lies in [-0.9, 0.9] the kernel
    returns, and the matrix it returns takes [a] to [b]. *)
Theorem rot_matrix_from_vecs_maps (a b : Vector) :
  unit a -> unit b -> - 9 / 10 <= dot a b <= 9 / 10 ->
  exists m, rot_matrix_from_vecs a b = Ok m /\ mapply m a = b.
Proof.
  intros Ha Hb [Hlo Hhi].
  pose proof (cross_norm_unit a b Ha Hb) as Hn.
  assert (Hne : vec_norm (cross a b) ^ 2 <> 0).
  { rewrite KernelFacts.vec_norm_sq, Hn. nra. }
  unfold rot_matrix_from_vecs.
  rewrite (KernelFacts.angle_unit a b Ha Hb), bind_Ok.
  destruct (decide (1 - dot a b < 1 / 10)); [lra|].
  destruct (decide (1 + dot a b < 1 / 10)); [lra|].
  unfold fdiv. destruct (decide (vec_norm (cross a b) ^ 2 = 0)); [contradiction|].
  rewrite bind_Ok. eexists. split; [reflexivity|].
  rewrite !mapply_madd, mapply_mscale, mapply_mmul, mapply_Identity3.
  rewrite !skew_mat_is_cross, cross_cross_cross, cross_cross_self.
  rewrite KernelFacts.vec_norm_sq, Hn. unfold unit in Ha. rewrite Ha.
  set (d := dot a b) in *.
  assert (Hd : 1 - d * d <> 0) by nra.
  clearbody d. destruct a as [a1 a2 a3], b as [b1 b2 b3].
  unfold vadd, vscale; cbn. f_equal; field; exact Hd.
Qed.

(** The theorem at the pair X, Y. *)
Lemma rot_matrix_from_vecs_maps_witness :
  exists m, rot_matrix_from_vecs (Vec 1 0 0) (Vec 0 1 0) = Ok m /\
            mapply m (Vec 1 0 0) = Vec 0 1 0.
Proof.
  apply (rot_matrix_from_vecs_maps (Vec 1 0 0) (Vec 0 1 0));
    unfold unit, dot; cbn; lra.
Defined.

Lemma PI_lower : 313 / 100 < PI.
Proof.
  pose proof (PI_2_3_7_ineq 0) as [H _].
  unfold PI_2_3_7_tg, tg_alt, Ratan_seq in H. simpl in H. lra.
Qed.

(** Rodrigues' formula for [Matrix.Rotation] about an axis of length [l]. *)
Lemma Rotation3_apply (theta : R) (ax w : Vector) :
  length ax <> 0 ->
  mapply (Rotation3 theta ax) w
  = vadd (vadd (vscale (cos theta) w)
               (vscale (sin theta / length ax) (cross ax w)))
         (vscale ((1 - cos theta) * dot ax w / (length ax * length ax)) ax).
Proof.
  intros Hl. unfold Rotation3.
  destruct (decide (length ax = 0)); [contradiction|].
  revert Hl. generalize (length ax) as l. intros l Hl.
  destruct ax as [x y z], w as [p q r].
  unfold mapply, vadd, vscale, cross, dot; cbn. f_equal; field; exact Hl.
Qed.

Lemma dot_cross_self (a b : Vector) : dot (cross a b) a = 0.
Proof. destruct a, b. unfold dot, cross; cbn. ring. Qed.

(** X3.  For unit vectors whose angle lies strictly between 0.1 and 3.13 rad
    the importer's variant returns the angle between them and a matrix
    without translation whose rotation takes [a] to [b]. *)
Theorem get_rot_mat_from_vecs_maps (a b : Vector) :
  unit a -> unit b ->
  1 / 10 < Rabs (acos (dot a b)) < 313 / 100 ->
  exists m,
    get_rot_mat_from_vecs a b = Ok (m, acos (dot a b)) /\
    translation m = Vec 0 0 0 /\
    mapply (block m) a = b.
Proof.
  intros Ha Hb [Hlo Hhi].
  pose proof (cross_norm_unit a b Ha Hb) as Hn.
  set (d := dot a b) in *.
  assert (Hsq : 0 <= dot (cross a b) (cross a b)).
  { destruct (cross a b) as [x y z]. unfold dot; cbn. nra. }
  assert (Hd1 : d <> 1).
  { intros E. rewrite E, acos_1, Rabs_R0 in Hlo. lra. }
  assert (Hd2 : d <> -1).
  { intros E. rewrite E in Hhi.
    replace (-1) with (- (1)) in Hhi by ring.
    rewrite acos_opp, acos_1, Rminus_0_r in Hhi.
    pose proof PI_lower. rewrite Rabs_right in Hhi by lra. lra. }
  assert (Hrange : -1 < d < 1) by nra.
  assert (Hpos : 0 < 1 - d ^ 2) by nra.
  assert (Hlen : length (cross a b) = sqrt (1 - d ^ 2)).
  { unfold length. now rewrite Hn. }
  assert (Hl0 : length (cross a b) <> 0).
  { rewrite Hlen. pose proof (sqrt_lt_R0 _ Hpos). lra. }
  assert (Hsin : sin (acos d) = length (cross a b)).
  { rewrite sin_acos by lra. rewrite Hlen. f_equal. unfold Rsqr. ring. }
  assert (Hcos : cos (acos d) = d) by (apply cos_acos; lra).
  unfold get_rot_mat_from_vecs.
  rewrite (KernelFacts.angle_unit a b Ha Hb), bind_Ok. fold d.
  destruct (decide (Rabs (acos d) <= 1 / 10)); [lra|].
  destruct (decide (313 / 100 <= Rabs (acos d))); [lra|].
  rewrite !bind_Ok. eexists. split; [reflexivity|]. split; [reflexivity|].
  cbn [block Rotation4].
  rewrite (Rotation3_apply _ _ _ Hl0), Hsin, Hcos, dot_cross_self, cross_cross_self.
  fold d. unfold unit in Ha. rewrite Ha.
  revert Hl0. generalize (length (cross a b)) as l. intros l Hl0.
  clearbody d. destruct a as [a1 a2 a3], b as [b1 b2 b3].
  unfold vadd, vscale; cbn. f_equal; field; exact Hl0.
Qed.

(** The theorem at the pair X, Y. *)
Lemma get_rot_mat_from_vecs_maps_witness :
  exists m,
    get_rot_mat_from_vecs (Vec 1 0 0) (Vec 0 1 0)
      = Ok (m, acos (dot (Vec 1 0 0) (Vec 0 1 0))) /\
    translation m = Vec 0 0 0 /\
    mapply (block m) (Vec 1 0 0) = Vec 0 1 0.
Proof.
  apply (get_rot_mat_from_vecs_maps (Vec 1 0 0) (Vec 0 1 0)).
  - unfold unit, dot; cbn; lra.
  - unfold unit, dot; cbn; lra.
  - replace (dot (Vec 1 0 0) (Vec 0 1 0)) with 0 by (unfold dot; cbn; ring).
    rewrite acos_0. pose proof PI2_1. pose proof PI_4.
    rewrite Rabs_right by lra. lra.
Defined.


Lemma angle_cases (a b : Vector) :
  (dot a a <> 0 /\ dot b b <> 0 /\ exists t, angle a b = Ok t) \/
  ((dot a a = 0 \/ dot b b = 0) /\ angle a b = Raise ValueError).
Proof.
  unfold angle.
  destruct (decide (dot a a = 0)) as [Ha|Ha]; [right; split; [now left | reflexivity]|].
  destruct (decide (dot b b = 0)) as [Hb|Hb]; [right; split; [now right | reflexivity]|].
  left. repeat split; try assumption. eexists; reflexivity.
Qed.

Lemma dot_nx : dot nx nx <> 0.
Proof. unfold dot, nx. cbn. lra. Qed.

(** X26. [get_rot_mat_from_vecs] returns for every pair of vectors that are
    both non-zero (the reference axes of its degenerate branch are never
    zero), and raises [ValueError] as soon as one of them is zero. *)
Theorem get_rot_mat_from_vecs_total (a b : Vector) :
  (dot a a <> 0 -> dot b b <> 0 ->
   exists m ang, get_rot_mat_from_vecs a b = Ok (m, ang) /\ angle a b = Ok ang) /\
  (dot a a = 0 \/ dot b b = 0 -> get_rot_mat_from_vecs a b = Raise ValueError).
Proof.
  unfold get_rot_mat_from_vecs. split.
  - intros Ha Hb.
    destruct (angle_cases a b) as [(_ & _ & t & Ht) | ([H | H] & _)];
      [|contradiction ..].
    rewrite Ht, bind_Ok. exists (Rotation4 t
      (if decide (Rabs t <= 1 / 10) then Vec 0 1 0
       else if decide (313 / 100 <= Rabs t) then
         match angle a nx with
         | Ok temp_ang =>
             if decide (1 / 10 < Rabs temp_ang /\ Rabs temp_ang < 313 / 100)
             then cross a nx else cross a ny
         | Raise _ => Vec 0 0 0
         end
       else cross a b)), t.
    split; [|reflexivity].
    destruct (decide (Rabs t <= 1 / 10)); [reflexivity|].
    destruct (decide (313 / 100 <= Rabs t)); [|reflexivity].
    destruct (angle_cases a nx) as [(_ & _ & u & Hu) | ([H | H] & _)];
      [|contradiction | now destruct dot_nx].
    rewrite Hu, bind_Ok.
    destruct (decide (1 / 10 < Rabs u /\ Rabs u < 313 / 100)); reflexivity.
  - intros H. destruct (angle_cases a b) as [(Ha & Hb & _) | (_ & ->)];
      [tauto | reflexivity].
Qed.

(** X27. On vectors that are not unit vectors [rot_matrix_from_vecs] can
    divide by zero: for two non-zero parallel vectors whose dot product lies
    in [-0.9, 0.9] (both tests on the dot product fail) the cross product
    is zero and the function raises [ZeroDivisionError]. *)
Theorem rot_matrix_from_vecs_parallel (a b : Vector) :
  dot a a <> 0 -> dot b b <> 0 ->
  cross a b = Vec 0 0 0 ->
  - 9 / 10 <= dot a b <= 9 / 10 ->
  rot_matrix_from_vecs a b = Raise ZeroDivisionError.
Proof.
  intros Ha Hb Hc Hd. unfold rot_matrix_from_vecs.
  destruct (angle_cases a b) as [(_ & _ & t & Ht) | ([H | H] & _)];
    [|contradiction ..].
  rewrite Ht, bind_Ok.
  destruct (decide (1 - dot a b < 1 / 10)) as [H|_]; [lra|].
  destruct (decide (1 + dot a b < 1 / 10)) as [H|_]; [lra|].
  rewrite Hc. unfold fdiv.
  destruct (decide (vec_norm (Vec 0 0 0) ^ 2 = 0)) as [_|H]; [reflexivity|].
  exfalso. apply H. rewrite KernelFacts.vec_norm_sq. unfold dot. cbn. ring.
Qed.

Lemma rot_matrix_from_vecs_parallel_witness :
  rot_matrix_from_vecs (Vec (1 / 2) 0 0) (Vec (1 / 2) 0 0) = Raise ZeroDivisionError.
Proof.
  apply (rot_matrix_from_vecs_parallel (Vec (1 / 2) 0 0) (Vec (1 / 2) 0 0));
    unfold dot, cross; cbn [vx vy vz]; try lra.
  f_equal; ring.
Defined.

End KernelMore.

(** ** Names *)

Module NamesFacts.
Import Names.
Local Open Scope string_scope.

Lemma app_cons (a : Ascii.ascii) (s t : string) :
  String a s ++ t = String a (s ++ t).
Proof. reflexivity. Qed.

Lemma app_nil_l (t : string) : EmptyString ++ t = t.
Proof. reflexivity. Qed.

Lemma take_drop (n : nat) (s : string) : take n s ++ drop n s = s.
Proof.
  revert s; induction n as [|n IH]; intros [|a s]; cbn [take drop];
    rewrite ?app_cons, ?app_nil_l; try reflexivity.
  now rewrite IH.
Qed.

Lemma drop_nil (k : nat) : drop k EmptyString = EmptyString.
Proof. now destruct k. Qed.

Lemma drop_app (a b : string) (k : nat) :
  drop (String.length a + k) (a ++ b) = drop k b.
Proof.
  induction a as [|c a IH]; rewrite ?app_cons, ?app_nil_l; cbn;
    [reflexivity | exact IH].
Qed.

Lemma take_app (a b : string) : take (String.length a) (a ++ b) = a.
Proof.
  induction a as [|c a IH]; rewrite ?app_cons, ?app_nil_l; cbn;
    [now destruct b | now rewrite IH].
Qed.

Lemma length_app (a b : string) :
  String.length (a ++ b) = (String.length a + String.length b)%nat.
Proof.
  induction a as [|c a IH]; rewrite ?app_cons, ?app_nil_l; cbn;
    [reflexivity | now rewrite IH].
Qed.

(** [sub] is not found exactly when it starts at no position. *)
Lemma rfind_from_None (sub s : string) :
  rfind_from sub s = None <->
  forall k, (k <= String.length s)%nat -> String.prefix sub (drop k s) = false.
Proof.
  induction s as [|a s IH].
  - cbn [rfind_from]. split.
    + intros H k _. rewrite drop_nil.
      destruct (String.prefix sub EmptyString); [discriminate | reflexivity].
    + intros H. specialize (H 0%nat (Nat.le_refl _)). cbn [drop] in H.
      now rewrite H.
  - cbn [rfind_from]. destruct (rfind_from sub s) as [j|] eqn:E.
    + split; [discriminate|]. intros H. exfalso.
      assert (Hn : Some j = None).
      { apply IH. intros k Hk. apply (H (S k)). cbn. lia. }
      discriminate.
    + split.
      * intros H [|k] Hk.
        -- cbn [drop]. destruct (String.prefix sub (String a s));
             [discriminate | reflexivity].
        -- cbn [drop]. apply IH; [reflexivity | cbn in Hk; lia].
      * intros H. specialize (H 0%nat (Nat.le_0_l _)). cbn [drop] in H.
        now rewrite H.
Qed.

(** [rfind] returns the last position at which [sub] starts. *)
Lemma rfind_from_Some (sub s : string) (i : nat) :
  rfind_from sub s = Some i <->
  (i <= String.length s)%nat /\ String.prefix sub (drop i s) = true /\
  forall k, (i < k <= String.length s)%nat ->
            String.prefix sub (drop k s) = false.
Proof.
  revert i; induction s as [|a s IH]; intros i.
  - cbn [rfind_from String.length]. split.
    + destruct (String.prefix sub EmptyString) eqn:E; [|discriminate].
      intros [= <-]. cbn [drop]. repeat split; [lia | exact E | intros; lia].
    + intros (Hi & Hp & _). rewrite drop_nil in Hp. rewrite Hp.
      f_equal; lia.
  - cbn [rfind_from]. destruct (rfind_from sub s) as [j|] eqn:E.
    + destruct (proj1 (IH j) eq_refl) as (Hj & Hpj & Hlast). split.
      * intros [= <-]. cbn [drop String.length]. repeat split; [lia | exact Hpj |].
        intros [|k] Hk; [lia|]. cbn [drop]. apply Hlast. cbn in Hk. lia.
      * intros (Hi & Hp & Hl). destruct i as [|i].
        -- specialize (Hl (S j)). cbn [drop String.length] in Hl.
           rewrite Hl in Hpj; [discriminate | lia].
        -- cbn [drop String.length] in Hp, Hi.
           assert (Hs : Some j = Some i).
           { apply IH. repeat split; [lia | exact Hp |].
             intros k Hk. apply (Hl (S k)). cbn. lia. }
           congruence.
    + pose proof (proj1 (rfind_from_None sub s) E) as Hnone. split.
      * destruct (String.prefix sub (String a s)) eqn:Ep; [|discriminate].
        intros [= <-]. cbn [drop]. repeat split; [lia | exact Ep |].
        intros [|k] Hk; [lia|]. cbn [drop]. apply Hnone. cbn in Hk. lia.
      * intros (Hi & Hp & Hl). destruct i as [|i].
        -- cbn [drop] in Hp. now rewrite Hp.
        -- cbn [drop String.length] in Hp, Hi. rewrite Hnone in Hp;
             [discriminate | lia].
Qed.

Lemma rfind_from_length (sub s : string) (i : nat) :
  rfind_from sub s = Some i -> (i <= String.length s)%nat.
Proof. intros H. now apply rfind_from_Some in H. Qed.

Lemma drop_all (n : nat) (t : string) :
  (String.length t <= n)%nat -> drop n t = EmptyString.
Proof.
  revert t; induction n as [|n IH]; intros [|a t] Hn; cbn in *;
    try reflexivity; try lia.
  apply IH. lia.
Qed.

(** A found slash lies inside the string. *)
Lemma rfind_slash_lt (s : string) (i : nat) :
  rfind_from slash s = Some i -> (i < String.length s)%nat.
Proof.
  intros H. apply rfind_from_Some in H. destruct H as (Hi & Hp & _).
  destruct (decide (i = String.length s)) as [->|]; [|lia].
  rewrite drop_all in Hp by lia. discriminate.
Qed.

(** Nothing is found behind the last occurrence. *)
Lemma rfind_from_after (sub s : string) (i : nat) :
  sub <> EmptyString -> rfind_from sub s = Some i ->
  rfind_from sub (drop (S i) s) = None.
Proof.
  intros Hsub H. apply rfind_from_Some in H. destruct H as (Hi & _ & Hl).
  apply rfind_from_None. intros k Hk.
  destruct (decide (S i <= String.length s)%nat) as [Hin|Hout].
  - assert (Hd : forall n t, drop k (drop n t) = drop (n + k) t).
    { clear. intros n; induction n as [|n IH]; intros [|a t]; cbn;
        try reflexivity; [now rewrite drop_nil | apply IH]. }
    rewrite Hd. apply Hl.
    assert (Hlen : forall n t, (n <= String.length t)%nat ->
                     String.length (drop n t) = (String.length t - n)%nat).
    { clear. intros n; induction n as [|n IH]; intros [|a t] Hn; cbn in *;
        try reflexivity; try lia. apply IH. lia. }
    rewrite Hlen in Hk by exact Hin. lia.
  - rewrite (drop_all (S i) s) by lia. rewrite drop_nil.
    destruct sub; [congruence | reflexivity].
Qed.

Lemma last_char_app (s : string) (c : Ascii.ascii) :
  last_char (s ++ String c EmptyString) = Ok c.
Proof.
  induction s as [|a s IH]; rewrite ?app_cons, ?app_nil_l; cbn [last_char];
    [reflexivity|].
  destruct (s ++ String c EmptyString) eqn:E; [|exact IH].
  destruct s; discriminate.
Qed.

Lemma last_char_inv (s : string) (c : Ascii.ascii) :
  last_char s = Ok c -> exists pre, s = pre ++ String c EmptyString.
Proof.
  induction s as [|a s IH]; cbn [last_char]; [discriminate|].
  destruct s as [|b s].
  - intros [= <-]. now exists EmptyString.
  - intros H. destruct (IH H) as [pre ->]. now exists (String a pre).
Qed.

Lemma last_char_Ok (s : string) :
  s <> EmptyString -> exists c, last_char s = Ok c.
Proof.
  induction s as [|a s IH]; [congruence|]. intros _.
  destruct s as [|b s]; [now exists a|].
  destruct IH as [c Hc]; [discriminate|]. exists c. exact Hc.
Qed.

(** The position of the slash that ends a namespace put before a name
    without slashes. *)
Lemma rfind_prefixed (pre name : string) :
  rfind_from slash name = None ->
  rfind_from slash (pre ++ slash ++ name) = Some (String.length pre).
Proof.
  intros Hn. apply rfind_from_Some. repeat split.
  - rewrite length_app. lia.
  - replace (String.length pre) with (String.length pre + 0)%nat by lia.
    rewrite drop_app. cbn [drop]. unfold slash. rewrite app_cons, app_nil_l.
    now destruct name.
  - intros k Hk.
    replace k with (String.length pre + S (k - S (String.length pre)))%nat by lia.
    rewrite drop_app. unfold slash at 2. rewrite app_cons, app_nil_l.
    cbn [drop].
    apply (proj1 (rfind_from_None slash name) Hn).
    rewrite !length_app in Hk. unfold slash in Hk. cbn [String.length] in Hk. lia.
Qed.

Lemma slice_to_nat (s : string) (i : nat) :
  slice_to s (Z.of_nat i + 1) = take (S i) s.
Proof.
  unfold slice_to, bound.
  destruct (Z.ltb_spec (Z.of_nat i + 1) 0); [lia|].
  f_equal. lia.
Qed.

Lemma slice_from_nat (s : string) (i : nat) :
  slice_from s (Z.of_nat i + 1) = drop (S i) s.
Proof.
  unfold slice_from, bound.
  destruct (Z.ltb_spec (Z.of_nat i + 1) 0); [lia|].
  f_equal. lia.
Qed.

Lemma rfind_cases (s sub : string) :
  (rfind s sub = (-1)%Z /\ rfind_from sub s = None) \/
  (exists i, rfind s sub = Z.of_nat i /\ rfind_from sub s = Some i).
Proof.
  unfold rfind. destruct (rfind_from sub s) as [i|]; [right; now exists i | now left].
Qed.


Lemma rfind_zero (s sub : string) :
  rfind s sub = 0%Z <->
  String.prefix sub s = true /\
  forall k, (0 < k <= String.length s)%nat -> String.prefix sub (drop k s) = false.
Proof.
  destruct (rfind_cases s sub) as [[E F]|(i & E & F)]; rewrite E.
  - split; [lia|]. intros [Hp _].
    pose proof (proj1 (rfind_from_None sub s) F 0%nat (Nat.le_0_l _)) as H.
    cbn [drop] in H. congruence.
  - split.
    + intros Hi. assert (i = 0%nat) as -> by lia.
      apply rfind_from_Some in F. destruct F as (_ & Hp & Hl). now split.
    + intros [Hp Hl].
      assert (H0 : rfind_from sub s = Some 0%nat).
      { apply rfind_from_Some. repeat split; [lia | exact Hp | exact Hl]. }
      assert (i = 0%nat) by congruence. lia.
Qed.

Lemma prefix_slash (n : string) :
  String.prefix slash n = true -> exists t, n = String slash_char t.
Proof.
  destruct n as [|a t]; [discriminate|]. unfold slash. cbn [String.prefix].
  destruct (Ascii.ascii_dec _ a) as [<-|]; [|discriminate].
  intros _. now exists t.
Qed.

Lemma take_nonempty (i : nat) (n : string) :
  n <> EmptyString -> String.eqb (take (S i) n) EmptyString = false.
Proof. destruct n; [congruence | reflexivity]. Qed.

(** X4. A name whose last slash is not its first character splits into
    namespace and local name: the two parts put together give the name back,
    the local name holds no slash, and the namespace is empty exactly when
    the name holds no slash. *)
Theorem namespace_split (n : string) :
  rfind n slash <> 0%Z ->
  get_body_namespace n ++ remove_namespace_prefix n = n /\
  rfind (remove_namespace_prefix n) slash = (-1)%Z /\
  (get_body_namespace n = EmptyString <-> rfind n slash = (-1)%Z).
Proof.
  intros H0. unfold get_body_namespace, remove_namespace_prefix.
  destruct (rfind_cases n slash) as [[E F]|(i & E & F)]; rewrite E in *.
  - cbn. rewrite E. repeat split.
  - destruct (Z.geb_spec (Z.of_nat i) 0); [|lia].
    destruct (Z.gtb_spec (Z.of_nat i) 0); [|lia].
    rewrite slice_to_nat, slice_from_nat. split; [apply take_drop|]. split.
    + unfold rfind. rewrite (rfind_from_after slash n i); [reflexivity | discriminate | exact F].
    + pose proof (rfind_slash_lt n i F) as Hlt.
      destruct n; [cbn in Hlt; lia|]. cbn [take]. split; [discriminate | lia].
Qed.

Lemma namespace_split_witness :
  rfind "/ambf/env/Cube" slash <> 0%Z /\
  get_body_namespace "/ambf/env/Cube" ++ remove_namespace_prefix "/ambf/env/Cube"
    = "/ambf/env/Cube" /\
  rfind (remove_namespace_prefix "/ambf/env/Cube") slash = (-1)%Z /\
  (get_body_namespace "/ambf/env/Cube" = EmptyString <->
   rfind "/ambf/env/Cube" slash = (-1)%Z).
Proof.
  split; [vm_compute; discriminate|].
  apply (namespace_split "/ambf/env/Cube"). vm_compute; discriminate.
Defined.

(** X5. A name whose only slash is its first character is not split: the
    namespace is the slash, the local name is still the whole name (slash
    included), so the two parts do not give the name back. *)
Theorem namespace_split_leading_slash (n : string) :
  rfind n slash = 0%Z ->
  get_body_namespace n = slash /\ remove_namespace_prefix n = n /\
  get_body_namespace n ++ remove_namespace_prefix n <> n.
Proof.
  intros H0. unfold get_body_namespace, remove_namespace_prefix. rewrite H0.
  cbn [Z.geb Z.gtb Z.compare]. rewrite (slice_to_nat n 0 : slice_to n (0 + 1) = _).
  apply rfind_zero in H0. destruct H0 as [Hp _].
  destruct (prefix_slash n Hp) as [t ->]. cbn [take].
  split; [reflexivity|]. split; [reflexivity|].
  intros H. apply (f_equal String.length) in H.
  rewrite length_app in H. cbn in H. lia.
Qed.

Lemma namespace_split_leading_slash_witness :
  rfind "/Cube" slash = 0%Z /\
  get_body_namespace "/Cube" = slash /\ remove_namespace_prefix "/Cube" = "/Cube" /\
  get_body_namespace "/Cube" ++ remove_namespace_prefix "/Cube" <> "/Cube".
Proof.
  split; [reflexivity|]. apply (namespace_split_leading_slash "/Cube"). reflexivity.
Defined.

Lemma rfind_added (namespace name : string) :
  last_char namespace = Ok slash_char ->
  rfind name slash = (-1)%Z ->
  exists pre, namespace = pre ++ slash /\
    rfind_from slash (namespace ++ name) = Some (String.length pre).
Proof.
  intros Hl Hn. destruct (last_char_inv _ _ Hl) as [pre ->]. exists pre.
  split; [reflexivity|].
  assert (F : rfind_from slash name = None).
  { destruct (rfind_cases name slash) as [[_ F]|(i & E & _)]; [exact F | lia]. }
  assert (Ha : forall a b c : string, (a ++ b) ++ c = a ++ b ++ c).
  { clear. intros a b c. induction a as [|x a IH];
      rewrite ?app_cons, ?app_nil_l; [reflexivity | now rewrite IH]. }
  change (String slash_char EmptyString) with slash.
  rewrite Ha. now apply rfind_prefixed.
Qed.

(** X6. Adding a namespace and taking it off again: for a namespace of at
    least two characters that ends with a slash and a local name without
    slashes, the prefixed name splits back into exactly that namespace and
    that name, and the namespace is recognised as the global one. *)
Theorem add_remove_namespace (namespace name : string) :
  last_char namespace = Ok slash_char ->
  (2 <= String.length namespace)%nat ->
  rfind name slash = (-1)%Z ->
  remove_namespace_prefix (add_namespace_prefix namespace name) = name /\
  get_body_namespace (add_namespace_prefix namespace name) = namespace /\
  compare_body_namespace_with_global namespace
    (add_namespace_prefix namespace name) = true.
Proof.
  intros Hl Hlen Hn. destruct (rfind_added namespace name Hl Hn) as (pre & -> & F).
  unfold remove_namespace_prefix, get_body_namespace,
    compare_body_namespace_with_global, add_namespace_prefix, rfind.
  rewrite F. rewrite length_app in Hlen. cbn in Hlen.
  destruct (Z.geb_spec (Z.of_nat (String.length pre)) 0); [|lia].
  destruct (Z.gtb_spec (Z.of_nat (String.length pre)) 0); [|lia].
  rewrite slice_to_nat, slice_from_nat.
  assert (Hs : S (String.length pre) = String.length (pre ++ slash)).
  { rewrite length_app. cbn. lia. }
  rewrite Hs, take_app.
  replace (String.length (pre ++ slash)) with (String.length (pre ++ slash) + 0)%nat by lia.
  rewrite drop_app. cbn [drop]. rewrite String.eqb_refl. repeat split.
Qed.

Lemma add_remove_namespace_witness :
  remove_namespace_prefix (add_namespace_prefix "/ambf/env/" "Cube") = "Cube" /\
  get_body_namespace (add_namespace_prefix "/ambf/env/" "Cube") = "/ambf/env/" /\
  compare_body_namespace_with_global "/ambf/env/"
    (add_namespace_prefix "/ambf/env/" "Cube") = true.
Proof.
  apply (add_remove_namespace "/ambf/env/" "Cube");
    [reflexivity | cbn; lia | reflexivity].
Defined.

Lemma namespace_parts (n : string) :
  rfind n slash <> 0%Z ->
  (rfind n slash = (-1)%Z /\ get_body_namespace n = EmptyString /\
   remove_namespace_prefix n = n) \/
  (exists i, rfind n slash = Z.of_nat i /\ (0 < i)%nat /\
     get_body_namespace n = take (S i) n /\
     remove_namespace_prefix n = drop (S i) n).
Proof.
  intros H0. unfold get_body_namespace, remove_namespace_prefix.
  destruct (rfind_cases n slash) as [[E F]|(i & E & F)]; rewrite E in *.
  - left. repeat split.
  - right. exists i.
    destruct (Z.geb_spec (Z.of_nat i) 0); [|lia].
    destruct (Z.gtb_spec (Z.of_nat i) 0); [|lia].
    rewrite slice_to_nat, slice_from_nat. repeat split. lia.
Qed.

(** X7. Body names through export and import under one global namespace:
    the exporter writes the local name, and the namespace only when it is
    not the global one; the importer puts the written (else the global)
    namespace before the name.  A name with a namespace comes back unchanged;
    a name without a slash comes back with the global namespace before it. *)
Theorem body_name_round_trip (namespace obj_name : string) :
  rfind obj_name slash <> 0%Z ->
  load_rigid_body_name namespace (exported_namespace namespace obj_name)
    (exported_name obj_name)
  = if (rfind obj_name slash =? -1)%Z then namespace ++ obj_name else obj_name.
Proof.
  intros H0. destruct (namespace_parts obj_name H0) as [(E & Hg & Hr)|(i & E & Hi & Hg & Hr)].
  - unfold exported_namespace, exported_name, compare_body_namespace_with_global.
    rewrite Hr, Hg, E. reflexivity.
  - unfold exported_namespace, exported_name, compare_body_namespace_with_global.
    rewrite Hr, Hg, E.
    destruct (Z.geb_spec (Z.of_nat i) 0); [|lia].
    destruct (Z.eqb_spec (Z.of_nat i) (-1)); [lia|].
    rewrite slice_to_nat.
    destruct (String.eqb namespace (take (S i) obj_name)) eqn:Eq.
    + apply String.eqb_eq in Eq. cbn [negb load_rigid_body_name].
      unfold add_namespace_prefix. rewrite Eq. apply take_drop.
    + cbn [negb]. rewrite take_nonempty.
      * cbn [negb load_rigid_body_name]. apply take_drop.
      * intros ->. cbn in E. lia.
Qed.

Lemma body_name_round_trip_witness :
  rfind "/ambf/env/Cube" slash <> 0%Z /\
  load_rigid_body_name "/other/" (exported_namespace "/other/" "/ambf/env/Cube")
    (exported_name "/ambf/env/Cube")
  = if (rfind "/ambf/env/Cube" slash =? -1)%Z then "/other/" ++ "/ambf/env/Cube"
    else "/ambf/env/Cube".
Proof.
  split; [vm_compute; discriminate|].
  apply (body_name_round_trip "/other/" "/ambf/env/Cube"). vm_compute; discriminate.
Defined.


Lemma slash_char_eqb (c : Ascii.ascii) :
  negb (Ascii.eqb c slash_char) = false <-> Ok c = Ok slash_char.
Proof.
  destruct (Ascii.eqb_spec c slash_char) as [->|Hne]; cbn; split; try easy.
  intros [= ->]. congruence.
Qed.

(** X8. [set_global_namespace] on a non-empty name returns with both stored
    namespaces equal and ending with a slash; a name that already ends with
    a slash is stored as it is, and setting the stored namespace again
    changes nothing. *)
Theorem set_global_namespace_normalises (ns : namespaces) (namespace : string) :
  namespace <> EmptyString ->
  exists ns', set_global_namespace ns namespace = Ok ns' /\
    global ns' = scene ns' /\
    last_char (global ns') = Ok slash_char /\
    (last_char namespace = Ok slash_char -> global ns' = namespace) /\
    set_global_namespace ns' (global ns') = Ok ns'.
Proof.
  intros Hne. destruct (last_char_Ok namespace Hne) as [c Hc].
  unfold set_global_namespace at 1. rewrite Hc, bind_Ok.
  destruct (negb (Ascii.eqb c slash_char)) eqn:E.
  - eexists; split; [reflexivity|]. cbn [global scene].
    split; [reflexivity|]. split; [apply last_char_app|]. split.
    + intros Hs. apply slash_char_eqb in Hs. congruence.
    + unfold set_global_namespace. unfold slash_char at 2.
      rewrite (last_char_app namespace), bind_Ok.
      change (negb (Ascii.eqb _ slash_char)) with false. reflexivity.
  - apply slash_char_eqb in E. injection E as ->.
    eexists; split; [reflexivity|]. cbn [global scene].
    split; [reflexivity|]. split; [exact Hc|]. split; [reflexivity|].
    unfold set_global_namespace. rewrite Hc, bind_Ok.
    change (negb (Ascii.eqb slash_char slash_char)) with false.
    reflexivity.
Qed.

Lemma set_global_namespace_normalises_witness :
  exists ns', set_global_namespace {| global := EmptyString; scene := EmptyString |}
                "/ambf/env" = Ok ns' /\
    global ns' = scene ns' /\
    last_char (global ns') = Ok slash_char /\
    (last_char "/ambf/env" = Ok slash_char -> global ns' = "/ambf/env") /\
    set_global_namespace ns' (global ns') = Ok ns'.
Proof.
  apply (set_global_namespace_normalises _ "/ambf/env"). discriminate.
Defined.

(** X9. [update_global_namespace] is not stable when the scene's namespace
    lacks the final slash: it stores the namespace with a slash as the global
    one but appends that whole string to the scene's namespace, so the next
    call takes a different global namespace (the name twice). *)
Theorem update_global_namespace_drifts (ns : namespaces) :
  scene ns <> EmptyString ->
  last_char (scene ns) <> Ok slash_char ->
  exists ns1 ns2,
    update_global_namespace ns = Ok ns1 /\
    update_global_namespace ns1 = Ok ns2 /\
    global ns1 = scene ns ++ "/" /\
    scene ns1 = scene ns ++ scene ns ++ "/" /\
    global ns2 = scene ns ++ scene ns ++ "/" /\
    global ns2 <> global ns1.
Proof.
  intros Hne Hl. destruct (last_char_Ok (scene ns) Hne) as [c Hc].
  assert (E : negb (Ascii.eqb c slash_char) = true).
  { destruct (negb (Ascii.eqb c slash_char)) eqn:E; [reflexivity|].
    apply slash_char_eqb in E. congruence. }
  assert (Ha : forall a b c : string, (a ++ b) ++ c = a ++ b ++ c).
  { clear. intros a b c. induction a as [|x a IH];
      rewrite ?app_cons, ?app_nil_l; [reflexivity | now rewrite IH]. }
  eexists _, _. split.
  { unfold update_global_namespace. rewrite Hc, bind_Ok, E. reflexivity. }
  split.
  { unfold update_global_namespace. cbn [scene].
    rewrite <- Ha. unfold slash_char.
    rewrite (last_char_app (scene ns ++ scene ns)), bind_Ok.
    change (negb (Ascii.eqb _ _)) with false. reflexivity. }
  cbn [global scene]. rewrite Ha. repeat split.
  intros H. apply (f_equal String.length) in H. rewrite !length_app in H.
  destruct (scene ns); [congruence|]. cbn in H. lia.
Qed.

Lemma update_global_namespace_drifts_witness :
  exists ns1 ns2,
    update_global_namespace {| global := EmptyString; scene := "/ambf" |} = Ok ns1 /\
    update_global_namespace ns1 = Ok ns2 /\
    global ns1 = "/ambf" ++ "/" /\
    scene ns1 = "/ambf" ++ "/ambf" ++ "/" /\
    global ns2 = "/ambf" ++ "/ambf" ++ "/" /\
    global ns2 <> global ns1.
Proof.
  apply (update_global_namespace_drifts {| global := EmptyString; scene := "/ambf" |});
    [discriminate | vm_compute; discriminate].
Defined.

Lemma has_detached_prefix_fold (prefixes : list string) (acc : bool) (name : string) :
  foldl (fun _has_detached_prefix _detached_joint_name_str =>
           if (rfind name _detached_joint_name_str =? 0)%Z
           then true else _has_detached_prefix) acc prefixes
  = acc || search_detached_prefix prefixes name.
Proof.
  revert acc; induction prefixes as [|p l IH]; intros acc; cbn [foldl search_detached_prefix].
  - now rewrite orb_false_r.
  - rewrite IH. destruct (rfind name p =? 0)%Z; [now rewrite orb_true_r | reflexivity].
Qed.

Lemma has_detached_prefix_search (name : string) :
  has_detached_prefix name = search_detached_prefix detached_joint_prefix name.
Proof. unfold has_detached_prefix. now rewrite has_detached_prefix_fold. Qed.

Lemma search_detached_prefix_true (prefixes : list string) (name : string) :
  search_detached_prefix prefixes name = true <->
  exists p, p ∈ prefixes /\ rfind name p = 0%Z.
Proof.
  induction prefixes as [|p l IH]; cbn [search_detached_prefix].
  - split; [discriminate|]. intros (p & Hp & _). now apply elem_of_nil in Hp.
  - destruct (Z.eqb_spec (rfind name p) 0) as [E|E].
    + split; [|reflexivity]. intros _. exists p. split; [left | exact E].
    + rewrite IH. split.
      * intros (q & Hq & Hr). exists q. split; [now right | exact Hr].
      * intros (q & Hq & Hr). apply elem_of_cons in Hq. destruct Hq as [->|Hq];
          [contradiction|]. now exists q.
Qed.

(** X10. The detached-joint prefix test, on import and on export: the two
    loops (with and without [break]) agree, and a name passes exactly when
    one of the six prefixes starts it and occurs nowhere later in it. *)
Theorem has_detached_prefix_spec (joint_name : string) :
  has_detached_prefix joint_name
    = search_detached_prefix detached_joint_prefix joint_name /\
  (has_detached_prefix joint_name = true <->
   exists p, p ∈ detached_joint_prefix /\
     String.prefix p joint_name = true /\
     forall k, (0 < k <= String.length joint_name)%nat ->
               String.prefix p (drop k joint_name) = false).
Proof.
  split; [apply has_detached_prefix_search|].
  rewrite has_detached_prefix_search, search_detached_prefix_true.
  split; intros (p & Hp & H); exists p; (split; [exact Hp|]);
    now apply rfind_zero.
Qed.

Lemma not_prefix_rfind (s sub : string) :
  String.prefix sub s = false -> (rfind s sub =? 0)%Z = false.
Proof.
  intros H. apply Z.eqb_neq. intros E. apply rfind_zero in E. destruct E. congruence.
Qed.

Lemma handle_name_test (joint_name : string) :
  search_detached_prefix detached_joint_prefix (detached_handle_name joint_name) = true
  <-> has_detached_prefix joint_name = true \/ rfind joint_name "detached" = (-1)%Z.
Proof.
  unfold detached_handle_name.
  destruct (has_detached_prefix joint_name) eqn:Hh.
  - rewrite <- has_detached_prefix_search, Hh. split; [now left | reflexivity].
  - rewrite !app_cons, app_nil_l.
    set (name := String _ _).
    cbn [search_detached_prefix detached_joint_prefix].
    rewrite !(not_prefix_rfind name) by reflexivity.
    rewrite (not_prefix_rfind name "Detached") by reflexivity.
    rewrite (not_prefix_rfind name "DETACHED") by reflexivity.
    assert (Hd : (rfind name "detached" =? 0)%Z = true <->
                 rfind joint_name "detached" = (-1)%Z).
    { rewrite Z.eqb_eq, rfind_zero. split.
      - intros [_ Hl].
        destruct (rfind_cases joint_name "detached") as [[E _]|(i & E & F)];
          [exact E|]. exfalso.
        apply rfind_from_Some in F. destruct F as (Hi & Hp & _).
        specialize (Hl (15 + i)%nat). cbn [name Nat.add drop String.length] in Hl.
        rewrite Hl in Hp; [discriminate | lia].
      - intros E. split; [subst name; now destruct joint_name|].
        destruct (rfind_cases joint_name "detached") as [[_ F]|(i & E' & _)];
          [|lia].
        pose proof (proj1 (rfind_from_None _ _) F) as Hnone.
        intros k Hk. subst name.
        do 15 (destruct k as [|k]; [try lia; reflexivity|]).
        cbn [drop]. apply Hnone. cbn [String.length] in Hk. lia. }
    destruct (rfind name "detached" =? 0)%Z.
    + split; [intros _; right; now apply Hd | reflexivity].
    + split; [discriminate|]. intros [H|H]; [discriminate|]. now apply Hd.
Qed.

Lemma handle_name_no_slash (joint_name : string) :
  rfind joint_name slash = (-1)%Z ->
  remove_namespace_prefix (detached_handle_name joint_name)
  = detached_handle_name joint_name.
Proof.
  intros Hn. unfold remove_namespace_prefix.
  assert (Hr : rfind (detached_handle_name joint_name) slash = (-1)%Z);
    [|now rewrite Hr].
  unfold detached_handle_name.
  destruct (has_detached_prefix joint_name); [exact Hn|].
  assert (F : rfind_from slash joint_name = None).
  { destruct (rfind_cases joint_name slash) as [[_ F]|(i & E & _)]; [exact F | lia]. }
  pose proof (proj1 (rfind_from_None _ _) F) as Hnone.
  unfold rfind.
  assert (G : rfind_from slash ("detached joint " ++ joint_name) = None);
    [|now rewrite G].
  apply rfind_from_None. rewrite !app_cons, app_nil_l. intros k Hk.
  do 15 (destruct k as [|k]; [reflexivity|]).
  cbn [drop]. apply Hnone. cbn [String.length] in Hk. lia.
Qed.

(** X11. The empty object the importer creates for a detached joint whose
    name holds no slash is named so that the exporter's prefix test, applied
    to the name without namespace, recognises it, unless the joint's name
    holds the word 'detached' somewhere behind its start: the created name
    passes the test exactly when the joint's name passes the importer's
    test or does not contain 'detached'. *)
Theorem detached_handle_name_recognised (joint_name : string) :
  rfind joint_name slash = (-1)%Z ->
  search_detached_prefix detached_joint_prefix
    (remove_namespace_prefix (detached_handle_name joint_name)) = true
  <-> has_detached_prefix joint_name = true \/ rfind joint_name "detached" = (-1)%Z.
Proof.
  intros Hn. rewrite (handle_name_no_slash joint_name Hn).
  apply handle_name_test.
Qed.

Lemma detached_handle_name_recognised_witness :
  rfind "loop" slash = (-1)%Z /\
  (search_detached_prefix detached_joint_prefix
     (remove_namespace_prefix (detached_handle_name "loop")) = true
   <-> has_detached_prefix "loop" = true \/ rfind "loop" "detached" = (-1)%Z).
Proof.
  split; [reflexivity|].
  apply (detached_handle_name_recognised "loop"). reflexivity.
Defined.

End NamesFacts.

(** ** Collision groups through export and import *)

Module BodiesMore.
Import Bodies BodiesExport.

Lemma set_indices_spec (flags : list bool) :
  forall (idx : nat) (g : Z),
    g ∈ set_indices idx flags <->
    exists i : nat, g = Z.of_nat (idx + i) /\ flags !! i = Some true.
Proof.
  induction flags as [|chk rest IH]; intros idx g; cbn [set_indices].
  - rewrite elem_of_nil. split; [tauto|]. intros (i & _ & H). discriminate.
  - assert (Hrest : g ∈ set_indices (S idx) rest <->
                    exists i : nat, g = Z.of_nat (idx + S i) /\ rest !! i = Some true).
    { rewrite IH. split; intros (i & -> & H); exists i; (split; [f_equal; lia | exact H]). }
    destruct chk.
    + rewrite elem_of_cons, Hrest. split.
      * intros [->|(i & -> & H)].
        -- exists 0%nat. split; [f_equal; lia | reflexivity].
        -- exists (S i). split; [reflexivity | exact H].
      * intros ([|i] & -> & H); [left; f_equal; lia | right; now exists i].
    + rewrite Hrest. split.
      * intros (i & -> & H). exists (S i). split; [reflexivity | exact H].
      * intros ([|i] & -> & H); [discriminate | now exists i].
Qed.

Lemma export_in_range (flags : list bool) (g : Z) :
  length flags = 20%nat -> g ∈ export_collision_groups flags -> in_range g.
Proof.
  intros Hlen H. apply set_indices_spec in H. destruct H as (i & -> & H).
  apply lookup_lt_Some in H. unfold in_range. lia.
Qed.

Lemma export_no_warnings (flags : list bool) :
  length flags = 20%nat ->
  expected_warnings (export_collision_groups flags) = [].
Proof.
  intros Hlen. unfold expected_warnings.
  assert (Hall : Forall in_range (export_collision_groups flags)).
  { apply Forall_forall. intros g. now apply export_in_range. }
  induction Hall as [|g l Hg _ IH]; [reflexivity|].
  rewrite filter_cons_False by tauto. exact IH.
Qed.

Lemma flags_eq (flags flags' : list bool) :
  length flags = length flags' ->
  (forall i, flags' !! i = Some true <-> flags !! i = Some true) ->
  flags' = flags.
Proof.
  intros Hlen H. apply list_eq. intros i.
  destruct (flags !! i) as [b|] eqn:E, (flags' !! i) as [b'|] eqn:E'.
  - specialize (H i). rewrite E, E' in H.
    destruct b, b'; try reflexivity; exfalso.
    + assert (Some false = Some true) by now apply H. discriminate.
    + assert (Some false = Some true) by now apply H. discriminate.
  - apply lookup_lt_Some in E. apply lookup_ge_None in E'. lia.
  - apply lookup_ge_None in E. apply lookup_lt_Some in E'. lia.
  - reflexivity.
Qed.

Lemma reload_flags (start flags : list bool) :
  length start = 20%nat -> length flags = 20%nat ->
  (forall i : nat, (0 < i)%nat -> start !! i <> Some true) ->
  load_collision_groups start (Some (export_collision_groups flags))
  = Ok (flags, []).
Proof.
  intros Hs Hlen Hclear.
  destruct (BodiesFacts.load_collision_groups_spec start
              (export_collision_groups flags) Hs Hclear)
    as (flags' & Hrun & Hl & Hspec).
  rewrite Hrun, export_no_warnings by exact Hlen.
  f_equal. f_equal. apply flags_eq; [congruence|].
  intros i. rewrite Hspec. unfold export_collision_groups.
  rewrite set_indices_spec. split.
  - intros (_ & j & Hj & H). assert (i = j) as -> by lia. exact H.
  - intros H. split; [apply lookup_lt_Some in H; lia|]. now exists i.
Qed.

(** X12. Collision groups through export and import: the index list the
    exporter writes for twenty flags is read back, by either loader and
    without a warning, into exactly those flags. *)
Theorem collision_groups_round_trip (flags : list bool) (ob : object) :
  length flags = 20%nat ->
  ob_type ob = OB_MESH ->
  ambf_rigid_body_collision_groups ob = ambf_default_groups ->
  load_blender_rigid_body (Some (export_collision_groups flags)) ob
  = Ok ({| ob_type := OB_MESH;
           rigid_body_collision_groups := Some flags;
           ambf_rigid_body_collision_groups := ambf_default_groups |}, []) /\
  load_ambf_rigid_body (Some (export_collision_groups flags)) ob
  = Ok ({| ob_type := OB_MESH;
           rigid_body_collision_groups := rigid_body_collision_groups ob;
           ambf_rigid_body_collision_groups := flags |}, []).
Proof.
  intros Hlen Hmesh Hdef.
  unfold load_blender_rigid_body, load_ambf_rigid_body.
  destruct (decide (ob_type ob = OB_MESH)); [|contradiction].
  rewrite Hdef, Hmesh.
  rewrite (reload_flags blender_default_groups flags eq_refl Hlen
             BodiesFacts.blender_default_clear).
  rewrite (reload_flags ambf_default_groups flags eq_refl Hlen
             (fun i _ => BodiesFacts.ambf_default_clear i)).
  split; reflexivity.
Qed.

Lemma collision_groups_round_trip_witness :
  load_blender_rigid_body
    (Some (export_collision_groups (false :: true :: replicate 18 false)))
    Samples.fresh_mesh
  = Ok ({| ob_type := OB_MESH;
           rigid_body_collision_groups := Some (false :: true :: replicate 18 false);
           ambf_rigid_body_collision_groups := ambf_default_groups |}, []) /\
  load_ambf_rigid_body
    (Some (export_collision_groups (false :: true :: replicate 18 false)))
    Samples.fresh_mesh
  = Ok ({| ob_type := OB_MESH;
           rigid_body_collision_groups := rigid_body_collision_groups Samples.fresh_mesh;
           ambf_rigid_body_collision_groups := false :: true :: replicate 18 false |}, []).
Proof.
  apply (collision_groups_round_trip (false :: true :: replicate 18 false)
           Samples.fresh_mesh); reflexivity.
Defined.

End BodiesMore.

(** ** Joint parameters through export and import *)

Module JointParamsFacts.
Import Exporter JointParams ExporterFacts.
Local Open Scope Q_scope.

(** The records [assign_joint_params] can leave behind. *)
Lemma exported_shapes (c : constraint) (jd : joint_data) :
  assign_joint_params c JointTemplate = Ok jd ->
  jd_controller jd = Some (Gains 1000 0 1) /\ jd_offset jd = None /\
  ((type c = FIXED /\ jd_type jd = Some "fixed"%string /\ jd_joint_limits jd = None) \/
   (type c = POINT /\ jd_type jd = Some "p2p"%string /\ jd_joint_limits jd = None) \/
   (type c = HINGE /\ jd_type jd = Some "continuous"%string /\
    classified_dof c = None /\
    jd_joint_limits jd = Some (Limits None None)) \/
   (exists d, classified_dof c = Some d /\
      jd_joint_limits jd = Some (Limits (Some (Py.round3 (limit_lower d)))
                                        (Some (Py.round3 (limit_upper d)))) /\
      ((type c = HINGE /\ jd_type jd = Some "revolute"%string) \/
       (type c = SLIDER /\ jd_type jd = Some "prismatic"%string) \/
       (type c = GENERIC /\
        ((jd_type jd = Some "prismatic"%string /\
          (use_limit (lin_x c) || use_limit (lin_y c) || use_limit (lin_z c)) = true) \/
         (jd_type jd = Some "revolute"%string /\
          (use_limit (lin_x c) || use_limit (lin_y c) || use_limit (lin_z c)) = false))) \/
       (type c = GENERIC_SPRING /\
        (jd_type jd = Some "linear spring"%string \/
         jd_type jd = Some "torsion spring"%string) /\
        jd_damping jd = (if use_spring d then Some (spring_damping d) else None) /\
        jd_stiffness jd = (if use_spring d then Some (spring_stiffness d) else None))))).
Proof.
  split_flags c. unfold assign_joint_params, classified_dof.
  destruct t; run_code; try discriminate.
  all: intros [= <-]; cbn; split; [reflexivity|]; split; [reflexivity|].
  all: first
    [ left; repeat split; reflexivity
    | right; left; repeat split; reflexivity
    | right; right; left; repeat split; reflexivity
    | right; right; right; eexists; split; [reflexivity|]; split; [reflexivity|];
      first
        [ left; split; reflexivity
        | right; left; split; reflexivity
        | right; right; left; split; [reflexivity|];
          first [ left; split; reflexivity | right; split; reflexivity ]
        | right; right; right; split; [reflexivity|];
          split; [first [left; reflexivity | right; reflexivity]|];
          split; reflexivity ] ].
Qed.


Ltac known_type H := rewrite H; cbn [getitem]; rewrite ?bind_Ok; eval_literals.

(** What the legacy loader does per exported type name. *)
Lemma import_revolute sc jd c p lo hi :
  jd_type jd = Some "revolute"%string ->
  jd_joint_limits jd = Some (Limits (Some lo) (Some hi)) ->
  set_blender_constraint_params sc jd c p
  = Ok (set_ang_z (with_limits 
           (hi + (if adjust_joint_pivots sc then 0 else get_joint_offset_angle sc jd)) 
           (lo + (if adjust_joint_pivots sc then 0 else get_joint_offset_angle sc jd))
           (ang_z c)) c,
        match jd_controller jd with
        | Some g => {| ambf_enable_joint_props := true;
                       ambf_joint_controller_p_gain := gain_P g;
                       ambf_joint_controller_d_gain := gain_D g;
                       ambf_joint_damping := ambf_joint_damping p |}
        | None => p
        end).
Proof.
  intros Ht Hl. unfold set_blender_constraint_params, load_limits.
  rewrite Hl. known_type Ht.
  now destruct (jd_controller jd).
Qed.

Lemma import_prismatic sc jd c p lo hi :
  jd_type jd = Some "prismatic"%string ->
  jd_joint_limits jd = Some (Limits (Some lo) (Some hi)) ->
  set_blender_constraint_params sc jd c p
  = Ok (set_lin_x (with_limits hi lo (lin_x c)) c,
        match jd_controller jd with
        | Some g => {| ambf_enable_joint_props := true;
                       ambf_joint_controller_p_gain := gain_P g;
                       ambf_joint_controller_d_gain := gain_D g;
                       ambf_joint_damping := ambf_joint_damping p |}
        | None => p
        end).
Proof.
  intros Ht Hl. unfold set_blender_constraint_params, load_limits.
  rewrite Hl. known_type Ht.
  now destruct (jd_controller jd).
Qed.

Lemma import_linear_spring sc jd c p lo hi :
  jd_type jd = Some "linear spring"%string ->
  jd_joint_limits jd = Some (Limits (Some lo) (Some hi)) ->
  set_blender_constraint_params sc jd c p
  = Ok (set_lin_x (load_spring jd
          (with_limits
             (hi + (if adjust_joint_pivots sc then 0
                    else get_joint_offset_angle sc jd))
             (lo + (if adjust_joint_pivots sc then 0
                    else get_joint_offset_angle sc jd))
             (lin_x c))) c, p).
Proof.
  intros Ht Hl. unfold set_blender_constraint_params, load_limits.
  rewrite Hl. known_type Ht.
  now destruct (jd_controller jd).
Qed.

Lemma import_torsion_spring sc jd c p lo hi :
  jd_type jd = Some "torsion spring"%string ->
  jd_joint_limits jd = Some (Limits (Some lo) (Some hi)) ->
  set_blender_constraint_params sc jd c p
  = Ok (set_ang_z (load_spring jd
          (with_limits
             (hi + (if adjust_joint_pivots sc then 0
                    else get_joint_offset_angle sc jd))
             (lo + (if adjust_joint_pivots sc then 0
                    else get_joint_offset_angle sc jd))
             (ang_z c))) c, p).
Proof.
  intros Ht Hl. unfold set_blender_constraint_params, load_limits.
  rewrite Hl. known_type Ht.
  now destruct (jd_controller jd).
Qed.

Lemma load_spring_limits jd d :
  use_limit (load_spring jd d) = use_limit d /\
  limit_lower (load_spring jd d) = limit_lower d /\
  limit_upper (load_spring jd d) = limit_upper d.
Proof.
  unfold load_spring. destruct (jd_damping jd), (jd_stiffness jd); repeat split.
Qed.

(** X13. The two type classifiers of the importer agree on every known type
    name (revolute with hinge, prismatic with slider, both spring kinds with
    the generic spring, p2p with point, fixed with fixed); they differ
    exactly on a missing or unknown type, which the legacy loader takes as a
    hinge and the other loader as fixed. *)
Theorem joint_type_classifiers (jd : joint_data) :
  (get_ambf_joint_type jd, get_blender_joint_type jd) ∈
    [(REVOLUTE, HINGE); (PRISMATIC, SLIDER); (LINEAR_SPRING, GENERIC_SPRING);
     (TORSION_SPRING, GENERIC_SPRING); (P2P, POINT); (AMBF_FIXED, FIXED);
     (AMBF_FIXED, HINGE)] /\
  ((get_ambf_joint_type jd, get_blender_joint_type jd) = (AMBF_FIXED, HINGE) <->
   forall ty, jd_type jd = Some ty ->
     ty ∉ ["hinge"; "revolute"; "continuous"; "prismatic"; "slider"; "spring";
           "linear spring"; "angular spring"; "torsional spring";
           "torsion spring"; "p2p"; "point2point"; "fixed"; "FIXED"]%string).
Proof.
  unfold get_ambf_joint_type, get_blender_joint_type.
  destruct (jd_type jd) as [ty|].
  - repeat case_bool_decide;
      repeat match goal with
        | H : _ ∈ _ |- _ => rewrite !elem_of_cons, elem_of_nil in H
        | H : _ ∉ _ |- _ => rewrite !elem_of_cons, elem_of_nil in H
        end;
      try tauto.
    all: split;
      [ rewrite !elem_of_cons; tauto
      | split;
        [ try discriminate; intros _ ty' [= <-];
          rewrite !elem_of_cons, elem_of_nil; tauto
        | intros Hall; try reflexivity; exfalso;
          specialize (Hall ty eq_refl);
          rewrite !elem_of_cons, elem_of_nil in Hall; tauto ] ].
  - split; [rewrite !elem_of_cons; tauto|].
    split; [intros _ ty [=] | reflexivity].
Qed.

(** X14. The constraint kind through export and legacy import: a fixed,
    point, hinge, slider or generic-spring constraint comes back as the same
    kind; a generic constraint never does, it comes back as a slider when
    one of its linear limits is active and as a hinge otherwise. *)
Theorem exported_type_read_back (c : constraint) (jd : joint_data) :
  assign_joint_params c JointTemplate = Ok jd ->
  get_blender_joint_type jd =
    match type c with
    | GENERIC =>
        if use_limit (lin_x c) || use_limit (lin_y c) || use_limit (lin_z c)
        then SLIDER else HINGE
    | t => t
    end.
Proof.
  intros H. destruct (exported_shapes c jd H) as (_ & _ & Hs).
  unfold get_blender_joint_type.
  destruct Hs as [(Ht & Hty & _) | [(Ht & Hty & _) | [(Ht & Hty & _) |
    (d & _ & _ & [(Ht & Hty) | [(Ht & Hty) | [(Ht & [(Hty & Hu) | (Hty & Hu)]) |
      (Ht & [Hty | Hty] & _)]]])]]];
    rewrite Hty, Ht; eval_literals; try reflexivity; now rewrite Hu.
Qed.

Lemma exported_type_read_back_witness :
  exists jd,
    assign_joint_params Samples.limited_hinge JointTemplate = Ok jd /\
    get_blender_joint_type jd = HINGE.
Proof.
  eexists. split; [vm_compute; reflexivity|].
  apply (exported_type_read_back Samples.limited_hinge). vm_compute. reflexivity.
Defined.


(** X15. Joint limits through export and legacy import: for a constraint
    that is exported with limits, the loader returns and the limits come
    back, rounded to three decimals, on the angular z axis for a revolute
    joint and on the linear x axis for a prismatic one, whatever axis they
    were taken from.  The joint offset of the document moves the limits of a
    revolute joint and of both spring kinds (also the linear one), never
    those of a prismatic joint, and counts as zero when the pivots are
    adjusted. *)
Theorem exported_limits_read_back (sc : scene_options) (c c0 : constraint)
    (p0 : joint_props) (jd : joint_data) (d : dof) (o : option Q) :
  assign_joint_params c JointTemplate = Ok jd ->
  classified_dof c = Some d ->
  exists c' p',
    set_blender_constraint_params sc (set_offset o jd) c0 p0 = Ok (c', p') /\
    match jd_type jd with
    | Some ty =>
        (ty = "revolute"%string /\ lin_x c' = lin_x c0 /\
         limits_of (ang_z c') d
           (if adjust_joint_pivots sc then 0
            else if ignore_ambf_joint_offsets sc then 0 else default 0 o)) \/
        (ty = "prismatic"%string /\ ang_z c' = ang_z c0 /\
         limits_of (lin_x c') d 0) \/
        (ty = "linear spring"%string /\ ang_z c' = ang_z c0 /\
         limits_of (lin_x c') d
           (if adjust_joint_pivots sc then 0
            else if ignore_ambf_joint_offsets sc then 0 else default 0 o)) \/
        (ty = "torsion spring"%string /\ lin_x c' = lin_x c0 /\
         limits_of (ang_z c') d
           (if adjust_joint_pivots sc then 0
            else if ignore_ambf_joint_offsets sc then 0 else default 0 o))
    | None => False
    end.
Proof.
  intros H Hd. destruct (exported_shapes c jd H) as (_ & _ & Hs).
  assert (Hoff : (if adjust_joint_pivots sc then 0
                  else get_joint_offset_angle sc (set_offset o jd))
                 = (if adjust_joint_pivots sc then 0
                    else if ignore_ambf_joint_offsets sc then 0 else default 0 o)).
  { unfold get_joint_offset_angle. cbn [jd_offset set_offset].
    destruct (adjust_joint_pivots sc), (ignore_ambf_joint_offsets sc), o; reflexivity. }
  destruct Hs as [(Ht & _) | [(Ht & _) | [(_ & _ & Hn & _) |
    (d' & Hd' & Hl & Hs)]]].
  1, 2: unfold classified_dof in Hd; rewrite Ht in Hd; discriminate.
  1: congruence.
  assert (d' = d) as -> by congruence.
  assert (Hrev : jd_type jd = Some "revolute"%string ->
            exists c' p', set_blender_constraint_params sc (set_offset o jd) c0 p0
                          = Ok (c', p') /\ lin_x c' = lin_x c0 /\
              limits_of (ang_z c') d
                (if adjust_joint_pivots sc then 0
                 else if ignore_ambf_joint_offsets sc then 0 else default 0 o)).
  { intros Hty.
    eexists _, _. split; [exact (import_revolute sc (set_offset o jd) c0 p0 _ _ Hty Hl)|]. rewrite Hoff. cbn. repeat split; reflexivity. }
  assert (Hpri : jd_type jd = Some "prismatic"%string ->
            exists c' p', set_blender_constraint_params sc (set_offset o jd) c0 p0
                          = Ok (c', p') /\ ang_z c' = ang_z c0 /\
              limits_of (lin_x c') d 0).
  { intros Hty.
    eexists _, _. split; [exact (import_prismatic sc (set_offset o jd) c0 p0 _ _ Hty Hl)|]. split; [reflexivity|].
    unfold limits_of. cbn [lin_x set_lin_x with_limits use_limit limit_lower limit_upper].
    split; [reflexivity|]. split; symmetry; apply Qplus_0_r. }
  destruct Hs as [(_ & Hty) | [(_ & Hty) | [(_ & [(Hty & _) | (Hty & _)]) |
    (_ & [Hty | Hty] & _)]]]; rewrite Hty.
  - destruct (Hrev Hty) as (c' & p' & Hrun & Hx). exists c', p'. split; [exact Hrun|].
    left. split; [reflexivity | exact Hx].
  - destruct (Hpri Hty) as (c' & p' & Hrun & Hx). exists c', p'. split; [exact Hrun|].
    right; left. split; [reflexivity | exact Hx].
  - destruct (Hpri Hty) as (c' & p' & Hrun & Hx). exists c', p'. split; [exact Hrun|].
    right; left. split; [reflexivity | exact Hx].
  - destruct (Hrev Hty) as (c' & p' & Hrun & Hx). exists c', p'. split; [exact Hrun|].
    left. split; [reflexivity | exact Hx].
  - eexists _, p0. split.
    { apply (import_linear_spring sc (set_offset o jd) c0 p0 _ _ Hty Hl). }
    right; right; left. split; [reflexivity|]. split; [reflexivity|].
    rewrite Hoff. unfold limits_of. cbn [lin_x set_lin_x].
    destruct (load_spring_limits (set_offset o jd)
                (with_limits
                   (Py.round3 (limit_upper d) +
                    (if adjust_joint_pivots sc then 0
                     else if ignore_ambf_joint_offsets sc then 0 else default 0 o))
                   (Py.round3 (limit_lower d) +
                    (if adjust_joint_pivots sc then 0
                     else if ignore_ambf_joint_offsets sc then 0 else default 0 o))
                   (lin_x c0))) as (-> & -> & ->).
    cbn. repeat split; reflexivity.
  - eexists _, p0. split.
    { apply (import_torsion_spring sc (set_offset o jd) c0 p0 _ _ Hty Hl). }
    right; right; right. split; [reflexivity|]. split; [reflexivity|].
    rewrite Hoff. unfold limits_of. cbn [ang_z set_ang_z].
    destruct (load_spring_limits (set_offset o jd)
                (with_limits
                   (Py.round3 (limit_upper d) +
                    (if adjust_joint_pivots sc then 0
                     else if ignore_ambf_joint_offsets sc then 0 else default 0 o))
                   (Py.round3 (limit_lower d) +
                    (if adjust_joint_pivots sc then 0
                     else if ignore_ambf_joint_offsets sc then 0 else default 0 o))
                   (ang_z c0))) as (-> & -> & ->).
    cbn. repeat split; reflexivity.
Qed.


Lemma exported_limits_read_back_witness :
  exists jd d,
    assign_joint_params Samples.limited_hinge JointTemplate = Ok jd /\
    classified_dof Samples.limited_hinge = Some d /\
    exists c' p',
      set_blender_constraint_params Cases.plain_options (set_offset (Some (1 # 2)) jd)
        (Samples.unconstrained HINGE) Cases.default_props = Ok (c', p') /\
      match jd_type jd with
      | Some ty =>
          (ty = "revolute"%string /\
           lin_x c' = lin_x (Samples.unconstrained HINGE) /\
           limits_of (ang_z c') d
             (if adjust_joint_pivots Cases.plain_options then 0
              else if ignore_ambf_joint_offsets Cases.plain_options then 0
                   else default 0 (Some (1 # 2)))) \/
          (ty = "prismatic"%string /\
           ang_z c' = ang_z (Samples.unconstrained HINGE) /\
           limits_of (lin_x c') d 0) \/
          (ty = "linear spring"%string /\
           ang_z c' = ang_z (Samples.unconstrained HINGE) /\
           limits_of (lin_x c') d
             (if adjust_joint_pivots Cases.plain_options then 0
              else if ignore_ambf_joint_offsets Cases.plain_options then 0
                   else default 0 (Some (1 # 2)))) \/
          (ty = "torsion spring"%string /\
           lin_x c' = lin_x (Samples.unconstrained HINGE) /\
           limits_of (ang_z c') d
             (if adjust_joint_pivots Cases.plain_options then 0
              else if ignore_ambf_joint_offsets Cases.plain_options then 0
                   else default 0 (Some (1 # 2))))
      | None => False
      end.
Proof.
  eexists _, _. split; [vm_compute; reflexivity|]. split; [reflexivity|].
  apply (exported_limits_read_back Cases.plain_options Samples.limited_hinge);
    [vm_compute; reflexivity | reflexivity].
Defined.

(** X16. A generic spring through export and legacy import: the damping and
    stiffness of the classified degree of freedom come back unrounded, with
    the spring switched on, on the linear x axis (linear spring) or the
    angular z axis (torsion spring) when the spring was in use; when it was
    not, the spring values of that axis are left as they were. *)
Theorem exported_spring_read_back (sc : scene_options) (c c0 : constraint)
    (p0 : joint_props) (jd : joint_data) (d : dof) (o : option Q) :
  type c = GENERIC_SPRING ->
  assign_joint_params c JointTemplate = Ok jd ->
  classified_dof c = Some d ->
  exists c' d0 d',
    set_blender_constraint_params sc (set_offset o jd) c0 p0 = Ok (c', p0) /\
    ((jd_type jd = Some "linear spring"%string /\ d0 = lin_x c0 /\ d' = lin_x c') \/
     (jd_type jd = Some "torsion spring"%string /\ d0 = ang_z c0 /\ d' = ang_z c')) /\
    (if use_spring d
     then use_spring d' = true /\ spring_damping d' = spring_damping d /\
          spring_stiffness d' = spring_stiffness d
     else use_spring d' = use_spring d0 /\ spring_damping d' = spring_damping d0 /\
          spring_stiffness d' = spring_stiffness d0).
Proof.
  intros Ht H Hd. destruct (exported_shapes c jd H) as (_ & _ & Hs).
  destruct Hs as [(Ht' & _) | [(Ht' & _) | [(Ht' & _) | (d' & Hd' & Hl & Hs)]]];
    try congruence.
  assert (d' = d) as -> by congruence.
  destruct Hs as [(Ht' & _) | [(Ht' & _) | [(Ht' & _) | (_ & Hty & Hdamp & Hstiff)]]];
    try congruence.
  assert (Hspring : forall d1,
            if use_spring d
            then use_spring (load_spring (set_offset o jd) d1) = true /\
                 spring_damping (load_spring (set_offset o jd) d1) = spring_damping d /\
                 spring_stiffness (load_spring (set_offset o jd) d1) = spring_stiffness d
            else load_spring (set_offset o jd) d1 = d1).
  { intros d1. unfold load_spring. cbn [jd_damping jd_stiffness set_offset].
    rewrite Hdamp, Hstiff. destruct (use_spring d); [repeat split | reflexivity]. }
  destruct Hty as [Hty | Hty].
  - eexists _, (lin_x c0), _. split.
    { apply (import_linear_spring sc (set_offset o jd) c0 p0 _ _ Hty Hl). }
    split; [left; split; [exact Hty | split; reflexivity]|]. cbn [lin_x set_lin_x].
    match goal with |- context [load_spring _ ?d1] => specialize (Hspring d1) end.
    destruct (use_spring d); [exact Hspring | rewrite Hspring; repeat split].
  - eexists _, (ang_z c0), _. split.
    { apply (import_torsion_spring sc (set_offset o jd) c0 p0 _ _ Hty Hl). }
    split; [right; split; [exact Hty | split; reflexivity]|]. cbn [ang_z set_ang_z].
    match goal with |- context [load_spring _ ?d1] => specialize (Hspring d1) end.
    destruct (use_spring d); [exact Hspring | rewrite Hspring; repeat split].
Qed.

Lemma exported_spring_read_back_witness :
  exists jd d c' d0 d',
    assign_joint_params Cases.spring_y JointTemplate = Ok jd /\
    classified_dof Cases.spring_y = Some d /\
    set_blender_constraint_params Cases.plain_options (set_offset None jd)
      (Samples.unconstrained GENERIC_SPRING) Cases.default_props
      = Ok (c', Cases.default_props) /\
    ((jd_type jd = Some "linear spring"%string /\
      d0 = lin_x (Samples.unconstrained GENERIC_SPRING) /\ d' = lin_x c') \/
     (jd_type jd = Some "torsion spring"%string /\
      d0 = ang_z (Samples.unconstrained GENERIC_SPRING) /\ d' = ang_z c')) /\
    (if use_spring d
     then use_spring d' = true /\ spring_damping d' = spring_damping d /\
          spring_stiffness d' = spring_stiffness d
     else use_spring d' = use_spring d0 /\ spring_damping d' = spring_damping d0 /\
          spring_stiffness d' = spring_stiffness d0).
Proof.
  destruct (exported_spring_read_back Cases.plain_options Cases.spring_y
              (Samples.unconstrained GENERIC_SPRING) Cases.default_props
              (set_joint_limits
                 (Some (Limits (Some (Py.round3 (- (1 # 10))))
                               (Some (Py.round3 (1 # 10)))))
                 (set_spring 3 40 (set_type "linear spring" JointTemplate)))
              (lin_y Cases.spring_y) None eq_refl eq_refl eq_refl)
    as (c' & d0 & d' & H).
  exists (set_joint_limits
            (Some (Limits (Some (Py.round3 (- (1 # 10))))
                          (Some (Py.round3 (1 # 10)))))
            (set_spring 3 40 (set_type "linear spring" JointTemplate))),
    (lin_y Cases.spring_y), c', d0, d'.
  split; [reflexivity|]. split; [reflexivity|]. exact H.
Defined.


(** X17. What the legacy loader leaves out or fails on: without a
    ['joint limits'] key nothing is read at all (also no controller gains);
    with the key and no type it raises [KeyError]; with the key and the type
    names hinge or slider, which the type classifier accepts, the limits are
    not read; a revolute joint whose limits lack the upper bound raises
    [KeyError]. *)
Theorem set_blender_constraint_params_edges (sc : scene_options)
    (jd : joint_data) (c : constraint) (p : joint_props) :
  (jd_joint_limits jd = None ->
   set_blender_constraint_params sc jd c p = Ok (c, p)) /\
  (jd_joint_limits jd <> None -> jd_type jd = None ->
   set_blender_constraint_params sc jd c p = Raise (KeyError "type")) /\
  (jd_joint_limits jd <> None ->
   jd_type jd = Some "hinge"%string \/ jd_type jd = Some "slider"%string ->
   get_blender_joint_type jd ∈ [HINGE; SLIDER] /\
   exists p', set_blender_constraint_params sc jd c p = Ok (c, p')) /\
  (forall lo, jd_joint_limits jd = Some (Limits lo None) ->
   jd_type jd = Some "revolute"%string ->
   set_blender_constraint_params sc jd c p = Raise (KeyError "high")).
Proof.
  unfold set_blender_constraint_params, get_blender_joint_type, load_limits.
  repeat split.
  - now intros ->.
  - intros Hl ->. now destruct (jd_joint_limits jd).
  - destruct H0 as [-> | ->]; eval_literals; rewrite !elem_of_cons; tauto.
  - destruct (jd_joint_limits jd) as [jl|]; [|congruence].
    destruct H0 as [-> | ->]; cbn [getitem]; rewrite ?bind_Ok; eval_literals;
      destruct (jd_controller jd); eexists; reflexivity.
  - intros lo -> ->. cbn [getitem]. rewrite ?bind_Ok. eval_literals. reflexivity.
Qed.



(** X18. Controller gains through export and legacy import: for a hinge,
    slider or generic constraint whose joint properties are enabled, the
    gains come back rounded to four decimals and the properties enabled; in
    every other case (properties not enabled, or a fixed, point or spring
    constraint, whose record keeps the template's gains) the loader leaves
    the joint properties as they were. *)
Theorem controller_round_trip (sc : scene_options) (c c0 : constraint)
    (props p0 : joint_props) (jd : joint_data) :
  assign_joint_params c JointTemplate = Ok jd ->
  exists c' p',
    set_blender_constraint_params sc (export_controller (type c) props jd) c0 p0
      = Ok (c', p') /\
    (type c ∉ [HINGE; SLIDER; GENERIC] ->
     jd_controller (export_controller (type c) props jd) = Some (Gains 1000 0 1)) /\
    if bool_decide (type c ∈ [HINGE; SLIDER; GENERIC]) && ambf_enable_joint_props props
    then ambf_enable_joint_props p' = true /\
         ambf_joint_controller_p_gain p' = round4 (ambf_joint_controller_p_gain props) /\
         ambf_joint_controller_d_gain p' = round4 (ambf_joint_controller_d_gain props)
    else p' = p0.
Proof.
  intros H. destruct (exported_shapes c jd H) as (Hc & _ & Hs).
  unfold export_controller.
  destruct Hs as [(Ht & Hty & Hl) | [(Ht & Hty & Hl) | [(Ht & Hty & _ & Hl) |
    (d & _ & Hl & Hs)]]].
  - rewrite Ht. eval_literals. exists c0, p0.
    unfold set_blender_constraint_params. rewrite Hl.
    split; [reflexivity|]. split; [intros _; exact Hc | reflexivity].
  - rewrite Ht. eval_literals. exists c0, p0.
    unfold set_blender_constraint_params. rewrite Hl.
    split; [reflexivity|]. split; [intros _; exact Hc | reflexivity].
  - rewrite Ht. eval_literals.
    destruct (ambf_enable_joint_props props); unfold set_blender_constraint_params;
      cbn [jd_joint_limits jd_type jd_controller jd_offset set_controller set_damping];
      rewrite Hl; known_type Hty; eexists _, _;
      (split; [reflexivity|]); (split; [intros Hn; exfalso; apply Hn;
         rewrite !elem_of_cons; tauto|]); repeat split.
  - destruct Hs as [(Ht & Hty) | [(Ht & Hty) | [(Ht & [(Hty & _) | (Hty & _)]) |
      (Ht & Hty & _)]]]; rewrite Ht; eval_literals.
    1, 4: destruct (ambf_enable_joint_props props);
      lazymatch goal with
      | |- exists _ _, set_blender_constraint_params _ ?doc _ _ = _ /\ _ =>
          eexists _, _; (split; [apply (import_revolute sc doc c0 p0 _ _ Hty Hl)|])
      end;
      (split; [intros Hn; exfalso; apply Hn; rewrite !elem_of_cons; tauto|]);
      cbn [jd_controller set_controller set_damping]; repeat split.
    1, 2: destruct (ambf_enable_joint_props props);
      lazymatch goal with
      | |- exists _ _, set_blender_constraint_params _ ?doc _ _ = _ /\ _ =>
          eexists _, _; (split; [apply (import_prismatic sc doc c0 p0 _ _ Hty Hl)|])
      end;
      (split; [intros Hn; exfalso; apply Hn; rewrite !elem_of_cons; tauto|]);
      cbn [jd_controller set_controller set_damping]; repeat split.
    destruct Hty as [Hty | Hty]; eexists _, p0;
      (split; [first [ apply (import_linear_spring sc _ c0 p0 _ _ Hty Hl)
                     | apply (import_torsion_spring sc _ c0 p0 _ _ Hty Hl) ]|]);
      (split; [intros _; exact Hc | reflexivity]).
Qed.

Lemma controller_round_trip_witness :
  exists jd c' p',
    assign_joint_params Samples.limited_hinge JointTemplate = Ok jd /\
    set_blender_constraint_params Cases.plain_options
      (export_controller (type Samples.limited_hinge) Cases.tuned_props jd)
      (Samples.unconstrained HINGE) Cases.default_props = Ok (c', p') /\
    (type Samples.limited_hinge ∉ [HINGE; SLIDER; GENERIC] ->
     jd_controller (export_controller (type Samples.limited_hinge) Cases.tuned_props jd)
       = Some (Gains 1000 0 1)) /\
    if bool_decide (type Samples.limited_hinge ∈ [HINGE; SLIDER; GENERIC])
       && ambf_enable_joint_props Cases.tuned_props
    then ambf_enable_joint_props p' = true /\
         ambf_joint_controller_p_gain p'
           = round4 (ambf_joint_controller_p_gain Cases.tuned_props) /\
         ambf_joint_controller_d_gain p'
           = round4 (ambf_joint_controller_d_gain Cases.tuned_props)
    else p' = Cases.default_props.
Proof.
  destruct (controller_round_trip Cases.plain_options Samples.limited_hinge
              (Samples.unconstrained HINGE) Cases.tuned_props Cases.default_props
              (set_joint_limits
                 (Some (Limits (Some (Py.round3 (- (7854 # 10000))))
                               (Some (Py.round3 (15708 # 10000)))))
                 (set_type "revolute" JointTemplate)) eq_refl)
    as (c' & p' & H).
  exists (set_joint_limits
            (Some (Limits (Some (Py.round3 (- (7854 # 10000))))
                          (Some (Py.round3 (15708 # 10000)))))
            (set_type "revolute" JointTemplate)), c', p'.
  split; [reflexivity | exact H].
Defined.


(** X19. An exported joint read by the add-on's own loader: the type comes
    back as the matching kind (a generic constraint as prismatic or revolute,
    a generic spring as linear or torsion spring, by the first limited axis),
    the limits of the classified degree of freedom come back rounded to three
    decimals with the enable flag untouched, and a joint exported without
    limits (fixed, point, continuous) gets its limits disabled. *)
Theorem exported_read_by_ambf_loader (c : constraint) (jd : joint_data)
    (j : ambf_constraint) :
  assign_joint_params c JointTemplate = Ok jd ->
  get_ambf_joint_type jd =
    match type c with
    | POINT => P2P
    | HINGE => REVOLUTE
    | SLIDER => PRISMATIC
    | GENERIC =>
        if use_limit (lin_x c) || use_limit (lin_y c) || use_limit (lin_z c)
        then PRISMATIC else REVOLUTE
    | GENERIC_SPRING =>
        if use_limit (lin_x c) || use_limit (lin_y c) || use_limit (lin_z c)
        then LINEAR_SPRING else TORSION_SPRING
    | _ => AMBF_FIXED
    end /\
  match classified_dof c with
  | Some d =>
      ambf_constraint_limits_lower (set_ambf_constraint_params jd j)
        = Py.round3 (limit_lower d) /\
      ambf_constraint_limits_higher (set_ambf_constraint_params jd j)
        = Py.round3 (limit_upper d) /\
      ambf_constraint_limits_enable (set_ambf_constraint_params jd j)
        = ambf_constraint_limits_enable j
  | None =>
      ambf_constraint_limits_enable (set_ambf_constraint_params jd j) = false /\
      ambf_constraint_limits_lower (set_ambf_constraint_params jd j)
        = ambf_constraint_limits_lower j /\
      ambf_constraint_limits_higher (set_ambf_constraint_params jd j)
        = ambf_constraint_limits_higher j
  end.
Proof.
  split_flags c.
  unfold assign_joint_params, classified_dof, get_ambf_joint_type,
    set_ambf_constraint_params.
  destruct t; run_code; try discriminate.
  all: intros [= <-]; cbn; eval_literals; repeat split.
Qed.

Lemma exported_read_by_ambf_loader_witness :
  exists jd,
    assign_joint_params Cases.spring_y JointTemplate = Ok jd /\
    get_ambf_joint_type jd = LINEAR_SPRING /\
    ambf_constraint_limits_lower (set_ambf_constraint_params jd Cases.new_joint)
      = Py.round3 (- (1 # 10)) /\
    ambf_constraint_limits_higher (set_ambf_constraint_params jd Cases.new_joint)
      = Py.round3 (1 # 10) /\
    ambf_constraint_limits_enable (set_ambf_constraint_params jd Cases.new_joint)
      = true.
Proof.
  eexists. split; [vm_compute; reflexivity|].
  apply (exported_read_by_ambf_loader Cases.spring_y _ Cases.new_joint).
  vm_compute. reflexivity.
Defined.


(** *** Rounding *)

Lemma Qltb_compat (x x' y y' : Q) :
  x == x' -> y == y' -> Py.Qltb x y = Py.Qltb x' y'.
Proof.
  intros Hx Hy. unfold Py.Qltb. f_equal.
  destruct (Qle_bool y x) eqn:E, (Qle_bool y' x') eqn:E'; try reflexivity.
  - apply Qle_bool_iff in E.
    assert (~ y' <= x') by (rewrite <- Qle_bool_iff; congruence). Lqa.lra.
  - apply Qle_bool_iff in E'.
    assert (~ y <= x) by (rewrite <- Qle_bool_iff; congruence). Lqa.lra.
Qed.

Lemma Qltb_true (x y : Q) : Py.Qltb x y = true <-> x < y.
Proof.
  unfold Py.Qltb. destruct (Qle_bool y x) eqn:E; cbn.
  - apply Qle_bool_iff in E. split; [discriminate | Lqa.lra].
  - assert (~ y <= x) by (rewrite <- Qle_bool_iff; congruence).
    split; [Lqa.lra | reflexivity].
Qed.

Lemma round_half_even_comp (q q' : Q) :
  q == q' -> Py.round_half_even q = Py.round_half_even q'.
Proof.
  intros H. unfold Py.round_half_even.
  assert (Hn : Qfloor q = Qfloor q') by (now apply Qfloor_comp).
  rewrite Hn.
  rewrite (Qltb_compat (q - inject_Z (Qfloor q')) (q' - inject_Z (Qfloor q'))
             (1 # 2) (1 # 2)) by Lqa.lra.
  rewrite (Qltb_compat (1 # 2) (1 # 2) (q - inject_Z (Qfloor q'))
             (q' - inject_Z (Qfloor q'))) by Lqa.lra.
  reflexivity.
Qed.

Lemma round_half_even_Z (k : Z) : Py.round_half_even (inject_Z k) = k.
Proof.
  unfold Py.round_half_even. rewrite Qfloor_Z.
  assert (H : Py.Qltb (inject_Z k - inject_Z k) (1 # 2) = true)
    by (apply Qltb_true; Lqa.lra).
  now rewrite H.
Qed.

(** The nearest integer is at most one half away. *)
Lemma round_half_even_near (q : Q) :
  Qabs (inject_Z (Py.round_half_even q) - q) <= 1 # 2.
Proof.
  unfold Py.round_half_even.
  pose proof (Qfloor_le q) as Hlo. pose proof (Qlt_floor q) as Hhi.
  rewrite inject_Z_plus in Hhi. change (inject_Z 1) with 1 in Hhi.
  apply Qabs_Qle_condition.
  destruct (Py.Qltb (q - inject_Z (Qfloor q)) (1 # 2)) eqn:E1.
  - apply Qltb_true in E1. Lqa.lra.
  - assert (H1 : ~ q - inject_Z (Qfloor q) < 1 # 2)
      by (rewrite <- Qltb_true; congruence).
    destruct (Py.Qltb (1 # 2) (q - inject_Z (Qfloor q))) eqn:E2.
    + rewrite inject_Z_plus. change (inject_Z 1) with 1. Lqa.lra.
    + assert (H2 : ~ (1 # 2) < q - inject_Z (Qfloor q))
        by (rewrite <- Qltb_true; congruence).
      destruct (Z.even (Qfloor q));
        [|rewrite inject_Z_plus; change (inject_Z 1) with 1]; Lqa.lra.
Qed.

Lemma round3_fixed (x : Q) (k : Z) :
  x == inject_Z k / 1000 -> Py.round3 x = inject_Z k / 1000.
Proof.
  intros H. unfold Py.round3.
  rewrite (round_half_even_comp (x * 1000) (inject_Z k)).
  - now rewrite round_half_even_Z.
  - rewrite H. field.
Qed.

Lemma round3_plus_0 (q : Q) : Py.round3 (Py.round3 q + 0) = Py.round3 q.
Proof.
  unfold Py.round3 at 2 3. apply round3_fixed. Lqa.lra.
Qed.

(** X22. Rounding to three decimals, as the exporter applies it to limits,
    pivots and axes: the result is within 0.0005 of the value, and rounding
    a rounded value changes nothing. *)
Theorem round3_spec (q : Q) :
  Qabs (Py.round3 q - q) <= 1 # 2000 /\
  Py.round3 (Py.round3 q) = Py.round3 q.
Proof.
  split.
  - pose proof (round_half_even_near (q * 1000)) as H.
    apply Qabs_Qle_condition in H. apply Qabs_Qle_condition.
    unfold Py.round3.
    set (k := inject_Z (Py.round_half_even (q * 1000))) in *.
    assert (Hk : k / 1000 == k * (1 # 1000)) by field.
    rewrite Hk. Lqa.lra.
  - unfold Py.round3 at 2 3. apply round3_fixed. reflexivity.
Qed.


Lemma round3_idem (q : Q) : Py.round3 (Py.round3 q) = Py.round3 q.
Proof. unfold Py.round3 at 2 3. apply round3_fixed. reflexivity. Qed.

Lemma round3_plus_zero (q off : Q) :
  off == 0 -> Py.round3 (Py.round3 q + off) = Py.round3 q.
Proof.
  intros H. unfold Py.round3 at 2 3. apply round3_fixed. rewrite H. Lqa.lra.
Qed.

(** X23. Export, legacy import, export again, for the part of the record
    that [assign_joint_params] writes.  The exported record, with whatever
    offset the exporter has added to it, is loaded into a new constraint of
    the type the loader picks (no limit switched on, the springs of its x
    and z axes off); the loader returns, and exporting the loaded constraint
    gives the first record with the bounds of a revolute or spring joint
    moved by the offset the loader applied and rounded again.  So the
    second export repeats the first when that offset is zero (no offset in
    the document, offsets ignored, or pivots adjusted), and for fixed,
    point, continuous and prismatic joints whatever the offset. *)
Theorem export_import_export (sc : scene_options) (c c0 : constraint)
    (p0 : joint_props) (jd : joint_data) (o : option Q) :
  assign_joint_params c JointTemplate = Ok jd ->
  type c0 = get_blender_joint_type jd ->
  no_limit_flag c0 ->
  use_spring (lin_x c0) = false -> use_spring (ang_z c0) = false ->
  exists c' p',
    set_blender_constraint_params sc (set_offset o jd) c0 p0 = Ok (c', p') /\
    assign_joint_params c' JointTemplate
      = Ok (moved_limits
              (if adjust_joint_pivots sc then 0
               else get_joint_offset_angle sc (set_offset o jd)) jd) /\
    ((if adjust_joint_pivots sc then 0
      else get_joint_offset_angle sc (set_offset o jd)) == 0 ->
     assign_joint_params c' JointTemplate = Ok jd) /\
    (jd_type jd ∈ [Some "fixed"; Some "p2p"; Some "continuous"; Some "prismatic"]%string ->
     assign_joint_params c' JointTemplate = Ok jd).
Proof.
  destruct c0 as [t0 [v1 ? ? w1 ? ?] [v2 ? ? w2 ? ?] [v3 ? ? w3 ? ?]
                     [v4 ? ? w4 ? ?] [v5 ? ? w5 ? ?] [v6 ? ? w6 ? ?]].
  unfold no_limit_flag. cbn [type lin_x lin_y lin_z ang_x ang_y ang_z use_limit use_spring].
  intros H Ht (-> & -> & -> & -> & -> & ->) -> ->. subst t0. revert H.
  set (off := if adjust_joint_pivots sc then 0
              else get_joint_offset_angle sc (set_offset o jd)).
  assert (Hoff : forall jd', (if adjust_joint_pivots sc then 0
                              else get_joint_offset_angle sc (set_offset o jd')) = off).
  { intros jd'. reflexivity. }
  clearbody off.
  split_flags c. unfold assign_joint_params at 1.
  destruct t; run_code; try discriminate.
  all: intros [= <-].
  all: unfold set_blender_constraint_params, get_blender_joint_type, load_limits.
  all: cbn [jd_type jd_joint_limits jd_controller jd_damping jd_stiffness
            set_type set_spring set_joint_limits set_offset JointTemplate getitem
            low high].
  all: rewrite ?bind_Ok; eval_literals.
  all: rewrite ?(Hoff (set_joint_limits _ _)).
  all: eexists _, _; (split; [reflexivity|]).
  all: unfold assign_joint_params, load_spring, limit_branch, spring_branch, moved_limits;
       cbn [type lin_x lin_y lin_z ang_x ang_y ang_z use_limit use_spring
            limit_lower limit_upper spring_damping spring_stiffness
            set_ang_z set_lin_x with_limits with_damping with_stiffness
            jd_type jd_joint_limits jd_damping jd_stiffness
            set_type set_spring set_joint_limits set_offset JointTemplate
            getitem getlocal
            low high fst snd fmap option_fmap option_map];
       rewrite ?bind_Ok; eval_literals.
  all: rewrite ?round3_idem.
  all: split; [reflexivity|]; split;
       [ intros H0; rewrite ?(round3_plus_zero _ off H0); reflexivity
       | rewrite !elem_of_cons, elem_of_nil; intros Hty;
         first [ reflexivity
               | exfalso;
                 repeat (destruct Hty as [Hty | Hty]; try discriminate Hty);
                 exact Hty ] ].
Qed.

Lemma export_import_export_witness :
  exists jd c' p',
    assign_joint_params Samples.limited_hinge JointTemplate = Ok jd /\
    set_blender_constraint_params Cases.plain_options (set_offset (Some (1 # 2)) jd)
      (Samples.unconstrained HINGE) Cases.default_props = Ok (c', p') /\
    assign_joint_params c' JointTemplate
      = Ok (moved_limits
              (if adjust_joint_pivots Cases.plain_options then 0
               else get_joint_offset_angle Cases.plain_options
                      (set_offset (Some (1 # 2)) jd)) jd) /\
    jd_joint_limits
      (moved_limits
         (if adjust_joint_pivots Cases.plain_options then 0
          else get_joint_offset_angle Cases.plain_options
                 (set_offset (Some (1 # 2)) jd)) jd)
      = Some (Limits (Some (- 285 # 1000)) (Some (2071 # 1000))) /\
    jd_joint_limits jd = Some (Limits (Some (- 785 # 1000)) (Some (1571 # 1000))).
Proof.
  destruct (export_import_export Cases.plain_options Samples.limited_hinge
              (Samples.unconstrained HINGE) Cases.default_props
              (set_joint_limits
                 (Some (Limits (Some (Py.round3 (- (7854 # 10000))))
                               (Some (Py.round3 (15708 # 10000)))))
                 (set_type "revolute" JointTemplate)) (Some (1 # 2)) eq_refl eq_refl)
    as (c' & p' & Hload & Hagain & _);
    [repeat split; reflexivity | reflexivity | reflexivity |].
  exists (set_joint_limits
            (Some (Limits (Some (Py.round3 (- (7854 # 10000))))
                          (Some (Py.round3 (15708 # 10000)))))
            (set_type "revolute" JointTemplate)), c', p'.
  split; [reflexivity|]. split; [exact Hload|]. split; [exact Hagain|].
  split; reflexivity.
Defined.

End JointParamsFacts.

(** ** The alignment pass and the poses computed after it *)

Module PassFacts.
Import Mathutils Kernel Importer Transforms.
Local Open Scope R_scope.

(** What [adjust_joint] writes into the document. *)
Lemma adjust_joint_record to_axis_angle joint_name jd st st' :
  adjust_joint to_axis_angle joint_name jd st = Ok st' ->
  exists axis,
    get_standard_pivot_and_axis_data jd = Ok (Exporter.XYZ 0 0 0, axis) /\
    joints st' = joints st /\
    ambf_data st' =
      <[joint_name :=
          {| jd_parent := jd_parent jd; jd_child := jd_child jd;
             jd_type := jd_type jd;
             jd_parent_pivot := jd_parent_pivot jd;
             jd_parent_axis := jd_parent_axis jd;
             jd_child_pivot := Some (Exporter.XYZ 0 0 0);
             jd_child_axis := (fun _ => axis) <$> jd_child_axis jd;
             jd_redundant := jd_redundant jd;
             jd_detached := jd_detached jd |}]> (ambf_data st).
Proof.
  unfold adjust_joint.
  destruct (get_parent_pivot_and_axis_data jd) as [pp pa].
  destruct (get_child_pivot_and_axis_data jd) as [cp ca].
  destruct (getitem (jd_child jd) (blender_remapped_body_names st !! jd_child jd))
    as [remapped|]; [rewrite bind_Ok | discriminate].
  destruct (getitem remapped (bpy_objects st !! remapped))
    as [child|]; [rewrite bind_Ok | discriminate].
  destruct (get_standard_pivot_and_axis_data jd) as [[sp sa]|] eqn:Estd;
    [rewrite bind_Ok | discriminate].
  pose proof (ImporterFacts.standard_pivot_zero _ _ _ Estd) as ->.
  repeat match goal with
    | |- (?m ≫= _) = Ok _ -> _ =>
        let E := fresh "E" in
        destruct m as [?|?] eqn:E; [rewrite bind_Ok | discriminate]
    | |- (let '(_, _) := ?p in _) = Ok _ -> _ => destruct p
    end.
  intros [= <-]. cbn [ambf_data joints]. exists sa. repeat split.
Qed.

Lemma Q2R_zero : Q2R 0 = 0.
Proof. unfold Q2R. cbn. lra. Qed.

Lemma invert4_origin :
  invert4 (with_translation Identity4 (Vec 0 0 0)) = Ok Identity4.
Proof.
  unfold invert4, invert3, det3, with_translation, Identity4, Identity3.
  cbn [block translation].
  destruct (decide (1 * (1 * 1 - 0 * 0) - 0 * (0 * 1 - 0 * 0) + 0 * (0 * 0 - 1 * 0) = 0))
    as [H|_]; [exfalso; lra|].
  rewrite bind_Ok. unfold mscale, vscale, mapply, dot. cbn [row0 row1 row2 vx vy vz].
  f_equal. f_equal; [f_equal|]; f_equal; field.
Qed.

Lemma mmul4_Identity4_r (m : Matrix4) : mmul4 m Identity4 = m.
Proof.
  destruct m as [[[a b c] [d e f] [g h i]] [x y z]].
  unfold mmul4, mmul, mrow, mapply, col, dot, vadd, vget, Identity4, Identity3.
  cbn [block translation row0 row1 row2 vx vy vz].
  f_equal; [f_equal|]; f_equal; ring.
Qed.

Lemma Q2R_one : Q2R 1 = 1.
Proof. unfold Q2R. cbn. lra. Qed.

Lemma Rotation3_zero_angle (axis : Vector) : Rotation3 0 axis = Identity3.
Proof.
  unfold Rotation3. destruct (decide (length axis = 0)); [reflexivity|].
  rewrite cos_0, sin_0. unfold Identity3. cbn [vx vy vz vscale].
  f_equal; f_equal; ring.
Qed.

Lemma get_rot_mat_Z_Z :
  get_rot_mat_from_vecs (Vec 0 0 1) (Vec 0 0 1) = Ok (Identity4, 0).
Proof.
  assert (Hu : unit (Vec 0 0 1)) by (unfold unit, dot; cbn; ring).
  destruct (KernelFacts.get_rot_mat_from_vecs_cases _ _ Hu Hu) as (axis & -> & _).
  replace (dot (Vec 0 0 1) (Vec 0 0 1)) with 1 by (unfold dot; cbn; ring).
  rewrite acos_1. unfold Rotation4. now rewrite Rotation3_zero_angle.
Qed.

Lemma invert4_translation (t : Vector) :
  invert4 (Mat4 Identity3 t) = Ok (Mat4 Identity3 (vscale (-1) t)).
Proof.
  unfold invert4, invert3, det3, Identity3. cbn [block translation].
  destruct (decide (1 * (1 * 1 - 0 * 0) - 0 * (0 * 1 - 0 * 0) + 0 * (0 * 0 - 1 * 0) = 0))
    as [H|_]; [exfalso; lra|].
  rewrite bind_Ok. destruct t as [x y z].
  unfold mscale, vscale, mapply, dot. cbn [row0 row1 row2 vx vy vz].
  f_equal. f_equal; [f_equal|]; f_equal; field.
Qed.

Lemma mmul4_Identity4_l (m : Matrix4) : mmul4 Identity4 m = m.
Proof.
  destruct m as [[[a b c] [d e f] [g h i]] [x y z]].
  unfold mmul4, mmul, mrow, mapply, col, dot, vadd, vget, Identity4, Identity3.
  cbn [block translation row0 row1 row2 vx vy vz].
  f_equal; [f_equal|]; f_equal; ring.
Qed.

Lemma vec_of_Z : vec_of (Exporter.XYZ 0 0 1) = Vec 0 0 1.
Proof.
  unfold vec_of. cbn [Exporter.x_of Exporter.y_of Exporter.z_of].
  now rewrite Q2R_zero, Q2R_one.
Qed.

(** The pass on the sample document runs through. *)
Lemma aligned_joint_adjusted :
  exists st',
    adjust_joint Cases.no_residual "JOINT a-b" Cases.aligned_joint Cases.one_joint
    = Ok st'.
Proof.
  eexists. unfold adjust_joint.
  change (get_parent_pivot_and_axis_data Cases.aligned_joint)
    with (Exporter.XYZ 1 0 0, Exporter.XYZ 0 0 1).
  change (get_child_pivot_and_axis_data Cases.aligned_joint)
    with (Exporter.XYZ 1 0 0, Exporter.XYZ 0 0 1).
  cbv beta iota.
  change (jd_child Cases.aligned_joint) with "BODY b"%string.
  assert (H1 : blender_remapped_body_names Cases.one_joint !! "BODY b"%string
               = Some "b"%string).
  { unfold Cases.one_joint. cbn [blender_remapped_body_names].
    rewrite lookup_insert_ne by discriminate. apply lookup_insert_eq. }
  assert (H2 : bpy_objects Cases.one_joint !! "b"%string = Some Samples.cube).
  { unfold Cases.one_joint. cbn [bpy_objects].
    rewrite lookup_insert_ne by discriminate. apply lookup_insert_eq. }
  rewrite H1. cbn [getitem]. rewrite bind_Ok, H2. cbn [getitem]. rewrite bind_Ok.
  assert (H3 : get_standard_pivot_and_axis_data Cases.aligned_joint
               = Ok (Exporter.XYZ 0 0 0, Exporter.XYZ 0 0 1)) by reflexivity.
  rewrite H3, bind_Ok. rewrite !vec_of_Z, get_rot_mat_Z_Z, !bind_Ok.
  unfold with_translation, Identity4 at 1. cbn [block].
  rewrite invert4_translation, bind_Ok.
  destruct (decide (ob_type Samples.cube <> Bodies.OB_EMPTY)) as [_|Hn];
    [|exfalso; apply Hn; discriminate].
  unfold transform at 1. cbn [ob_data Samples.cube]. rewrite !bind_Ok.
  rewrite mmul4_Identity4_l, invert4_translation, bind_Ok.
  unfold alignment_offset, Cases.no_residual. cbn [fst snd].
  destruct (decide (vx (round_vec (Vec 1 0 0)) < 0 \/
                    vy (round_vec (Vec 1 0 0)) < 0 \/
                    vz (round_vec (Vec 1 0 0)) < 0)) as [_|_];
    rewrite ?Ropp_0, Rabs_R0;
    (destruct (decide (1 / 10 < 0)) as [Hlt|_]; [exfalso; lra|]);
    rewrite bind_Ok; reflexivity.
Qed.

(** X20. After a joint has been adjusted, the pose computed for the child
    is the pose computed for the joint: for a joint whose record carries a
    ['child axis'], the record left by [adjust_joint] gives
    [get_child_in_parent_transform] and [get_joint_in_parent_transform] the
    same result (value or exception) for every parent pose and offset. *)
Theorem child_pose_is_joint_pose to_axis_angle joint_name jd st st' :
  adjust_joint to_axis_angle joint_name jd st = Ok st' ->
  is_Some (jd_child_axis jd) ->
  exists jd',
    ambf_data st' !! joint_name = Some jd' /\
    forall st2 T_p_w offset_angle,
      get_child_in_parent_transform st2 T_p_w offset_angle jd'
      = get_joint_in_parent_transform st2 T_p_w offset_angle jd'.
Proof.
  intros H [ca Hca].
  destruct (adjust_joint_record _ _ _ _ _ H) as (axis & Hstd & _ & Hdoc).
  eexists. split; [rewrite Hdoc; apply lookup_insert_eq|].
  intros st2 T off. rewrite Hca. cbn [fmap option_fmap option_map].
  unfold get_child_in_parent_transform, get_joint_in_parent_transform.
  assert (Hstd' : forall r,
            get_standard_pivot_and_axis_data
              {| jd_parent := jd_parent jd; jd_child := jd_child jd;
                 jd_type := jd_type jd;
                 jd_parent_pivot := jd_parent_pivot jd;
                 jd_parent_axis := jd_parent_axis jd;
                 jd_child_pivot := Some (Exporter.XYZ 0 0 0);
                 jd_child_axis := Some axis;
                 jd_redundant := jd_redundant jd;
                 jd_detached := jd_detached jd |} = r ->
            r = Ok (Exporter.XYZ 0 0 0, axis)).
  { intros r <-. exact Hstd. }
  unfold get_parent_pivot_and_axis_data, get_child_pivot_and_axis_data.
  cbn [jd_parent_pivot jd_parent_axis jd_child_pivot jd_child_axis jd_parent default].
  unfold Datatypes.id.
  rewrite (Hstd' _ eq_refl), bind_Ok.
  match goal with
  | |- context [get_rot_mat_from_vecs ?a ?b] =>
      destruct (get_rot_mat_from_vecs a b) as [[R_c_p ang]|e];
        [rewrite !bind_Ok | reflexivity]
  end.
  unfold vec_of at 3. cbn [Exporter.x_of Exporter.y_of Exporter.z_of].
  rewrite Q2R_zero, invert4_origin, bind_Ok.
  destruct (getitem (jd_parent jd) (body_T_j_c st2 !! jd_parent jd)) as [m|e];
    [rewrite !bind_Ok | reflexivity].
  now rewrite mmul4_Identity4_r.
Qed.


Lemma child_pose_is_joint_pose_witness :
  exists st' jd',
    adjust_joint Cases.no_residual "JOINT a-b" Cases.aligned_joint Cases.one_joint
      = Ok st' /\
    ambf_data st' !! "JOINT a-b"%string = Some jd' /\
    forall st2 T_p_w offset_angle,
      get_child_in_parent_transform st2 T_p_w offset_angle jd'
      = get_joint_in_parent_transform st2 T_p_w offset_angle jd'.
Proof.
  destruct aligned_joint_adjusted as [st' H].
  destruct (child_pose_is_joint_pose Cases.no_residual "JOINT a-b"
              Cases.aligned_joint Cases.one_joint st' H)
    as (jd' & H1 & H2); [cbn; eauto|].
  exists st', jd'. auto.
Defined.

(** The loop over documents none of whose listed joints is detached. *)
Lemma adjust_loop_all to_axis_angle (names : list string) :
  forall st st',
    (forall n jd, n ∈ names -> ambf_data st !! n = Some jd ->
                  is_detached_joint jd = false) ->
    adjust_loop to_axis_angle names st = Ok st' ->
    joints st' = joints st /\
    forall n jd, ambf_data st !! n = Some jd ->
      exists jd',
        ambf_data st' !! n = Some jd' /\
        is_detached_joint jd' = is_detached_joint jd /\
        (jd_child_pivot jd = None -> jd' = jd) /\
        (n ∉ names -> jd' = jd) /\
        (jd_child_pivot jd = Some (Exporter.XYZ 0 0 0) ->
         jd_child_pivot jd' = Some (Exporter.XYZ 0 0 0)) /\
        (n ∈ names -> is_Some (jd_child_pivot jd) ->
         jd_child_pivot jd' = Some (Exporter.XYZ 0 0 0)).
Proof.
  induction names as [|m rest IH]; intros st st' Hdet Hrun.
  - cbn in Hrun. injection Hrun as <-. split; [reflexivity|].
    intros n jd Hn. exists jd. repeat split; try tauto.
    intros Hin. now apply elem_of_nil in Hin.
  - cbn [adjust_loop] in Hrun.
    destruct (ambf_data st !! m) as [jdm|] eqn:Em; [|discriminate].
    cbn [getitem] in Hrun. rewrite bind_Ok in Hrun.
    case_bool_decide as Hp.
    + rewrite (Hdet m jdm) in Hrun; [|left|exact Em].
      destruct (adjust_joint to_axis_angle m jdm st) as [st1|e] eqn:E1;
        [rewrite bind_Ok in Hrun | discriminate].
      destruct (adjust_joint_record _ _ _ _ _ E1) as (axis & _ & Hj & Hdoc).
      destruct (IH st1 st') as [Hjs Hall]; [|exact Hrun|].
      { intros n jd Hn. rewrite Hdoc.
        destruct (decide (n = m)) as [->|Hne].
        - rewrite lookup_insert_eq. intros [= <-].
          rewrite <- (Hdet m jdm); [reflexivity | left | exact Em].
        - rewrite lookup_insert_ne by congruence. intros Hl.
          apply (Hdet n jd); [now right | exact Hl]. }
      split; [congruence|].
      intros n jd Hn. destruct (decide (n = m)) as [->|Hne].
      * assert (jd = jdm) as -> by congruence.
        edestruct (Hall m) as (jd' & H1 & H2 & _ & _ & H5 & _).
        { rewrite Hdoc. apply lookup_insert_eq. }
        exists jd'. split; [exact H1|]. split; [exact H2|].
        split; [intros Hnone; rewrite Hnone in Hp; now destruct Hp|].
        split; [intros Hnot; exfalso; apply Hnot; left|].
        split; intros; now apply H5.
      * edestruct (Hall n jd) as (jd' & H1 & H2 & H3 & H4 & H5 & H6).
        { rewrite Hdoc. now rewrite lookup_insert_ne by congruence. }
        exists jd'. repeat split; try assumption.
        -- intros Hnot. apply H4. intros Hin. apply Hnot. now right.
        -- intros Hin. apply H6. apply elem_of_cons in Hin. tauto.
    + destruct (IH st st') as [Hjs Hall]; [|exact Hrun|].
      { intros n jd Hn. apply Hdet. now right. }
      split; [exact Hjs|].
      intros n jd Hn. destruct (Hall n jd Hn) as (jd' & H1 & H2 & H3 & H4 & H5 & H6).
      exists jd'. repeat split; try assumption.
      * intros Hnot. apply H4. intros Hin. apply Hnot. now right.
      * intros Hin Hsome. apply elem_of_cons in Hin. destruct Hin as [->|Hin];
          [|now apply H6].
        assert (jd = jdm) as -> by congruence. contradiction.
Qed.

(** X21. When no listed joint is detached, a pass that returns has gone
    through the whole list: every listed joint that carried a child pivot
    has it at the origin afterwards, joints without a child pivot and joints
    that are not listed keep their records, and the list of joints is
    unchanged. *)
Theorem pass_without_detached_joints to_axis_angle (st st' : loader) :
  (forall n jd, n ∈ joints st -> ambf_data st !! n = Some jd ->
                is_detached_joint jd = false) ->
  adjust_body_pivots_and_axis to_axis_angle st = Ok st' ->
  joints st' = joints st /\
  forall n jd, ambf_data st !! n = Some jd ->
    exists jd',
      ambf_data st' !! n = Some jd' /\
      (n ∈ joints st -> is_Some (jd_child_pivot jd) ->
       jd_child_pivot jd' = Some (Exporter.XYZ 0 0 0)) /\
      (jd_child_pivot jd = None \/ n ∉ joints st -> jd' = jd).
Proof.
  intros Hdet Hrun. unfold adjust_body_pivots_and_axis in Hrun.
  destruct (adjust_loop_all _ _ _ _ Hdet Hrun) as [Hj Hall].
  split; [exact Hj|]. intros n jd Hn.
  destruct (Hall n jd Hn) as (jd' & H1 & _ & H3 & H4 & _ & H6).
  exists jd'. split; [exact H1|]. split; [exact H6|]. tauto.
Qed.

Lemma pass_without_detached_joints_witness :
  exists st',
    adjust_body_pivots_and_axis Cases.no_residual Cases.one_joint = Ok st' /\
    joints st' = joints Cases.one_joint /\
    forall n jd, ambf_data Cases.one_joint !! n = Some jd ->
      exists jd',
        ambf_data st' !! n = Some jd' /\
        (n ∈ joints Cases.one_joint -> is_Some (jd_child_pivot jd) ->
         jd_child_pivot jd' = Some (Exporter.XYZ 0 0 0)) /\
        (jd_child_pivot jd = None \/ n ∉ joints Cases.one_joint -> jd' = jd).
Proof.
  destruct aligned_joint_adjusted as [st' H].
  assert (Hl : ambf_data Cases.one_joint !! "JOINT a-b"%string
               = Some Cases.aligned_joint) by apply lookup_insert_eq.
  assert (Hrun : adjust_body_pivots_and_axis Cases.no_residual Cases.one_joint = Ok st').
  { unfold adjust_body_pivots_and_axis. cbn [joints Cases.one_joint].
    rewrite (ImporterFacts.adjust_loop_step _ _ _ _ Cases.aligned_joint);
      [|exact Hl|cbn; eauto|reflexivity].
    rewrite H, bind_Ok. reflexivity. }
  exists st'. split; [exact Hrun|].
  apply (pass_without_detached_joints Cases.no_residual Cases.one_joint st');
    [|exact Hrun].
  intros n jd Hin. cbn [joints Cases.one_joint] in Hin.
  apply elem_of_cons in Hin as [->|Hin]; [|now apply elem_of_nil in Hin].
  rewrite Hl. now intros [= <-].
Defined.

End PassFacts.

(** ** The root above an object *)

Module TreeMore.
Import Tree.

Lemma get_grand_parent_mono (sc : scene) (fuel : nat) :
  forall o r fuel',
    get_grand_parent fuel sc o = Ok r -> (fuel <= fuel')%nat ->
    get_grand_parent fuel' sc o = Ok r.
Proof.
  induction fuel as [|fuel IH]; intros o r fuel' H Hle; [discriminate|].
  destruct fuel' as [|fuel']; [lia|]. cbn in *.
  destruct (parent sc o) as [p|]; [|exact H].
  apply (IH p r fuel' H). lia.
Qed.

(** X24. Where [get_grand_parent] returns, the result has no parent and is
    the object itself or one of its proper ancestors; asked again from the
    result, or from the object with a larger bound on the loop, it returns
    the same object. *)
Theorem get_grand_parent_root (sc : scene) (fuel o r : nat) :
  get_grand_parent fuel sc o = Ok r ->
  parent sc r = None /\
  (r = o \/ ancestor sc r o) /\
  get_grand_parent fuel sc r = Ok r /\
  forall fuel', (fuel <= fuel')%nat -> get_grand_parent fuel' sc o = Ok r.
Proof.
  intros H. split; [|split; [|split]].
  - revert o H. induction fuel as [|fuel IH]; intros o H; [discriminate|].
    cbn in H. destruct (parent sc o) as [p|] eqn:E; [now apply (IH p)|].
    now injection H as <-.
  - revert o H. induction fuel as [|fuel IH]; intros o H; [discriminate|].
    cbn in H. destruct (parent sc o) as [p|] eqn:E.
    + right. destruct (IH p H) as [-> | Ha];
        [now apply ancestor_parent | eapply ancestor_step; eauto].
    + left. now injection H as <-.
  - assert (Hr : parent sc r = None).
    { revert o H. induction fuel as [|fuel IH]; intros o H; [discriminate|].
      cbn in H. destruct (parent sc o) as [p|] eqn:E; [now apply (IH p)|].
      now injection H as <-. }
    destruct fuel as [|fuel]; [discriminate|]. cbn. now rewrite Hr.
  - intros fuel' Hle. now apply (get_grand_parent_mono sc fuel).
Qed.

Lemma get_grand_parent_root_witness :
  get_grand_parent 6 Samples.two_trees 2 = Ok 0%nat /\
  parent Samples.two_trees 0 = None /\
  (0%nat = 2%nat \/ ancestor Samples.two_trees 0 2) /\
  get_grand_parent 6 Samples.two_trees 0 = Ok 0%nat /\
  forall fuel', (6 <= fuel')%nat -> get_grand_parent fuel' Samples.two_trees 2 = Ok 0%nat.
Proof.
  split; [reflexivity|].
  apply (get_grand_parent_root Samples.two_trees 6 2 0). reflexivity.
Defined.

(** X25. The loop of [get_grand_parent] ends exactly when the parent chain
    of the object reaches an object without parent: some bound on the loop
    lets it return if and only if the object has a depth; on a chain that
    never ends (a cycle) no bound is enough. *)
Theorem get_grand_parent_terminates (sc : scene) (o : nat) :
  ((exists fuel r, get_grand_parent fuel sc o = Ok r) <-> exists n, depth sc o n) /\
  ((forall n, ~ depth sc o n) ->
   forall fuel, get_grand_parent fuel sc o = Raise OutOfFuel).
Proof.
  assert (Hto : forall fuel o r, get_grand_parent fuel sc o = Ok r ->
                  exists n, depth sc o n).
  { intros fuel. induction fuel as [|fuel IH]; intros o' r H; [discriminate|].
    cbn in H. destruct (parent sc o') as [p|] eqn:E.
    - destruct (IH p r H) as [n Hn]. exists (S n). eapply depth_child; eauto.
    - exists 0%nat. now apply depth_root. }
  assert (Hexn : forall fuel o, exists x, get_grand_parent fuel sc o = x /\
                   (x = Raise OutOfFuel \/ exists r, x = Ok r)).
  { intros fuel. induction fuel as [|fuel IH]; intros o'; cbn.
    - eexists; split; [reflexivity | now left].
    - destruct (parent sc o'); [apply IH|].
      eexists; split; [reflexivity | right; eauto]. }
  split; [split|].
  - intros (fuel & r & H). eapply Hto; eauto.
  - intros [n Hd]. induction Hd as [o' Hr | o' p n Hp Hd IH].
    + exists 1%nat, o'. cbn. now rewrite Hr.
    + destruct IH as (fuel & r & H). exists (S fuel), r. cbn. now rewrite Hp.
  - intros Hno fuel. destruct (Hexn fuel o) as (x & Hx & [-> | [r ->]]); [exact Hx|].
    exfalso. destruct (Hto fuel o r Hx) as [n Hn]. exact (Hno n Hn).
Qed.

End TreeMore.

(** ** Collision geometry of a solid of revolution *)

Module ShapeMore.
Import Shape ShapeFacts.
Local Open Scope Q_scope.

Lemma Qabs_self (a : Q) : Qabs (a - a) == 0.
Proof. apply Qabs_case; intros; Lqa.lra. Qed.

Lemma Qabs_swap (a h : Q) : Qabs (h - a) == Qabs (a - h).
Proof. do 2 (apply Qabs_case; intros); Lqa.lra. Qed.

Lemma Qabs_diff_pos (a h : Q) : ~ a == h -> 0 < Qabs (a - h).
Proof.
  intros H. apply Qabs_case; intros H1.
  - destruct (Qlt_le_dec 0 (a - h)); [assumption|]. exfalso. apply H. Lqa.lra.
  - destruct (Qlt_le_dec 0 (- (a - h))); [assumption|]. exfalso. apply H. Lqa.lra.
Qed.

Lemma axial_geometry_z (a h : Q) :
  ~ a == h -> axial_geometry (a, a, h) = Some (GeoAxial (a / 2) h "z").
Proof.
  intros H. pose proof (Qabs_diff_pos a h H) as Hpos.
  pose proof (Qabs_self a) as H0. pose proof (Qabs_swap a h) as Hs.
  unfold axial_geometry, get_median_axis, get_major_axis, get_minor_axis, sum_diff.
  set (s0 := Qabs (a - a) + Qabs (a - h)).
  set (s2 := Qabs (h - a) + Qabs (h - a)).
  assert (H02 : s0 < s2) by (unfold s0, s2; Lqa.lra).
  clearbody s0 s2.
  unfold qmax, qmin, qindex, zmax, zindex, Py.Qltb. cbn.
  by_cases. all: reflexivity.
Qed.

Lemma axial_geometry_y (a h : Q) :
  ~ a == h -> axial_geometry (a, h, a) = Some (GeoAxial (a / 2) h "y").
Proof.
  intros H. pose proof (Qabs_diff_pos a h H) as Hpos.
  pose proof (Qabs_self a) as H0. pose proof (Qabs_swap a h) as Hs.
  unfold axial_geometry, get_median_axis, get_major_axis, get_minor_axis, sum_diff.
  set (s0 := Qabs (a - h) + Qabs (a - a)).
  set (s1 := Qabs (h - a) + Qabs (h - a)).
  set (s2 := Qabs (a - a) + Qabs (a - h)).
  assert (H01 : s0 < s1) by (unfold s0, s1; Lqa.lra).
  assert (H02 : s0 == s2) by (unfold s0, s2; Lqa.lra).
  clearbody s0 s1 s2.
  unfold qmax, qmin, qindex, zmax, zindex, Py.Qltb. cbn.
  by_cases. all: reflexivity.
Qed.

Lemma axial_geometry_x (a h : Q) :
  ~ a == h -> axial_geometry (h, a, a) = Some (GeoAxial (a / 2) h "x").
Proof.
  intros H. pose proof (Qabs_diff_pos a h H) as Hpos.
  pose proof (Qabs_self a) as H0. pose proof (Qabs_swap a h) as Hs.
  unfold axial_geometry, get_median_axis, get_major_axis, get_minor_axis, sum_diff.
  set (s0 := Qabs (h - a) + Qabs (h - a)).
  set (s1 := Qabs (a - h) + Qabs (a - a)).
  set (s2 := Qabs (a - h) + Qabs (a - a)).
  assert (H01 : s1 < s0) by (unfold s0, s1; Lqa.lra).
  assert (H12 : s1 == s2) by (unfold s1, s2; Lqa.lra).
  clearbody s0 s1 s2.
  unfold qmax, qmin, qindex, zmax, zindex, Py.Qltb. cbn.
  by_cases. all: reflexivity.
Qed.

(** X28. Cylinder, capsule and cone of a solid of revolution: when two of
    the rounded dimensions are equal and the third differs, the exported
    geometry has the axis of the third dimension, that dimension as height
    and half the common dimension as radius, whether the solid is long or
    flat. *)
Theorem geometry_of_revolution (ocs : collision_shape) (a h : Q) :
  ocs ∈ [CYLINDER; CAPSULE; CONE] ->
  ~ Py.round3 a == Py.round3 h ->
  derive_collision_geometry ocs (a, a, h)
    = Some (Some (GeoAxial (Py.round3 a / 2) (Py.round3 h) "z")) /\
  derive_collision_geometry ocs (a, h, a)
    = Some (Some (GeoAxial (Py.round3 a / 2) (Py.round3 h) "y")) /\
  derive_collision_geometry ocs (h, a, a)
    = Some (Some (GeoAxial (Py.round3 a / 2) (Py.round3 h) "x")).
Proof.
  intros Hocs Hne.
  assert (Hax : forall d, derive_collision_geometry ocs d
                          = Some <$> axial_geometry (rounded_dims d)).
  { intros d. rewrite !elem_of_cons, elem_of_nil in Hocs.
    destruct Hocs as [-> | [-> | [-> | []]]]; reflexivity. }
  rewrite !Hax. unfold rounded_dims.
  rewrite axial_geometry_z, axial_geometry_y, axial_geometry_x by exact Hne.
  repeat split.
Qed.

Lemma geometry_of_revolution_witness :
  derive_collision_geometry CYLINDER (2, 2, 1 # 2)
    = Some (Some (GeoAxial (Py.round3 2 / 2) (Py.round3 (1 # 2)) "z")) /\
  derive_collision_geometry CYLINDER (2, 1 # 2, 2)
    = Some (Some (GeoAxial (Py.round3 2 / 2) (Py.round3 (1 # 2)) "y")) /\
  derive_collision_geometry CYLINDER (1 # 2, 2, 2)
    = Some (Some (GeoAxial (Py.round3 2 / 2) (Py.round3 (1 # 2)) "x")).
Proof.
  apply (geometry_of_revolution CYLINDER 2 (1 # 2)).
  - rewrite !elem_of_cons. tauto.
  - vm_compute. discriminate.
Defined.

End ShapeMore.

(** ** The centre of the bounding box *)

Module ComFacts.
Import Com.
Local Open Scope Q_scope.

Lemma Qltb_false (x y : Q) : Py.Qltb x y = false -> y <= x.
Proof.
  intros H. destruct (Qlt_le_dec x y) as [Hlt|Hle]; [|exact Hle].
  apply JointParamsFacts.Qltb_true in Hlt. congruence.
Qed.

Lemma max_from_spec (l : list Q) :
  forall m, Py.max_from Py.Qltb m l ∈ m :: l /\
            forall x, x ∈ m :: l -> x <= Py.max_from Py.Qltb m l.
Proof.
  induction l as [|y l IH]; intros m; cbn [Py.max_from].
  - split; [left|]. intros x Hx. apply elem_of_cons in Hx as [->|Hx];
      [Lqa.lra | now apply elem_of_nil in Hx].
  - destruct (IH (if Py.Qltb m y then y else m)) as [Hin Hge].
    assert (Hm : m <= (if Py.Qltb m y then y else m) /\
                 y <= (if Py.Qltb m y then y else m)).
    { destruct (Py.Qltb m y) eqn:E.
      - apply JointParamsFacts.Qltb_true in E. split; Lqa.lra.
      - apply Qltb_false in E. split; Lqa.lra. }
    split.
    + apply elem_of_cons in Hin as [Hin|Hin].
      * rewrite Hin. destruct (Py.Qltb m y); [right; left | left].
      * right; now right.
    + intros x Hx.
      assert (Htop : (if Py.Qltb m y then y else m)
                     <= Py.max_from Py.Qltb (if Py.Qltb m y then y else m) l)
        by (apply Hge; left).
      apply elem_of_cons in Hx as [->|Hx]; [Lqa.lra|].
      apply elem_of_cons in Hx as [->|Hx]; [Lqa.lra|].
      apply Hge. now right.
Qed.

Lemma min_from_spec (l : list Q) :
  forall m, Py.min_from Py.Qltb m l ∈ m :: l /\
            forall x, x ∈ m :: l -> Py.min_from Py.Qltb m l <= x.
Proof.
  induction l as [|y l IH]; intros m; cbn [Py.min_from].
  - split; [left|]. intros x Hx. apply elem_of_cons in Hx as [->|Hx];
      [Lqa.lra | now apply elem_of_nil in Hx].
  - destruct (IH (if Py.Qltb y m then y else m)) as [Hin Hle].
    assert (Hm : (if Py.Qltb y m then y else m) <= m /\
                 (if Py.Qltb y m then y else m) <= y).
    { destruct (Py.Qltb y m) eqn:E.
      - apply JointParamsFacts.Qltb_true in E. split; Lqa.lra.
      - apply Qltb_false in E. split; Lqa.lra. }
    split.
    + apply elem_of_cons in Hin as [Hin|Hin].
      * rewrite Hin. destruct (Py.Qltb y m); [right; left | left].
      * right; now right.
    + intros x Hx.
      assert (Hbot : Py.min_from Py.Qltb (if Py.Qltb y m then y else m) l
                     <= (if Py.Qltb y m then y else m))
        by (apply Hle; left).
      apply elem_of_cons in Hx as [->|Hx]; [Lqa.lra|].
      apply elem_of_cons in Hx as [->|Hx]; [Lqa.lra|].
      apply Hle. now right.
Qed.

(** The centre of a non-empty list: the mean of a least and a greatest
    item. *)
Lemma find_center_spec (l : list Q) :
  l <> [] ->
  exists lo hi,
    find_center l = Some ((hi + lo) / 2) /\ lo ∈ l /\ hi ∈ l /\
    forall x, x ∈ l -> lo <= x <= hi.
Proof.
  destruct l as [|m l]; [congruence|]. intros _.
  destruct (max_from_spec l m) as [H1 H2]. destruct (min_from_spec l m) as [H3 H4].
  exists (Py.min_from Py.Qltb m l), (Py.max_from Py.Qltb m l).
  split; [reflexivity|]. repeat split; auto.
Qed.

(** X29. [compute_local_com] is the centre of the bounding box, not of the
    mass: for a mesh with at least one vertex it returns, per axis, the mean
    of the least and the greatest vertex coordinate (both attained, and
    every vertex lies between them), multiplied by the object's scale; for
    a mesh without vertices it raises. *)
Theorem compute_local_com_spec (vcos : list coords) (scale : coords) :
  (vcos = [] -> compute_local_com vcos scale = None) /\
  (vcos <> [] ->
   exists lo hi : coords,
     compute_local_com vcos scale
       = Some ((co 0 hi + co 0 lo) / 2 * co 0 scale,
               (co 1 hi + co 1 lo) / 2 * co 1 scale,
               (co 2 hi + co 2 lo) / 2 * co 2 scale) /\
     forall i, (i < 3)%nat ->
       (exists v, v ∈ vcos /\ co i v = co i lo) /\
       (exists v, v ∈ vcos /\ co i v = co i hi) /\
       forall v, v ∈ vcos -> co i lo <= co i v <= co i hi).
Proof.
  split; [intros ->; reflexivity|]. intros Hne.
  assert (Hax : forall i, exists lo hi,
            find_center (co i <$> vcos) = Some ((hi + lo) / 2) /\
            (exists v, v ∈ vcos /\ co i v = lo) /\
            (exists v, v ∈ vcos /\ co i v = hi) /\
            forall v, v ∈ vcos -> lo <= co i v <= hi).
  { intros i. destruct (find_center_spec (co i <$> vcos)) as (lo & hi & Hc & Hlo & Hhi & Hall).
    { destruct vcos; [congruence | discriminate]. }
    exists lo, hi. split; [exact Hc|].
    apply list_elem_of_fmap in Hlo as (vl & -> & Hvl).
    apply list_elem_of_fmap in Hhi as (vh & -> & Hvh).
    split; [now exists vl|]. split; [now exists vh|].
    intros v Hv. apply Hall. now apply list_elem_of_fmap_2. }
  destruct (Hax 0%nat) as (lx & hx & Hx & Hx1 & Hx2 & Hx3).
  destruct (Hax 1%nat) as (ly & hy & Hy & Hy1 & Hy2 & Hy3).
  destruct (Hax 2%nat) as (lz & hz & Hz & Hz1 & Hz2 & Hz3).
  exists (lx, ly, lz), (hx, hy, hz). split.
  - unfold compute_local_com. rewrite Hx, Hy, Hz. reflexivity.
  - intros [|[|[|i]]] Hi; cbn [co fst snd]; try lia; repeat split; auto;
      try (now apply Hx3); try (now apply Hy3); try (now apply Hz3).
Qed.

End ComFacts.

(** ** The pose of a tilted hinge through export and import *)

Module RoundTripFacts.
Import Mathutils Kernel RoundTrip.
Local Open Scope R_scope.

Lemma lean_sq : lean * lean = 24 / 25.
Proof. unfold lean. apply sqrt_sqrt. lra. Qed.

Lemma lean_bounds : 97 / 100 < lean < 99 / 100.
Proof.
  pose proof lean_sq as H.
  assert (0 <= lean) by (unfold lean; apply sqrt_pos).
  split; nra.
Qed.

Lemma unit_tilt_axis : unit tilt_axis.
Proof.
  unfold unit, dot, tilt_axis. cbn [vx vy vz]. pose proof lean_sq. nra.
Qed.

(** The rotation block of the tilted child, entry by entry. *)
Lemma tilt_block :
  block tilted_child =
    Mat3 (Vec (24 / 1225) (lean / 49 - lean) (24 / 175 + 1 / 7))
         (Vec (lean / 49 + lean) (1 / 49) (lean / 7 - lean / 7))
         (Vec (24 / 175 - 1 / 7) (lean / 7 + lean / 7) (24 / 25)).
Proof.
  unfold tilted_child, Rotation4. cbn [block].
  rewrite (KernelFacts.Rotation3_unit _ _ unit_tilt_axis).
  cbv zeta. rewrite cos_PI2, sin_PI2. unfold tilt_axis. cbn [vx vy vz].
  pose proof lean_sq as H.
  f_equal; f_equal; nra.
Qed.


Lemma unit_seen_axis : unit seen_axis.
Proof. unfold unit, dot, seen_axis. cbn [vx vy vz]. lra. Qed.

Lemma unit_Z : unit (Vec 0 0 1).
Proof. unfold unit, dot. cbn [vx vy vz]. lra. Qed.

Lemma invert3_Identity3 : invert3 Identity3 = Ok Identity3.
Proof.
  unfold invert3, Identity3, det3.
  destruct (decide _) as [H|_]; [lra|].
  unfold mscale, vscale. cbn [row0 row1 row2 vx vy vz].
  do 2 f_equal; f_equal; field.
Qed.

Lemma invert4_Identity4 : invert4 Identity4 = Ok Identity4.
Proof.
  unfold invert4, Identity4. cbn [block translation].
  rewrite invert3_Identity3, bind_Ok. unfold Identity3, mapply, vscale, dot.
  cbn [row0 row1 row2 vx vy vz]. do 2 f_equal. f_equal; ring.
Qed.

Lemma mmul_Identity3_l (m : Matrix3) : mmul Identity3 m = m.
Proof.
  destruct m as [[a b c] [d e f] [g h i]].
  unfold mmul, mrow, col, dot, Identity3, vget. cbn [row0 row1 row2 vx vy vz].
  f_equal; f_equal; ring.
Qed.

Lemma tilt_axis_seen :
  compute_pivot_and_axis Identity4 tilted_child Samples.limited_hinge
  = Ok (Vec 0 0 0, seen_axis).
Proof.
  unfold compute_pivot_and_axis. rewrite invert4_Identity4, bind_Ok.
  rewrite PassFacts.mmul4_Identity4_l.
  unfold Exporter.get_joint_axis. cbn [Exporter.type Samples.limited_hinge].
  unfold getlocal. rewrite bind_Ok. cbv beta iota zeta. rewrite bind_Ok.
  rewrite tilt_block. unfold col, vget, seen_axis, tilted_child, Rotation4.
  cbn [row0 row1 row2 vx vy vz translation]. do 2 f_equal. f_equal; lra.
Qed.


(** *** Rounding to three decimals *)

Lemma Rabs_bounds (x b : R) : Rabs x <= b -> - b <= x <= b.
Proof. unfold Rabs. destruct (Rcase_abs x); lra. Qed.

Lemma Rround_half_even_near (y : R) :
  Rabs (IZR (Rround_half_even y) - y) <= 1 / 2.
Proof.
  unfold Rround_half_even.
  destruct (base_fp y) as [H0 H1].
  assert (Hy : y = IZR (Int_part y) + frac_part y) by (unfold frac_part; ring).
  set (n := Int_part y) in *. set (f := frac_part y) in *.
  destruct (decide (f < 1 / 2)) as [Hlt|Hge].
  - rewrite Hy. apply Rabs_le. lra.
  - assert (Hup : Rabs (IZR (n + 1) - y) <= 1 / 2).
    { rewrite plus_IZR, Hy. apply Rabs_le. lra. }
    destruct (decide (1 / 2 < f)) as [Hgt|Hle]; [exact Hup|].
    destruct (Z.even n); [|exact Hup].
    rewrite Hy. apply Rabs_le. lra.
Qed.

Lemma Q2R_Qround3 (x : R) : Q2R (Qround3 x) = Rround3 x.
Proof. unfold Qround3, Rround3, Q2R. cbn [Qnum Qden]. reflexivity. Qed.

Lemma Rround3_near (x : R) : Rabs (Rround3 x - x) <= 1 / 2000.
Proof.
  unfold Rround3. pose proof (Rround_half_even_near (x * 1000)) as H.
  apply Rabs_bounds in H. apply Rabs_le. lra.
Qed.

Lemma Qround3_exact (k : Z) (x : R) : x * 1000 = IZR k -> Qround3 x = k # 1000.
Proof.
  intros H. unfold Qround3. rewrite H. f_equal.
  unfold Rround_half_even.
  rewrite ImporterFacts.frac_part_IZR, ImporterFacts.Int_part_IZR.
  destruct (decide (0 < 1 / 2)) as [_|Hn]; [reflexivity|lra].
Qed.

(** *** Small angles *)

Lemma sin_small (e : R) : Rabs e <= 1 -> Rabs (sin e) <= Rabs e.
Proof.
  intros He. pose proof PI2_1 as Hpi.
  destruct (Rtotal_order e 0) as [Hneg|[->|Hpos]].
  - rewrite (Rabs_left e) in * by lra.
    assert (H1 : sin (- e) < - e) by (apply sin_lt_x; lra).
    assert (H2 : 0 < sin (- e)) by (apply sin_gt_0; lra).
    rewrite sin_neg in H1, H2. rewrite Rabs_left by lra. lra.
  - rewrite sin_0, Rabs_R0. lra.
  - rewrite (Rabs_right e) in * by lra.
    assert (H1 : sin e < e) by (apply sin_lt_x; lra).
    assert (H2 : 0 < sin e) by (apply sin_gt_0; lra).
    rewrite Rabs_right by lra. lra.
Qed.

(** The cosine of an angle rounded to three decimals, for an angle whose own
    cosine is zero. *)
Lemma cos_rounded_right_angle (theta : R) :
  cos theta = 0 -> Rabs (cos (Rround3 theta)) <= 1 / 2000.
Proof.
  intros Hc. pose proof (Rround3_near theta) as He.
  set (e := Rround3 theta - theta) in *.
  replace (Rround3 theta) with (theta + e) by (unfold e; ring).
  rewrite cos_plus, Hc.
  pose proof (sin2_cos2 theta) as Hs. rewrite Hc in Hs. unfold Rsqr in Hs.
  assert (Hse : Rabs (sin e) <= Rabs e) by (apply sin_small; lra).
  assert (Hs1 : sin theta = 1 \/ sin theta = -1).
  { assert ((sin theta - 1) * (sin theta + 1) = 0) as H0 by nra.
    apply Rmult_integral in H0. destruct H0; [left|right]; lra. }
  apply Rabs_le.
  assert (Hb : - (1 / 2000) <= sin e <= 1 / 2000).
  { apply Rabs_bounds. lra. }
  destruct Hs1 as [-> | ->]; lra.
Qed.

Lemma right_angle_far (theta : R) : cos theta = 0 -> 1 < Rabs theta.
Proof.
  intros Hc. destruct (Rlt_dec 1 (Rabs theta)) as [H|H]; [exact H|].
  exfalso. pose proof PI2_1 as Hpi.
  assert (Hb : -1 <= theta <= 1) by (apply Rabs_bounds; lra).
  assert (0 < cos theta) by (apply cos_gt_0; lra). lra.
Qed.


(** *** The exporter on the tilted hinge *)

Lemma rot_matrix_from_vecs_seen :
  rot_matrix_from_vecs (Vec 0 0 1) seen_axis = Ok Identity3.
Proof.
  unfold rot_matrix_from_vecs.
  rewrite (KernelFacts.angle_unit _ _ unit_Z unit_seen_axis), bind_Ok.
  destruct (decide _) as [_|Hn]; [reflexivity|].
  exfalso. apply Hn. unfold dot, seen_axis. cbn [vx vy vz]. lra.
Qed.

(** Every axis-angle form of the child's rotation is a quarter turn about
    the tilted axis or its opposite. *)
Lemma axis_angle_of_tilt (ax : Vector) (th : R) :
  represents (ax, th) (block tilted_child) ->
  cos th = 0 /\
  ((sin th = 1 /\ vz ax = lean) \/ (sin th = -1 /\ vz ax = - lean)).
Proof.
  intros [Hu Hr]. cbn [fst snd] in Hu, Hr.
  rewrite (KernelFacts.Rotation3_unit _ _ Hu), tilt_block in Hr.
  cbv zeta in Hr.
  injection Hr as H00 H01 H02 H10 H11 H12 H20 H21 H22.
  unfold unit, dot in Hu.
  assert (Hc : cos th = 0).
  { assert ((1 - cos th) * (vx ax * vx ax + vy ax * vy ax + vz ax * vz ax)
            = (1 - cos th) * vx ax * vx ax + (1 - cos th) * vy ax * vy ax
              + (1 - cos th) * vz ax * vz ax) as E by ring.
    rewrite Hu in E. lra. }
  split; [exact Hc|].
  pose proof (sin2_cos2 th) as Hs. rewrite Hc in Hs. unfold Rsqr in Hs.
  assert (Hz : sin th * vz ax = lean) by lra.
  assert (Hs1 : sin th = 1 \/ sin th = -1).
  { assert ((sin th - 1) * (sin th + 1) = 0) as H0 by nra.
    apply Rmult_integral in H0. destruct H0; [left|right]; lra. }
  destruct Hs1 as [E|E]; [left|right]; (split; [exact E|]);
    rewrite E in Hz; lra.
Qed.

Lemma joint_offset_of_tilt (to_axis_angle : Matrix3 -> Vector * R) :
  represents (to_axis_angle (block tilted_child)) (block tilted_child) ->
  cos (to_axis_angle (block tilted_child)).2 = 0 /\
  exists o : Q,
    joint_offset to_axis_angle (Vec 0 0 1) seen_axis Identity4 tilted_child
    = Ok (Some o) /\
    o = (if decide (0 < vz (to_axis_angle (block tilted_child)).1)
         then Qround3 (to_axis_angle (block tilted_child)).2
         else Qopp (Qround3 (to_axis_angle (block tilted_child)).2)).
Proof.
  intros Hrep.
  destruct (to_axis_angle (block tilted_child)) as [ax th] eqn:Eaa.
  destruct (axis_angle_of_tilt ax th Hrep) as [Hc Hz]. cbn [fst snd].
  split; [exact Hc|].
  pose proof (right_angle_far th Hc) as Hfar.
  pose proof lean_bounds as Hl.
  unfold joint_offset.
  rewrite rot_matrix_from_vecs_seen, bind_Ok, invert3_Identity3, bind_Ok.
  change (block Identity4) with Identity3.
  rewrite invert3_Identity3, bind_Ok. cbv zeta.
  rewrite !mmul_Identity3_l, Eaa. cbn [fst snd].
  destruct (decide (1 / 100 < Rabs th)) as [_|Hn]; [|exfalso; lra].
  unfold dot. cbn [vx vy vz].
  destruct Hz as [[_ Hz]|[_ Hz]]; rewrite Hz.
  - exists (Qround3 th).
    split; [|destruct (decide (0 < lean)) as [_|Hn]; [reflexivity|lra]].
    destruct (decide _) as [_|Hn]; [reflexivity|].
    exfalso. apply Hn. apply Rabs_def1; lra.
  - exists (- Qround3 th)%Q.
    split; [|destruct (decide (0 < - lean)) as [Hp|_]; [lra|reflexivity]].
    destruct (decide _) as [Hy|_].
    + exfalso. apply Rabs_def2 in Hy. lra.
    + destruct (decide _) as [_|Hn]; [reflexivity|].
      exfalso. apply Hn. apply Rabs_def1; lra.
Qed.

Lemma assign_limited_hinge (jd : Exporter.joint_data) (l : Exporter.limits) :
  Exporter.jd_joint_limits jd = Some l ->
  Exporter.assign_joint_params Samples.limited_hinge jd
  = Ok (Exporter.set_joint_limits
          (Some (Exporter.Limits (Some (Py.round3 (- (7854 # 10000))))
                                 (Some (Py.round3 (15708 # 10000)))))
          (Exporter.set_type "revolute" jd)).
Proof.
  intros Hl. unfold Exporter.assign_joint_params.
  cbn [Exporter.type Samples.limited_hinge Exporter.ang_z Samples.limited_dof
       Exporter.use_limit Exporter.limit_branch Exporter.set_type
       Exporter.jd_type Exporter.jd_joint_limits getitem].
  rewrite bind_Ok.
  rewrite bool_decide_eq_false_2 by (intros H; repeat (apply elem_of_cons in H as [H|H]; [discriminate|]); now apply elem_of_nil in H).
  rewrite bool_decide_eq_false_2 by discriminate.
  rewrite Hl. cbn [getitem]. rewrite bind_Ok.
  reflexivity.
Qed.


Lemma xyz_of_seen_axis :
  xyz_of seen_axis = Exporter.XYZ (280 # 1000) (0 # 1000) (960 # 1000).
Proof.
  unfold xyz_of, seen_axis. cbn [vx vy vz].
  rewrite (Qround3_exact 280), (Qround3_exact 0), (Qround3_exact 960);
    [reflexivity|lra..].
Qed.

Lemma xyz_of_Z :
  xyz_of (Vec 0 0 1) = Exporter.XYZ (0 # 1000) (0 # 1000) (1000 # 1000).
Proof.
  unfold xyz_of. cbn [vx vy vz].
  rewrite (Qround3_exact 0), (Qround3_exact 1000); [reflexivity|lra..].
Qed.

Lemma xyz_of_origin :
  xyz_of (Vec 0 0 0) = Exporter.XYZ (0 # 1000) (0 # 1000) (0 # 1000).
Proof.
  unfold xyz_of. cbn [vx vy vz].
  rewrite (Qround3_exact 0); [reflexivity|lra].
Qed.

Lemma limited_hinge_limits :
  Py.round3 (- (7854 # 10000)) = (-785 # 1000)%Q /\
  Py.round3 (15708 # 10000) = (1571 # 1000)%Q.
Proof. split; vm_compute; reflexivity. Qed.

Lemma generate_tilted_hinge (to_axis_angle : Matrix3 -> Vector * R) :
  represents (to_axis_angle (block tilted_child)) (block tilted_child) ->
  cos (to_axis_angle (block tilted_child)).2 = 0 /\
  exists o : Q,
    generate_joint_data to_axis_angle "base" "arm" Identity4 tilted_child
      Samples.limited_hinge Cases.default_props
    = Ok (exported_hinge o) /\
    o = (if decide (0 < vz (to_axis_angle (block tilted_child)).1)
         then Qround3 (to_axis_angle (block tilted_child)).2
         else Qopp (Qround3 (to_axis_angle (block tilted_child)).2)).
Proof.
  intros Hrep.
  destruct (joint_offset_of_tilt to_axis_angle Hrep) as [Hc [o [Hoff Ho]]].
  split; [exact Hc|]. exists o. split; [|exact Ho].
  unfold generate_joint_data.
  rewrite tilt_axis_seen, bind_Ok. cbv beta iota.
  unfold Exporter.get_joint_axis at 1.
  cbn [Exporter.type Samples.limited_hinge].
  unfold getlocal. rewrite bind_Ok. cbv beta iota zeta. rewrite bind_Ok.
  cbv beta iota.
  rewrite xyz_of_seen_axis, xyz_of_Z, xyz_of_origin.
  erewrite assign_limited_hinge by reflexivity.
  rewrite bind_Ok, Hoff, bind_Ok.
  destruct limited_hinge_limits as [-> ->].
  reflexivity.
Qed.


(** *** The importer on the exported record *)

Lemma cos_tenth : 99 / 100 < cos (1 / 10).
Proof.
  replace (1 / 10) with (2 * (1 / 20)) by lra.
  rewrite cos_2a_sin.
  pose proof PI2_1 as Hpi.
  assert (H1 : sin (1 / 20) < 1 / 20) by (apply sin_lt_x; lra).
  assert (H2 : 0 < sin (1 / 20)) by (apply sin_gt_0; lra).
  nra.
Qed.

Lemma acos_seen : 1 / 10 < acos (96 / 100) < 313 / 100.
Proof.
  assert (Hr : -1 <= 96 / 100 <= 1) by lra.
  pose proof (acos_bound (96 / 100)) as [Hlo Hhi].
  pose proof (cos_acos _ Hr) as Hcos.
  pose proof PI2_1 as Hpi. pose proof PI_4 as Hpi4.
  split.
  - destruct (Rlt_dec (1 / 10) (acos (96 / 100))) as [H|H]; [exact H|].
    exfalso. pose proof cos_tenth as Ht.
    assert (cos (1 / 10) <= cos (acos (96 / 100))) by (apply cos_decr_1; lra).
    lra.
  - destruct (Rlt_dec (acos (96 / 100)) (PI / 2)) as [H|H]; [lra|].
    exfalso.
    assert (cos (acos (96 / 100)) <= 0) by (apply cos_le_0; lra).
    lra.
Qed.

Lemma sin_acos_seen : sin (acos (96 / 100)) = 28 / 100.
Proof.
  rewrite sin_acos by lra.
  replace (1 - (96 / 100)²) with ((28 / 100)²) by (unfold Rsqr; lra).
  apply sqrt_Rsqr. lra.
Qed.

Lemma entry_as_image (m : Matrix3) : vx (row0 m) = vx (mapply m (Vec 1 0 0)).
Proof. unfold mapply, dot. cbn [vx vy vz]. ring. Qed.

Lemma vec_of_seen_axis :
  Importer.vec_of (Exporter.XYZ (280 # 1000) (0 # 1000) (960 # 1000)) = seen_axis.
Proof.
  unfold Importer.vec_of, seen_axis, Q2R.
  cbn [Exporter.x_of Exporter.y_of Exporter.z_of Qnum Qden]. f_equal; lra.
Qed.

Lemma vec_of_exported_Z :
  Importer.vec_of (Exporter.XYZ (0 # 1000) (0 # 1000) (1000 # 1000)) = Vec 0 0 1.
Proof.
  unfold Importer.vec_of, Q2R.
  cbn [Exporter.x_of Exporter.y_of Exporter.z_of Qnum Qden]. f_equal; lra.
Qed.

Lemma vec_of_exported_origin :
  Importer.vec_of (Exporter.XYZ (0 # 1000) (0 # 1000) (0 # 1000)) = Vec 0 0 0.
Proof.
  unfold Importer.vec_of, Q2R.
  cbn [Exporter.x_of Exporter.y_of Exporter.z_of Qnum Qden]. f_equal; lra.
Qed.

(** The swing of the importer: [get_rot_mat_from_vecs] turns the child's z
    axis onto the parent axis, and the child's x axis with it. *)
Lemma swing_of_seen_axis :
  exists S : Matrix4,
    get_rot_mat_from_vecs (Vec 0 0 1) seen_axis = Ok (S, acos (96 / 100)) /\
    mapply (block S) (Vec 1 0 0) = Vec (96 / 100) 0 (- (28 / 100)).
Proof.
  destruct (KernelFacts.get_rot_mat_from_vecs_cases _ _ unit_Z unit_seen_axis)
    as [axis [Hrun [_ [Hmid _]]]].
  assert (Hdot : dot (Vec 0 0 1) seen_axis = 96 / 100).
  { unfold dot, seen_axis. cbn [vx vy vz]. lra. }
  rewrite Hdot in Hrun, Hmid.
  pose proof acos_seen as Hb.
  assert (Hax : axis = Vec 0 (28 / 100) 0).
  { rewrite Hmid by (rewrite Rabs_right; lra).
    unfold cross, seen_axis. cbn [vx vy vz]. f_equal; lra. }
  subst axis. eexists. split; [exact Hrun|].
  assert (Hlen : length (Vec 0 (28 / 100) 0) = 28 / 100).
  { unfold length, dot. cbn [vx vy vz].
    replace (0 * 0 + 28 / 100 * (28 / 100) + 0 * 0) with ((28 / 100)²)
      by (unfold Rsqr; lra).
    apply sqrt_Rsqr. lra. }
  unfold Rotation4. cbn [block].
  rewrite KernelMore.Rotation3_apply by (rewrite Hlen; lra).
  rewrite Hlen, sin_acos_seen, cos_acos by lra.
  unfold vadd, vscale, cross, dot. cbn [vx vy vz]. f_equal; field.
Qed.

Lemma imported_tilted_hinge (o : Q) :
  exists T : Matrix4,
    imported_child_pose Cases.plain_options two_bodies Identity4
      (exported_hinge o) = Ok T /\
    vx (row0 (block T)) = 96 / 100 * cos (Q2R o).
Proof.
  destruct swing_of_seen_axis as [S [Hrun HS]].
  unfold imported_child_pose, Transforms.get_child_in_parent_transform.
  unfold Importer.get_parent_pivot_and_axis_data,
    Importer.get_child_pivot_and_axis_data, read_joint, exported_hinge.
  cbn [Importer.jd_parent_pivot Importer.jd_parent_axis
       Importer.jd_child_pivot Importer.jd_child_axis Importer.jd_parent
       Exporter.jd_parent_pivot Exporter.jd_parent_axis
       Exporter.jd_child_pivot Exporter.jd_child_axis Exporter.jd_parent
       default from_option Datatypes.id id].
  rewrite vec_of_seen_axis, vec_of_exported_Z, vec_of_exported_origin.
  rewrite Hrun, bind_Ok. cbv beta iota.
  rewrite PassFacts.invert4_origin, bind_Ok.
  unfold JointParams.get_joint_offset_angle.
  cbn [JointParams.ignore_ambf_joint_offsets Cases.plain_options negb
       Exporter.jd_offset].
  unfold two_bodies. cbn [Importer.body_T_j_c].
  rewrite lookup_insert_eq. cbn [getitem]. rewrite bind_Ok.
  eexists. split; [reflexivity|].
  rewrite entry_as_image.
  unfold mmul4. cbn [block].
  rewrite !KernelMore.mapply_mmul.
  change (block (with_translation Identity4 (Vec 0 0 0))) with Identity3.
  change (block Identity4) with Identity3.
  rewrite !KernelMore.mapply_Identity3, HS.
  unfold Rotation4. cbn [block].
  rewrite (KernelFacts.Rotation3_unit _ _ unit_seen_axis). cbv zeta.
  unfold mapply, dot, seen_axis. cbn [row0 vx vy vz]. field.
Qed.


(** *** The pose after the round trip *)

Lemma PI_bounds : 3141 / 1000 < PI < 3142 / 1000.
Proof.
  pose proof (PI_2_3_7_ineq 1) as [Hlo _].
  pose proof (PI_2_3_7_ineq 2) as [_ Hhi].
  unfold PI_2_3_7_tg, tg_alt, Ratan_seq in Hlo, Hhi.
  simpl in Hlo, Hhi. split; lra.
Qed.

Lemma Qround3_quarter_turn : Qround3 (PI / 2) = 1571 # 1000.
Proof.
  pose proof PI_bounds as Hpi.
  unfold Qround3. f_equal. unfold Rround_half_even.
  assert (Hi : Int_part (PI / 2 * 1000) = 1570%Z).
  { symmetry. apply Int_part_spec. lra. }
  assert (Hf : frac_part (PI / 2 * 1000) = PI / 2 * 1000 - 1570).
  { unfold frac_part. rewrite Hi. reflexivity. }
  rewrite Hi, Hf.
  destruct (decide _) as [H|_]; [lra|].
  destruct (decide _) as [_|H]; [reflexivity|lra].
Qed.

Lemma Qround3_nonzero (x : R) : 1 < Rabs x -> ~ (Qround3 x == 0)%Q.
Proof.
  intros Hx Hq. apply Qreals.Qeq_eqR in Hq.
  rewrite Q2R_Qround3 in Hq. rewrite RMicromega.Q2R_0 in Hq.
  pose proof (Rround3_near x) as Hn. rewrite Hq in Hn.
  apply Rabs_bounds in Hn.
  unfold Rabs in Hx. destruct (Rcase_abs x); lra.
Qed.


Lemma cos_exported_offset (theta : R) (o : Q) :
  cos theta = 0 ->
  o = Qround3 theta \/ o = Qopp (Qround3 theta) ->
  Rabs (cos (Q2R o)) <= 1 / 2000 /\ ~ (o == 0)%Q.
Proof.
  intros Hc Ho.
  pose proof (cos_rounded_right_angle theta Hc) as Hb.
  pose proof (Qround3_nonzero theta (right_angle_far theta Hc)) as Hnz.
  destruct Ho as [-> | ->].
  - rewrite Q2R_Qround3. split; [exact Hb|exact Hnz].
  - rewrite Qreals.Q2R_opp, cos_neg, Q2R_Qround3. split; [exact Hb|].
    intros H0. apply Hnz.
    rewrite <- (Qopp_involutive (Qround3 theta)), H0. reflexivity.
Qed.

(** C1.  The pose of a child body does not survive export and import when
    the joint carries an offset angle.  The parent stands at the world
    origin, so the child's world rotation is its rotation relative to the
    parent; the child is turned a quarter turn about the axis
    (sqrt(0.96)/7, 1/7, sqrt(0.96)) and hangs on a limited hinge.  For every
    [to_axis_angle] that returns an axis-angle form of the child's rotation,
    [generate_joint_data] writes the parent axis (0.28, 0, 0.96), which
    needs no rounding, and a non-zero ['offset']: the rounded angle of the
    whole rotation, with the sign of the z component of its axis, because
    [rot_matrix_from_vecs] answers the identity for the dot product 0.96.
    The importer's [get_rot_mat_from_vecs] swings the child's axis by
    acos 0.96 onto the parent axis and [get_child_in_parent_transform]
    twists it by the offset after that: the first entry of the imported
    rotation is at most 0.00048 in size, that of the original rotation is
    24/1225, and the two differ by more than 0.019, about forty times the
    half unit in the third decimal that rounding can account for. *)
Theorem offset_round_trip_fails (to_axis_angle : Matrix3 -> Vector * R) :
  represents (to_axis_angle (block tilted_child)) (block tilted_child) ->
  exists (o : Q) (T : Matrix4),
    generate_joint_data to_axis_angle "base" "arm" Identity4 tilted_child
      Samples.limited_hinge Cases.default_props
    = Ok (exported_hinge o) /\
    o = (if decide (0 < vz (to_axis_angle (block tilted_child)).1)
         then Qround3 (to_axis_angle (block tilted_child)).2
         else Qopp (Qround3 (to_axis_angle (block tilted_child)).2)) /\
    ~ (o == 0)%Q /\
    imported_child_pose Cases.plain_options two_bodies Identity4
      (exported_hinge o) = Ok T /\
    vx (row0 (block tilted_child)) = 24 / 1225 /\
    Rabs (vx (row0 (block T))) <= 48 / 100000 /\
    19 / 1000 < vx (row0 (block tilted_child)) - vx (row0 (block T)).
Proof.
  intros Hrep.
  destruct (generate_tilted_hinge to_axis_angle Hrep) as [Hc [o [Hgen Ho]]].
  destruct (imported_tilted_hinge o) as [T [Himp HT]].
  assert (Hcases : o = Qround3 (to_axis_angle (block tilted_child)).2 \/
                   o = Qopp (Qround3 (to_axis_angle (block tilted_child)).2)).
  { rewrite Ho. destruct (decide _); [now left|now right]. }
  destruct (cos_exported_offset _ o Hc Hcases) as [Hcos Hnz].
  apply Rabs_bounds in Hcos.
  exists o, T.
  do 4 (split; [assumption|]).
  rewrite HT, tilt_block. cbn [row0 vx].
  split; [reflexivity|]. split; [apply Rabs_le|]; lra.
Qed.

Lemma offset_round_trip_fails_witness :
  exists T : Matrix4,
    generate_joint_data quarter_turn "base" "arm" Identity4 tilted_child
      Samples.limited_hinge Cases.default_props
    = Ok (exported_hinge (1571 # 1000)) /\
    imported_child_pose Cases.plain_options two_bodies Identity4
      (exported_hinge (1571 # 1000)) = Ok T /\
    19 / 1000 < vx (row0 (block tilted_child)) - vx (row0 (block T)).
Proof.
  destruct (offset_round_trip_fails quarter_turn)
    as [o [T [Hgen [Ho [_ [Himp [_ [_ Hdev]]]]]]]].
  { split; [exact unit_tilt_axis|reflexivity]. }
  assert (E : o = 1571 # 1000).
  { rewrite Ho. unfold quarter_turn, tilt_axis. cbn [fst snd vz].
    pose proof lean_bounds as Hl.
    destruct (decide (0 < lean)) as [_|Hn]; [|lra].
    apply Qround3_quarter_turn. }
  clear Ho. subst o. exists T.
  split; [exact Hgen|]. split; [exact Himp|exact Hdev].
Defined.

End RoundTripFacts.
